(** * CyGutz / pythtb: the tight-binding model engine

    A shallow embedding of [src/pyextern/pythtb/pythtb.py] (class [tb_model]
    and the helper [_nicefy_eig]) together with the properties its
    specification states about it.

    Modelling conventions.
    - numpy [float64] values are modelled by the real numbers [R] and numpy
      [complex128] values by pairs of reals: rounding error is not modelled,
      so a property stated "within tolerance" is settled on exact values.
      Where the source can produce a floating-point special value (a division
      by zero giving [nan] or [inf]) the model writes the case out.
    - A Python exception is a value of [pyerr]; a call that can raise returns
      a [result].
    - [numpy.linalg.eigvalsh] and [numpy.linalg.eigh] are external: they are
      parameters of the functions that call them. *)

From Stdlib Require Import Reals Lra Lia ZArith Bool String.
From Stdlib Require Import List Permutation Sorted.
Import ListNotations.
Local Open Scope R_scope.

(* ================================================================== *)
(** ** Python exceptions and fallible computations *)

(** The exceptions that the modelled code can raise.  The text of an
    [Exception] is the source's, without its leading line breaks. *)
Inductive pyerr : Type :=
| Exception (msg : string)
| IndexError
| ValueError
| ZeroDivisionError
| OverflowError
| LinAlgError.

Inductive result (A : Type) : Type :=
| Ok (a : A)
| Raise (e : pyerr).
Arguments Ok {A} a.
Arguments Raise {A} e.

Definition bind {A B} (r : result A) (k : A -> result B) : result B :=
  match r with
  | Ok a => k a
  | Raise e => Raise e
  end.

Notation "x <- e ;; k" := (bind e (fun x => k))
  (at level 61, e at next level, right associativity).

Fixpoint foldM {A B} (f : B -> A -> result B) (l : list A) (b : B) : result B :=
  match l with
  | [] => Ok b
  | a :: l' => b' <- f b a ;; foldM f l' b'
  end.

(** The spec's error taxonomy.  The source raises plain [Exception]s; the
    two kinds of the specification are told apart by the message. *)
Definition not_hermitian_msg : string := "Hamiltonian matrix is not hermitian?!".

Definition NumericalInconsistencyError (e : pyerr) : Prop :=
  e = Exception not_hermitian_msg.

Definition ConfigurationError (e : pyerr) : Prop :=
  exists msg, e = Exception msg /\ msg <> not_hermitian_msg.

(* ================================================================== *)
(** ** Decisions on reals, as booleans *)

Definition Rltb (x y : R) : bool := if Rlt_dec x y then true else false.
Definition Rleb (x y : R) : bool := if Rle_dec x y then true else false.
Definition Reqb (x y : R) : bool := if Req_dec_T x y then true else false.

(* ================================================================== *)
(** ** Complex numbers (numpy [complex128]) *)

Definition C : Type := (R * R)%type.

Definition Re (z : C) : R := fst z.
Definition Im (z : C) : R := snd z.
Definition RtoC (x : R) : C := (x, 0).
Definition C0 : C := (0, 0).
Definition Ci : C := (0, 1).

Definition Cadd (a b : C) : C := (Re a + Re b, Im a + Im b).
Definition Csub (a b : C) : C := (Re a - Re b, Im a - Im b).
Definition Cmul (a b : C) : C :=
  (Re a * Re b - Im a * Im b, Re a * Im b + Im a * Re b).
Definition Cconj (a : C) : C := (Re a, - Im a).
(** complex / real, as in [phase/deg] *)
Definition Cdivr (a : C) (d : R) : C := (Re a / d, Im a / d).
(** [np.exp] on a complex argument *)
Definition Cexp (z : C) : C := (exp (Re z) * cos (Im z), exp (Re z) * sin (Im z)).
Definition Cmod (z : C) : R := sqrt (Re z * Re z + Im z * Im z).

Definition Csum (l : list C) : C := fold_right Cadd C0 l.

Ltac Csimpl :=
  unfold Cadd, Csub, Cmul, Cconj, Cdivr, Cexp, RtoC, C0, Ci, Re, Im in *; simpl in *.

(* ================================================================== *)
(** ** Vectors and the 3x3 lattice matrix *)

Definition vec3 : Type := (R * R * R)%type.
Definition ivec3 : Type := (Z * Z * Z)%type.
Definition mat3 : Type := (vec3 * vec3 * vec3)%type.

Definition vadd (a b : vec3) : vec3 :=
  let '(a1, a2, a3) := a in let '(b1, b2, b3) := b in (a1 + b1, a2 + b2, a3 + b3).
Definition vsub (a b : vec3) : vec3 :=
  let '(a1, a2, a3) := a in let '(b1, b2, b3) := b in (a1 - b1, a2 - b2, a3 - b3).
Definition vneg (a : vec3) : vec3 :=
  let '(a1, a2, a3) := a in (- a1, - a2, - a3).
Definition vscale (c : R) (a : vec3) : vec3 :=
  let '(a1, a2, a3) := a in (c * a1, c * a2, c * a3).
Definition vdot (a b : vec3) : R :=
  let '(a1, a2, a3) := a in let '(b1, b2, b3) := b in a1 * b1 + a2 * b2 + a3 * b3.
Definition vzero : vec3 := (0, 0, 0).
Definition ivec_to_R (v : ivec3) : vec3 :=
  let '(a, b, c) := v in (IZR a, IZR b, IZR c).
Definition ivneg (v : ivec3) : ivec3 :=
  let '(a, b, c) := v in ((- a)%Z, (- b)%Z, (- c)%Z).

Definition vec3_to_list (v : vec3) : list R :=
  let '(a, b, c) := v in [a; b; c].
Definition as_vec3 (l : list R) : option vec3 :=
  match l with
  | [a; b; c] => Some (a, b, c)
  | _ => None
  end.

(** [np.linalg.det] of a 3x3 array *)
Definition det3 (m : mat3) : R :=
  let '((a11, a12, a13), (a21, a22, a23), (a31, a32, a33)) := m in
  a11 * (a22 * a33 - a23 * a32)
  - a12 * (a21 * a33 - a23 * a31)
  + a13 * (a21 * a32 - a22 * a31).

(** [lat.T] *)
Definition transpose3 (m : mat3) : mat3 :=
  let '((a11, a12, a13), (a21, a22, a23), (a31, a32, a33)) := m in
  ((a11, a21, a31), (a12, a22, a32), (a13, a23, a33)).

(** [np.dot] of a 3x3 array and a 3-vector *)
Definition mat_vec (m : mat3) (v : vec3) : vec3 :=
  let '(r1, r2, r3) := m in (vdot r1 v, vdot r2 v, vdot r3 v).

(** [np.dot] of two 3x3 arrays *)
Definition mat_mul (a b : mat3) : mat3 :=
  let '(r1, r2, r3) := a in
  let '(c1, c2, c3) := transpose3 b in
  ((vdot r1 c1, vdot r1 c2, vdot r1 c3),
   (vdot r2 c1, vdot r2 c2, vdot r2 c3),
   (vdot r3 c1, vdot r3 c2, vdot r3 c3)).

(** the adjugate (transposed cofactor matrix) *)
Definition adj3 (m : mat3) : mat3 :=
  let '((a11, a12, a13), (a21, a22, a23), (a31, a32, a33)) := m in
  ((a22 * a33 - a23 * a32, a13 * a32 - a12 * a33, a12 * a23 - a13 * a22),
   (a23 * a31 - a21 * a33, a11 * a33 - a13 * a31, a13 * a21 - a11 * a23),
   (a21 * a32 - a22 * a31, a12 * a31 - a11 * a32, a11 * a22 - a12 * a21)).

Definition mat_scale (c : R) (m : mat3) : mat3 :=
  let '(r1, r2, r3) := m in (vscale c r1, vscale c r2, vscale c r3).

(** [np.linalg.inv] on exact reals: the inverse of a matrix of non-zero
    determinant, [LinAlgError] on a singular one.  (In floating point the
    LU factorisation raises only on a pivot that is exactly zero; what is
    proved below of an inverse is proved for a non-zero determinant.) *)
Definition inv3 (m : mat3) : result mat3 :=
  if Reqb (det3 m) 0 then Raise LinAlgError
  else Ok (mat_scale (/ det3 m) (adj3 m)).

(* ================================================================== *)
(** ** Lists as numpy arrays: shapes and checked indexing *)

(** The shape of [np.array(rows, dtype=float)] for a list of lists of numbers:
    an empty list is the rank-1 array of shape [(0,)], rows of one common
    length [c] give shape [(n, c)], and ragged rows make numpy raise
    [ValueError]. *)
Definition shape2 {A} (rows : list (list A)) : result (list nat) :=
  match rows with
  | [] => Ok [0%nat]
  | r :: rs =>
      if forallb (fun r' => Nat.eqb (length r') (length r)) rs
      then Ok [length rows; length r]
      else Raise ValueError
  end.

Definition shape_eqb (s1 s2 : list nat) : bool :=
  if list_eq_dec Nat.eq_dec s1 s2 then true else false.

(** Python indexing of an axis of length [n] by the integer [i]: negative
    indices count from the end, anything outside [-n, n) raises. *)
Definition py_index (n : nat) (i : Z) : result nat :=
  if ((0 <=? i) && (i <? Z.of_nat n))%Z then Ok (Z.to_nat i)
  else if ((- Z.of_nat n <=? i) && (i <? 0))%Z then Ok (Z.to_nat (Z.of_nat n + i))
  else Raise IndexError.

(** in-place update of a list cell; nothing happens out of range (callers
    check the index with [py_index] first) *)
Fixpoint upd {A} (l : list A) (n : nat) (v : A) : list A :=
  match l, n with
  | [], _ => []
  | _ :: t, O => v :: t
  | h :: t, S n' => h :: upd t n' v
  end.

(** dense complex matrices, as lists of rows *)
Definition matrix : Type := list (list C).

Definition np_zeros2 (r c : nat) : matrix := repeat (repeat C0 c) r.
Definition get2 (h : matrix) (i j : nat) : C := nth j (nth i h []) C0.
Definition set2 (h : matrix) (i j : nat) (v : C) : matrix :=
  upd h i (upd (nth i h []) j v).
Definition is_square (n : nat) (h : matrix) : Prop :=
  length h = n /\ Forall (fun row => length row = n) h.

(* ================================================================== *)
(** ** The model: [tb_model.__init__] *)

(** [self._dim_k = 3] and [self._dim_r = 3] are set unconditionally by the
    constructor: they are constants of the class. *)
Definition _dim_k : nat := 3.
Definition _dim_r : nat := 3.

Record tb_model : Type := mk_tb_model {
  _lat : mat3;
  _orb : list vec3;
  _norb : nat;
  _nspin : Z;
  deg_ws : list Z;
  Rvec_list : list ivec3;
  Hmat_list : list (list (Z * Z * C))
}.

Fixpoint as_rows3 (rows : list (list R)) : option (list vec3) :=
  match rows with
  | [] => Some []
  | r :: rs =>
      match as_vec3 r, as_rows3 rs with
      | Some v, Some vs => Some (v :: vs)
      | _, _ => None
      end
  end.

Definition as_mat3 (rows : list (list R)) : option mat3 :=
  match as_rows3 rows with
  | Some [r1; r2; r3] => Some (r1, r2, r3)
  | _ => None
  end.

(** [__init__(self, lat, orb, deg_ws, Rvec_list, Hmat_list, nspin=1)].
    The hopping table is stored as it is given: the constructor checks the
    lattice, the orbital array and [nspin] only. *)
Definition __init__ (lat orb : list (list R)) (deg : list Z) (Rvec : list ivec3)
    (Hmat : list (list (Z * Z * C))) (nspin : Z) : result tb_model :=
  lat_shape <- shape2 lat ;;
  if negb (shape_eqb lat_shape [_dim_r; _dim_r])
  then Raise (Exception "Wrong lat array dimensions")
  else
    match as_mat3 lat with
    | None => Raise (Exception "Wrong lat array dimensions")
    | Some L =>
        if Rltb (Rabs (det3 L)) 1.0E-6
        then Raise (Exception "Lattice vectors length/area/volume too close to zero, or zero.")
        else if Rltb (det3 L) 0.0
        then Raise (Exception "Lattice vectors need to form right handed system.")
        else
          orb_shape <- shape2 orb ;;
          if negb (Nat.eqb (length orb_shape) 2)
          then Raise (Exception "Wrong orb array rank")
          else if negb (Nat.eqb (nth 1 orb_shape 0%nat) _dim_r)
          then Raise (Exception "Wrong orb array dimensions")
          else
            match as_rows3 orb with
            | None => Raise (Exception "Wrong orb array dimensions")
            | Some orbs =>
                if negb (Z.eqb nspin 1 || Z.eqb nspin 2)
                then Raise (Exception "Wrong value of nspin, must be 1 or 2!")
                else Ok (mk_tb_model L orbs (nth 0 orb_shape 0%nat) nspin deg Rvec Hmat)
            end
    end.

(* ================================================================== *)
(** ** The Hamiltonian builder: [tb_model._gen_ham] *)

Fixpoint zip3 {X Y Z'} (a : list X) (b : list Y) (c : list Z') : list (X * Y * Z') :=
  match a, b, c with
  | x :: a', y :: b', z :: c' => (x, y, z) :: zip3 a' b' c'
  | _, _, _ => []
  end.

(** one pass of the inner loop body: [i,j,amp = ham12; ...; ham[i,j] += amp] *)
Definition hop_step (m : tb_model) (kpnt : vec3) (deg : Z) (vecR : ivec3)
    (ham : matrix) (ham12 : Z * Z * C) : result matrix :=
  let '(i, j, amp) := ham12 in
  oi <- py_index (length (_orb m)) i ;;
  oj <- py_index (length (_orb m)) j ;;
  let rv := vadd (vadd (vneg (nth oi (_orb m) vzero)) (nth oj (_orb m) vzero))
                 (ivec_to_R vecR) in
  let phase := Cexp (Cmul (Cmul (0, 2.0) (RtoC PI)) (RtoC (vdot kpnt rv))) in
  let amp := Cmul amp (Cdivr phase (IZR deg)) in
  hi <- py_index (_norb m) i ;;
  hj <- py_index (_norb m) j ;;
  Ok (set2 ham hi hj (Cadd (get2 ham hi hj) amp)).

(** the outer loop body: [for ham12 in ham1] *)
Definition shell_step (m : tb_model) (kpnt : vec3) (ham : matrix)
    (shell : Z * ivec3 * list (Z * Z * C)) : result matrix :=
  let '(deg, vecR, ham1) := shell in
  foldM (hop_step m kpnt deg vecR) ham1 ham.

(** [_gen_ham(self, k_input=None)]; a k-vector has the 3 components of
    the model's k-space *)
Definition _gen_ham (m : tb_model) (k_input : option vec3) : result matrix :=
  match k_input with
  | None => Raise (Exception "Have to provide a k-vector!")
  | Some kpnt =>
      let ham := np_zeros2 (_norb m) (_norb m) in
      foldM (shell_step m kpnt) (zip3 (deg_ws m) (Rvec_list m) (Hmat_list m)) ham
  end.

(* ================================================================== *)
(** ** The Bloch sum, as the specification words it *)

(** one hopping-table entry: the shell's degeneracy and translation, and
    the matrix element [(i, j, amplitude)] *)
Definition hop : Type := (Z * ivec3 * (Z * Z * C))%type.

Definition shells (m : tb_model) : list (Z * ivec3 * list (Z * Z * C)) :=
  zip3 (deg_ws m) (Rvec_list m) (Hmat_list m).

Definition shell_hops (s : Z * ivec3 * list (Z * Z * C)) : list hop :=
  let '(deg, vecR, ham1) := s in map (fun e => (deg, vecR, e)) ham1.

Definition hops (m : tb_model) : list hop := flat_map shell_hops (shells m).

Definition orb_at (m : tb_model) (i : Z) : vec3 := nth (Z.to_nat i) (_orb m) vzero.

(** [exp(2 pi i x)] for a real [x] *)
Definition expi2pi (x : R) : C := (cos (2 * PI * x), sin (2 * PI * x)).

(** [d = orb[j] - orb[i] + R] *)
Definition displacement (m : tb_model) (i j : Z) (vecR : ivec3) : vec3 :=
  vadd (vsub (orb_at m j) (orb_at m i)) (ivec_to_R vecR).

(** [amplitude * exp(2 pi i k.d) / deg] *)
Definition bloch_term (m : tb_model) (k : vec3) (h : hop) : C :=
  let '(deg, vecR, (i, j, amp)) := h in
  Cdivr (Cmul amp (expi2pi (vdot k (displacement m i j vecR)))) (IZR deg).

Definition hop_at (i j : nat) (h : hop) : bool :=
  let '(_, _, (hi, hj, _)) := h in
  (Z.eqb hi (Z.of_nat i) && Z.eqb hj (Z.of_nat j))%bool.

(** the sum over all shells and all their matrix elements [(i, j, _)] *)
Definition bloch_sum (m : tb_model) (k : vec3) (i j : nat) : C :=
  Csum (map (bloch_term m k) (filter (hop_at i j) (hops m))).

(** The data-model invariants of the hopping table: orbital indices are
    0-based and in range, degeneracy weights are positive. *)
Definition hop_okb (n : nat) (h : hop) : bool :=
  let '(deg, _, (i, j, _)) := h in
  ((0 <=? i) && (i <? Z.of_nat n) && (0 <=? j) && (j <? Z.of_nat n) && (0 <? deg))%Z.

Definition model_okb (m : tb_model) : bool :=
  Nat.eqb (length (_orb m)) (_norb m) && forallb (hop_okb (_norb m)) (hops m).

(** Hermiticity of a matrix, exactly and within a tolerance *)
Definition hermitian (n : nat) (h : matrix) : Prop :=
  forall i j, (i < n)%nat -> (j < n)%nat -> get2 h i j = Cconj (get2 h j i).

Definition hermitian_within (tol : R) (n : nat) (h : matrix) : Prop :=
  forall i j, (i < n)%nat -> (j < n)%nat ->
    Cmod (Csub (get2 h i j) (Cconj (get2 h j i))) <= tol.

(* ================================================================== *)
(** ** Conjugate partners and reciprocal translations *)

(** the Hermitian partner of an entry: [(j, i, conj(amp))] in the shell
    with translation [-R] and the same degeneracy *)
Definition partner (h : hop) : hop :=
  let '(deg, vecR, (i, j, amp)) := h in (deg, ivneg vecR, (j, i, Cconj amp)).

(** every entry has a partner somewhere in the table *)
Definition has_partners (m : tb_model) : Prop :=
  forall h, In h (hops m) -> In (partner h) (hops m).

(** every entry has its partner with the same multiplicity: the table, as a
    multiset, is closed under [partner] *)
Definition paired_partners (m : tb_model) : Prop :=
  Permutation (map partner (hops m)) (hops m).

(** the orbitals joined by an entry differ by a lattice vector *)
Definition integer_offset (m : tb_model) (h : hop) : Prop :=
  let '(_, _, (i, j, _)) := h in
  exists d : ivec3, vsub (orb_at m j) (orb_at m i) = ivec_to_R d.

Definition integer_offsets (m : tb_model) : Prop :=
  Forall (integer_offset m) (hops m).

(** ** Concrete models used below *)

Definition identity_lat : list (list R) := [[1; 0; 0]; [0; 1; 0]; [0; 0; 1]].
Definition identity3 : mat3 := ((1, 0, 0), (0, 1, 0), (0, 0, 1)).

(** the one-orbital chain: a shell [R = [1,0,0]] with element [(0,0,t)] and
    its partner shell [R = [-1,0,0]] with element [(0,0,conj(t))] *)
Definition chain_model (t : C) : tb_model :=
  mk_tb_model identity3 [(0, 0, 0)] 1 1
    [1%Z; 1%Z] [(1%Z, 0%Z, 0%Z); ((-1)%Z, 0%Z, 0%Z)]
    [[(0%Z, 0%Z, t)]; [(0%Z, 0%Z, Cconj t)]].

(** a chain whose forward hop is listed twice and whose backward hop once *)
Definition doubled_chain : tb_model :=
  mk_tb_model identity3 [(0, 0, 0)] 1 1
    [1%Z; 1%Z] [(1%Z, 0%Z, 0%Z); ((-1)%Z, 0%Z, 0%Z)]
    [[(0%Z, 0%Z, (1, 0)); (0%Z, 0%Z, (1, 0))]; [(0%Z, 0%Z, (1, 0))]].

(** two orbitals half a cell apart, joined inside the home cell *)
Definition dimer_model : tb_model :=
  mk_tb_model identity3 [(0, 0, 0); (/ 2, 0, 0)] 2 1
    [1%Z] [(0%Z, 0%Z, 0%Z)]
    [[(0%Z, 1%Z, (1, 0)); (1%Z, 0%Z, (1, 0))]].

(** two matrices agree entry by entry up to [tol] *)
Definition close_within (tol : R) (n : nat) (h h' : matrix) : Prop :=
  forall i j, (i < n)%nat -> (j < n)%nat ->
    Cmod (Csub (get2 h i j) (get2 h' i j)) <= tol.

(* ================================================================== *)
(** ** The eigensolver wrapper: [_nicefy_eig] and [tb_model._sol_ham] *)

(** numpy orders complex numbers lexicographically, real part first; this
    is the order behind [np.max] on a complex array and behind [>] on a
    complex scalar. *)
Definition Cgt (a b : C) : bool :=
  Rltb (Re b) (Re a) || (Reqb (Re a) (Re b) && Rltb (Im b) (Im a)).

Definition Cge (a b : C) : bool :=
  Rltb (Re b) (Re a) || (Reqb (Re a) (Re b) && Rleb (Im b) (Im a)).

(** [np.maximum] *)
Definition Cmax (a b : C) : C := if Cge a b then a else b.

(** [np.max] of the flattened array; an empty array raises [ValueError] *)
Definition np_max (l : list C) : result C :=
  match l with
  | [] => Raise ValueError
  | x :: xs => Ok (fold_left Cmax xs x)
  end.

Definition ncols (h : matrix) : nat :=
  match h with
  | [] => 0%nat
  | r :: _ => length r
  end.

(** [ham.T] *)
Definition transpose (h : matrix) : matrix :=
  map (fun j => map (fun row => nth j row C0) h) (seq 0 (ncols h)).

(** [ham.conj()] *)
Definition mconj (h : matrix) : matrix := map (map Cconj) h.

Fixpoint zip_with {X Y Z'} (f : X -> Y -> Z') (a : list X) (b : list Y) : list Z' :=
  match a, b with
  | x :: a', y :: b' => f x y :: zip_with f a' b'
  | _, _ => []
  end.

(** [a - b] for two arrays of one shape *)
Definition msub (a b : matrix) : matrix := zip_with (zip_with Csub) a b.

(** [argsort]: the indices of [v] in ascending order of value.  numpy's
    default sort does not promise an order among equal values; this
    insertion sort keeps them in index order. *)
Fixpoint insert_idx (v : list R) (i : nat) (sorted : list nat) : list nat :=
  match sorted with
  | [] => [i]
  | j :: rest =>
      if Rltb (nth i v 0) (nth j v 0) then i :: j :: rest
      else j :: insert_idx v i rest
  end.

(** the order [argsort] sorts the indices by *)
Definition by_value (v : list R) (a b : nat) : Prop := nth a v 0 <= nth b v 0.

Definition argsort (v : list R) : list nat :=
  fold_left (fun acc i => insert_idx v i acc) (seq 0 (length v)) [].

(** [a[args]]: selection by an index array *)
Definition take {X} (d : X) (a : list X) (args : list nat) : list X :=
  map (fun i => nth i a d) args.

(** what [_nicefy_eig] and [_sol_ham] return: the eigenvalues, or the pair
    of eigenvalues and eigenvectors *)
Inductive solution : Type :=
| Evals (eval : list R)
| EvalsVecs (eval : list R) (eig : matrix).

Definition solution_evals (s : solution) : list R :=
  match s with
  | Evals e => e
  | EvalsVecs e _ => e
  end.

(** [_nicefy_eig(eval, eig=None)] *)
Definition _nicefy_eig (eval : list C) (eig : option matrix) : solution :=
  let eval := map Re eval in
  let args := argsort eval in
  let eval := take 0 eval args in
  match eig with
  | Some eig => EvalsVecs eval (take [] eig args)
  | None => Evals eval
  end.

Section Solver.

(** [np.linalg.eigvalsh] and [np.linalg.eigh], supplied from outside *)
Variable eigvalsh : matrix -> list C.
Variable eigh : matrix -> list C * matrix.

Definition _sol_ham (ham : matrix) (eig_vectors : bool) : result solution :=
  mx <- np_max (concat (msub ham (mconj (transpose ham)))) ;;
  if Cgt mx (RtoC 1.0E-9)
  then Raise (Exception not_hermitian_msg)
  else if negb eig_vectors
  then
    let eval := eigvalsh ham in
    let eval := _nicefy_eig eval None in
    Ok (Evals (solution_evals eval))
  else
    let '(eval, eig) := eigh ham in
    Ok (_nicefy_eig eval (Some eig)).

End Solver.

(** [V . diag(E) . V^dagger] *)
Definition reconstruct (V : matrix) (E : list R) : matrix :=
  map (fun i =>
         map (fun j =>
                Csum (map (fun c => Cmul (Cmul (get2 V i c) (RtoC (nth c E 0)))
                                         (Cconj (get2 V j c)))
                          (seq 0 (length E))))
             (seq 0 (length V)))
      (seq 0 (length V)).

(** the largest modulus of an entry of [H - H^dagger] exceeds [tol] *)
Definition not_hermitian_beyond (tol : R) (n : nat) (h : matrix) : Prop :=
  exists i j, (i < n)%nat /\ (j < n)%nat /\
    tol < Cmod (Csub (get2 h i j) (Cconj (get2 h j i))).

(** matrix-vector product and the eigenvalue relation, for stating what
    an eigensolver owes its caller *)
Definition mat_apply (h : matrix) (v : list C) : list C :=
  map (fun row => Csum (zip_with Cmul row v)) h.

Definition is_eigenvalue (h : matrix) (lam : C) : Prop :=
  exists v, length v = length h /\ Exists (fun c => c <> C0) v /\
    mat_apply h v = map (Cmul lam) v.

Definition eigenvalues_of (eigvalsh : matrix -> list C) (h : matrix) : Prop :=
  length (eigvalsh h) = length h /\ Forall (is_eigenvalue h) (eigvalsh h).

(** the constructor arguments of the one-orbital chain *)
Definition chain_init (t : C) : result tb_model :=
  __init__ identity_lat [[0; 0; 0]] [1%Z; 1%Z]
    [(1%Z, 0%Z, 0%Z); ((-1)%Z, 0%Z, 0%Z)]
    [[(0%Z, 0%Z, t)]; [(0%Z, 0%Z, Cconj t)]] 1.

(** an eigensolver for 1x1 matrices: the eigenvalue is the entry *)
Definition eigvalsh_1x1 (h : matrix) : list C := map (fun row => nth 0 row C0) h.
Definition eigh_1x1 (h : matrix) : list C * matrix :=
  (eigvalsh_1x1 h, map (fun _ => [(1, 0)]) h).

(* ================================================================== *)
(** ** numpy arrays of any rank *)

(** An array is its shape and its elements in row-major (C) order. *)
Record ndarray (X : Type) : Type := mk_nd {
  nd_shape : list nat;
  nd_data : list X
}.
Arguments mk_nd {X} _ _.
Arguments nd_shape {X} _.
Arguments nd_data {X} _.

Definition size (shape : list nat) : nat := fold_right Nat.mul 1%nat shape.

(** the flat position of a multi-index, and back *)
Fixpoint ravel (shape idx : list nat) : nat :=
  match shape, idx with
  | _ :: shape', i :: idx' => (i * size shape' + ravel shape' idx')%nat
  | _, _ => 0%nat
  end.

Fixpoint unravel (shape : list nat) (p : nat) : list nat :=
  match shape with
  | [] => []
  | _ :: shape' => (p / size shape')%nat :: unravel shape' (p mod size shape')%nat
  end.

(** a multi-index within the bounds of a shape *)
Definition in_bounds (shape idx : list nat) : Prop := Forall2 lt idx shape.

Definition nd_get {X} (d : X) (a : ndarray X) (idx : list nat) : X :=
  nth (ravel (nd_shape a) idx) (nd_data a) d.

(** the array of a given shape whose element at [idx] is [f idx] *)
Definition nd_build {X} (shape : list nat) (f : list nat -> X) : ndarray X :=
  mk_nd shape (map (fun p => f (unravel shape p)) (seq 0 (size shape))).

(** [np.mgrid[0:n1, ..., 0:nd]]: shape [(d, n1, ..., nd)], the element at
    [(c, i1, ..., id)] being [i_c] *)
Definition np_mgrid (dims : list nat) : ndarray nat :=
  nd_build (length dims :: dims)
    (fun idx => match idx with
                | c :: rest => nth c rest 0%nat
                | [] => 0%nat
                end).

(** [np.tile(a, reps)] for a rank-1 [a] and at least one repetition count:
    [a] is repeated along the last axis, and the whole along the others *)
Definition np_tile {X} (d : X) (a : list X) (reps : list nat) : ndarray X :=
  nd_build (removelast reps ++ [(last reps 0 * length a)%nat])
    (fun idx => nth (last idx 0%nat mod length a) a d).

(** [a.reshape(shape)]: the elements keep their row-major order; a shape
    of another size raises [ValueError] *)
Definition np_reshape {X} (a : ndarray X) (shape : list nat) : result (ndarray X) :=
  if Nat.eqb (size shape) (length (nd_data a))
  then Ok (mk_nd shape (nd_data a))
  else Raise ValueError.

Fixpoint index_of (x : nat) (l : list nat) : nat :=
  match l with
  | [] => 0%nat
  | y :: l' => if Nat.eqb x y then 0%nat else S (index_of x l')
  end.

(** [a.transpose(axes)] for a permutation [axes] of the axes: axis [i] of
    the result is axis [axes[i]] of [a] *)
Definition np_transpose {X} (d : X) (a : ndarray X) (axes : list nat) : ndarray X :=
  nd_build (map (fun ax => nth ax (nd_shape a) 0%nat) axes)
    (fun idx' =>
       nd_get d a (map (fun pos => nth (index_of pos axes) idx' 0%nat)
                       (seq 0 (length axes)))).

(** [a / b] for an integer array and a float array of one shape *)
Definition np_divide (a : ndarray nat) (b : ndarray R) : result (ndarray R) :=
  if shape_eqb (nd_shape a) (nd_shape b)
  then Ok (mk_nd (nd_shape a) (zip_with (fun x y => INR x / y) (nd_data a) (nd_data b)))
  else Raise ValueError.

(** [np.min] of an integer array *)
Definition np_min (l : list Z) : result Z :=
  match l with
  | [] => Raise ValueError
  | x :: xs => Ok (fold_left Z.min xs x)
  end.

(* ================================================================== *)
(** ** The k-mesh generator: [tb_model.k_uniform_mesh] *)

(** [mesh_size] is a sequence of integers, on which [round] is the
    identity.  Only the branch [self._dim_k == 3] can run. *)
Definition k_uniform_mesh (m : tb_model) (mesh_size : list Z) : result (ndarray R) :=
  let use_mesh := mesh_size in
  if negb (shape_eqb [length use_mesh] [_dim_k])
  then Raise (Exception "Incorrect size of the specified k-mesh!")
  else
    lo <- np_min use_mesh ;;
    if (lo <=? 0)%Z
    then Raise (Exception "Mesh must have positive non-zero number of elements.")
    else
      let dims := map Z.to_nat use_mesh in
      let k_vec := np_mgrid dims in
      let norm := np_tile 0 (map IZR use_mesh) dims in
      norm <- np_reshape norm (dims ++ [3%nat]) ;;
      let norm := np_transpose 0 norm [3; 0; 1; 2]%nat in
      k_vec <- np_divide k_vec norm ;;
      let k_vec := np_transpose 0 k_vec [1; 2; 3; 0]%nat in
      np_reshape k_vec [(nth 0 dims 0 * nth 1 dims 0 * nth 2 dims 0)%nat; 3%nat].

(** the k-point in row [p] of a mesh or path array *)
Definition nd_row (a : ndarray R) (p : nat) : vec3 :=
  (nd_get 0 a [p; 0%nat], nd_get 0 a [p; 1%nat], nd_get 0 a [p; 2%nat]).

(** the array [k_vec/norm] of [k_uniform_mesh], before its final transpose *)
Definition mesh_quotient (n1 n2 n3 : Z) : ndarray R :=
  let N1 := Z.to_nat n1 in let N2 := Z.to_nat n2 in let N3 := Z.to_nat n3 in
  mk_nd [3%nat; N1; N2; N3]
    (zip_with (fun x y => INR x / y)
       (nd_data (np_mgrid [N1; N2; N3]))
       (nd_data (np_transpose 0
                   (mk_nd [N1; N2; N3; 3%nat]
                      (nd_data (np_tile 0 [IZR n1; IZR n2; IZR n3] [N1; N2; N3])))
                   [3; 0; 1; 2]%nat))).

(** proof steps for index bounds *)
Ltac bounds := unfold in_bounds; repeat (apply Forall2_cons; [lia|]); apply Forall2_nil.

(* ================================================================== *)
(** ** The k-path interpolator: [tb_model.k_path] *)

(** the [kpts] argument: one of the 1D presets, or an array of nodes *)
Inductive kpts_arg : Type :=
| KFull
| KFullc
| KHalf
| KArray (rows : list (list R)).

(** Python 3 [round] of a float to an integer: to the nearest, a tie to
    the even neighbour *)
Definition py_round (x : R) : Z :=
  let f := Int_part x in
  let d := frac_part x in
  if Rltb d (1 / 2) then f
  else if Rltb (1 / 2) d then (f + 1)%Z
  else if Z.even f then f else (f + 1)%Z.

(** [range(a, b)] *)
Definition zrange (a b : Z) : list Z :=
  map (fun t => (a + Z.of_nat t)%Z) (seq 0 (Z.to_nat (b - a))).

(** [l[i] = v] with Python's index check *)
Definition setitem {X} (l : list X) (i : Z) (v : X) : result (list X) :=
  n <- py_index (length l) i ;; Ok (upd l n v).

(** the distance [sqrt(dk . (k_metric . dk))] between two nodes *)
Definition dklen (k_metric : mat3) (k_prev k_next : vec3) : R :=
  let dk := vsub k_next k_prev in
  sqrt (vdot dk (mat_vec k_metric dk)).

(** the loop filling [k_node], the accumulated distance of each node *)
Definition node_step (k_metric : mat3) (k_list : list vec3) (k_node : list R) (n : nat)
  : list R :=
  upd k_node n
      (nth (n - 1) k_node 0
       + dklen k_metric (nth (n - 1) k_list vzero) (nth n k_list vzero)).

Definition node_distances (k_metric : mat3) (k_list : list vec3) : list R :=
  let n_nodes := length k_list in
  fold_left (node_step k_metric k_list) (seq 1 (n_nodes - 1)) (repeat 0 n_nodes).

(** [int(round(frac*(nk-1)))] for [frac = k_node[n]/k_node[-1]], on exact
    reals (for the floating-point outcome as a parameter see
    [k_path_with]).  numpy
    divides by zero without raising: 0/0 is [nan], which [round] refuses
    with [ValueError], and x/0 is infinite, which it refuses with
    [OverflowError]. *)
Definition interior_index (k_node : list R) (nk : Z) (n : nat) : result Z :=
  let num := nth n k_node 0 in
  let den := last k_node 0 in
  if Reqb den 0
  then
    if Reqb num 0 then Raise ValueError
    else if Z.eqb (nk - 1) 0 then Raise ValueError
    else Raise OverflowError
  else
    let frac := num / den in
    Ok (py_round (frac * IZR (nk - 1))).

Fixpoint mapM {X Y} (f : X -> result Y) (l : list X) : result (list Y) :=
  match l with
  | [] => Ok []
  | x :: l' => y <- f x ;; ys <- mapM f l' ;; Ok (y :: ys)
  end.

(** the indices of the nodes in the interpolated list *)
Definition node_indices (n_nodes : nat) (k_node : list R) (nk : Z) : result (list Z) :=
  inner <- mapM (interior_index k_node nk) (seq 1 (n_nodes - 2)) ;;
  Ok ([0%Z] ++ inner ++ [(nk - 1)%Z]).

(** the body of [for j in range(n_i, n_f+1)]; Python's float division
    raises on a zero divisor *)
Definition point_step (n_i n_f : Z) (kd_i kd_f : R) (k_i k_f : vec3)
    (st : list R * list vec3) (j : Z) : result (list R * list vec3) :=
  let '(k_dist, k_vec) := st in
  if Z.eqb (n_f - n_i) 0 then Raise ZeroDivisionError
  else
    let frac := IZR (j - n_i) / IZR (n_f - n_i) in
    k_dist <- setitem k_dist j (kd_i + frac * (kd_f - kd_i)) ;;
    k_vec <- setitem k_vec j (vadd k_i (vscale frac (vsub k_f k_i))) ;;
    Ok (k_dist, k_vec).

(** the body of [for n in range(1, n_nodes)] *)
Definition segment_step (k_list : list vec3) (k_node : list R) (node_index : list Z)
    (st : list R * list vec3) (n : nat) : result (list R * list vec3) :=
  let n_i := nth (n - 1) node_index 0%Z in
  let n_f := nth n node_index 0%Z in
  let kd_i := nth (n - 1) k_node 0 in
  let kd_f := nth n k_node 0 in
  let k_i := nth (n - 1) k_list vzero in
  let k_f := nth n k_list vzero in
  foldM (point_step n_i n_f kd_i kd_f k_i k_f) (zrange n_i (n_f + 1)) st.

(** the node array [k_list] of a [kpts] argument *)
Definition k_list_of (kpts : kpts_arg) : list (list R) :=
  match kpts with
  | KFull => [[0]; [0.5]; [1]]
  | KFullc => [[-0.5]; [0]; [0.5]]
  | KHalf => [[0]; [0.5]]
  | KArray rows => rows
  end.

(** [k_path(self, kpts, nk, report)]: the printed report does not touch
    the returned data and is left out.  Returns [(k_vec, k_dist, k_node)]. *)
Definition k_path (m : tb_model) (kpts : kpts_arg) (nk : Z)
  : result (list vec3 * list R * list R) :=
  let rows := k_list_of kpts in
  shape <- shape2 rows ;;
  if Nat.ltb (length shape) 2 then Raise IndexError
  else if negb (Nat.eqb (nth 1 shape 0%nat) _dim_k)
  then Raise (Exception "k-space dimensions do not match")
  else
    match as_rows3 rows with
    | None => Raise (Exception "k-space dimensions do not match")
    | Some k_list =>
        if (nk <? Z.of_nat (nth 0 shape 0%nat))%Z
        then Raise (Exception "Must have more points in the path than number of nodes.")
        else
          let n_nodes := nth 0 shape 0%nat in
          let lat_per := _lat m in
          k_metric <- inv3 (mat_mul lat_per (transpose3 lat_per)) ;;
          let k_node := node_distances k_metric k_list in
          node_index <- node_indices n_nodes k_node nk ;;
          let k_dist := repeat 0 (Z.to_nat nk) in
          let k_vec := repeat vzero (Z.to_nat nk) in
          k_vec <- setitem k_vec 0 (nth 0 k_list vzero) ;;
          st <- foldM (segment_step k_list k_node node_index)
                      (seq 1 (n_nodes - 1)) (k_dist, k_vec) ;;
          Ok (snd st, fst st, k_node)
    end.

(** accepting a list of 3-vectors as the [kpts] array *)
Definition nodes_arg (nodes : list vec3) : kpts_arg := KArray (map vec3_to_list nodes).

Definition mat3_rows (L : mat3) : list (list R) :=
  let '(r1, r2, r3) := L in [vec3_to_list r1; vec3_to_list r2; vec3_to_list r3].

(** ** Notions used to state the properties of [k_path] *)

Definition origin3 : vec3 := (0, 0, 0).
Definition unit_x : vec3 := (1, 0, 0).

Definition point_dist (n_i n_f : Z) (kd_i kd_f : R) (j : Z) : R :=
  kd_i + IZR (j - n_i) / IZR (n_f - n_i) * (kd_f - kd_i).

Definition point_vec (n_i n_f : Z) (k_i k_f : vec3) (j : Z) : vec3 :=
  vadd k_i (vscale (IZR (j - n_i) / IZR (n_f - n_i)) (vsub k_f k_i)).

Definition increasing (idx : list Z) : Prop :=
  forall k, (S k < length idx)%nat -> (nth k idx 0 < nth (S k) idx 0)%Z.

Definition path_inv (nodes : list vec3) (k_node : list R) (node_index : list Z)
    (L : nat) (k : nat) (st : list R * list vec3) : Prop :=
  let f := Z.to_nat (nth k node_index 0%Z) in
  length (fst st) = L /\ length (snd st) = L /\
  (forall a b, (a <= b <= f)%nat -> nth a (fst st) 0 <= nth b (fst st) 0) /\
  nth f (fst st) 0 = nth k k_node 0 /\
  nth 0 (snd st) vzero = nth 0 nodes vzero /\
  nth f (snd st) vzero = nth k nodes vzero.

(** [k_node] after the first [k] passes of its loop *)
Definition node_distances_upto (k_metric : mat3) (k_list : list vec3) (k : nat) : list R :=
  fold_left (node_step k_metric k_list) (seq 1 k) (repeat 0 (length k_list)).

(** [k_dist] and [k_vec] before the interpolation loop *)
Definition path_start (nodes : list vec3) (nk : Z) : list R * list vec3 :=
  (repeat 0 (Z.to_nat nk), upd (repeat vzero (Z.to_nat nk)) 0 (nth 0 nodes vzero)).

(** a model that the constructor returned *)
Definition constructed (m : tb_model) : Prop :=
  exists lat orb deg Rvec Hmat nspin, __init__ lat orb deg Rvec Hmat nspin = Ok m.

(* ================================================================== *)
(** ** [k_path] with the index computation as a parameter *)

(** The line [node_index.append(int(round(frac*(nk-1))))], with
    [frac = k_node[n]/k_node[-1]], is floating-point arithmetic followed
    by a rounding to the nearest integer: on a tie, or next to one, its
    result depends on the rounding errors of the division and of the
    product.  [interior_index] above computes it on exact reals.  Here the
    computation is a parameter [index_of], applied to [k_node[n]],
    [k_node[-1]] and [nk]; what is proved of [k_path_with] for every
    [index_of] holds whatever the floating-point result is. *)
Definition interior_index_with (index_of : R -> R -> Z -> result Z)
    (k_node : list R) (nk : Z) (n : nat) : result Z :=
  index_of (nth n k_node 0) (last k_node 0) nk.

Definition node_indices_with (index_of : R -> R -> Z -> result Z)
    (n_nodes : nat) (k_node : list R) (nk : Z) : result (list Z) :=
  inner <- mapM (interior_index_with index_of k_node nk) (seq 1 (n_nodes - 2)) ;;
  Ok ([0%Z] ++ inner ++ [(nk - 1)%Z]).

Definition k_path_with (index_of : R -> R -> Z -> result Z)
    (m : tb_model) (kpts : kpts_arg) (nk : Z)
  : result (list vec3 * list R * list R) :=
  let rows := k_list_of kpts in
  shape <- shape2 rows ;;
  if Nat.ltb (length shape) 2 then Raise IndexError
  else if negb (Nat.eqb (nth 1 shape 0%nat) _dim_k)
  then Raise (Exception "k-space dimensions do not match")
  else
    match as_rows3 rows with
    | None => Raise (Exception "k-space dimensions do not match")
    | Some k_list =>
        if (nk <? Z.of_nat (nth 0 shape 0%nat))%Z
        then Raise (Exception "Must have more points in the path than number of nodes.")
        else
          let n_nodes := nth 0 shape 0%nat in
          let lat_per := _lat m in
          k_metric <- inv3 (mat_mul lat_per (transpose3 lat_per)) ;;
          let k_node := node_distances k_metric k_list in
          node_index <- node_indices_with index_of n_nodes k_node nk ;;
          let k_dist := repeat 0 (Z.to_nat nk) in
          let k_vec := repeat vzero (Z.to_nat nk) in
          k_vec <- setitem k_vec 0 (nth 0 k_list vzero) ;;
          st <- foldM (segment_step k_list k_node node_index)
                      (seq 1 (n_nodes - 1)) (k_dist, k_vec) ;;
          Ok (snd st, fst st, k_node)
    end.

(** the index computation on exact reals: the one of [interior_index] *)
Definition exact_index (num den : R) (nk : Z) : result Z :=
  if Reqb den 0
  then
    if Reqb num 0 then Raise ValueError
    else if Z.eqb (nk - 1) 0 then Raise ValueError
    else Raise OverflowError
  else
    let frac := num / den in
    Ok (py_round (frac * IZR (nk - 1))).

(** an index list without two equal neighbours *)
Definition no_empty_segment (node_index : list Z) : Prop :=
  forall n, (S n < length node_index)%nat -> nth n node_index 0%Z <> nth (S n) node_index 0%Z.

(** the segment ending at node [n] has both ends inside an array of [L] points *)
Definition segment_inside (node_index : list Z) (L : nat) (n : nat) : Prop :=
  (0 <= nth (n - 1) node_index 0 < Z.of_nat L)%Z /\
  (0 <= nth n node_index 0 < Z.of_nat L)%Z.

(** the test "n_i <> n_f" on the segment that ends at node [n] *)
Definition segment_nonempty (node_index : list Z) (n : nat) : bool :=
  negb (nth (n - 1) node_index 0 =? nth n node_index 0)%Z.

(** three nodes on the x axis *)
Definition two_x : vec3 := (2, 0, 0).

(* ================================================================== *)
(** * Further properties of the engine *)

(** ** Notions for the constructor and the Hamiltonian builder *)

(** an index that Python accepts on an axis of length [n] *)
Definition py_in_range (n : nat) (i : Z) : bool :=
  ((- Z.of_nat n <=? i) && (i <? Z.of_nat n))%Z.

Definition hop_in_range (n : nat) (h : hop) : bool :=
  let '(_, _, (i, j, _)) := h in py_in_range n i && py_in_range n j.

(** Python's reading of a negative index: counted from the end *)
Definition wrap_index (n : nat) (i : Z) : Z := (i mod Z.of_nat n)%Z.

Definition wrap_element (n : nat) (e : Z * Z * C) : Z * Z * C :=
  let '(i, j, amp) := e in (wrap_index n i, wrap_index n j, amp).

(** the model with every orbital index of its table written 0-based *)
Definition wrap_indices (m : tb_model) : tb_model :=
  mk_tb_model (_lat m) (_orb m) (_norb m) (_nspin m) (deg_ws m) (Rvec_list m)
    (map (map (wrap_element (_norb m))) (Hmat_list m)).

(** the model [m1] with the table of [m2] appended to its own *)
Definition join_tables (m1 m2 : tb_model) : tb_model :=
  mk_tb_model (_lat m1) (_orb m1) (_norb m1) (_nspin m1)
    (deg_ws m1 ++ deg_ws m2) (Rvec_list m1 ++ Rvec_list m2)
    (Hmat_list m1 ++ Hmat_list m2).

(** the three lists of a table have one length *)
Definition table_aligned (m : tb_model) : Prop :=
  length (deg_ws m) = length (Rvec_list m) /\ length (Rvec_list m) = length (Hmat_list m).

Definition real_amplitudes (m : tb_model) : Prop :=
  Forall (fun h : hop => Im (snd (snd h)) = 0) (hops m).

(** ** Notions for the eigensolver wrapper *)

(** what the test of [_sol_ham] objects to in the entry (i, j) *)
Definition check_objects (ham : matrix) (i j : nat) : Prop :=
  let re := Re (get2 ham i j) - Re (get2 ham j i) in
  let im := Im (get2 ham i j) + Im (get2 ham j i) in
  1.0E-9 < re \/ (re = 1.0E-9 /\ 0 < im).

(** ** Notions for the k-path interpolator *)

Definition all_coincide (nodes : list vec3) : Prop :=
  forall a b, In a nodes -> In b nodes -> a = b.

(** the index that [k_path] gives to the interior node [n] *)
Definition interior_value (k_node : list R) (nk : Z) (n : nat) : Z :=
  py_round (nth n k_node 0 / last k_node 0 * IZR (nk - 1)).

(** the test "n_i < n_f" on the segment that ends at node [n] *)
Definition segment_grows (node_index : list Z) (n : nat) : bool :=
  (nth (n - 1) node_index 0 <? nth n node_index 0)%Z.

(** the segment ending at node [n] lies inside an array of [L] points *)
Definition segment_fits (node_index : list Z) (L : nat) (n : nat) : Prop :=
  (0 <= nth (n - 1) node_index 0 <= nth n node_index 0)%Z /\
  (nth n node_index 0 < Z.of_nat L)%Z.

(** the arrays hold, on the first [k] segments, the values interpolated
    between the two nodes of the segment *)
Definition interpolated (nodes : list vec3) (k_node : list R) (node_index : list Z)
    (k : nat) (st : list R * list vec3) : Prop :=
  forall s p, (1 <= s <= k)%nat ->
    (nth (s - 1) node_index 0 <= Z.of_nat p <= nth s node_index 0)%Z ->
    nth p (fst st) 0 =
      point_dist (nth (s - 1) node_index 0%Z) (nth s node_index 0%Z)
                 (nth (s - 1) k_node 0) (nth s k_node 0) (Z.of_nat p) /\
    nth p (snd st) vzero =
      point_vec (nth (s - 1) node_index 0%Z) (nth s node_index 0%Z)
                (nth (s - 1) nodes vzero) (nth s nodes vzero) (Z.of_nat p).

(* ================================================================== *)
(** ** Cartesian and reduced coordinates *)

(** [a*c] for an array [a] of three numbers and a number [c] *)
Definition vtimes (a : vec3) (c : R) : vec3 :=
  let '(a1, a2, a3) := a in (a1 * c, a2 * c, a3 * c).

(** [_cart_to_red((a1,a2,a3), cart)]: the rows of [cart] in the basis of
    the three vectors; [np.linalg.inv] raises on a singular matrix *)
Definition _cart_to_red (tmp : mat3) (cart : list vec3) : result (list vec3) :=
  let cnv := tmp in
  let cnv := transpose3 cnv in
  cnv <- inv3 cnv ;;
  Ok (map (fun c => mat_vec cnv c) cart).

(** [_red_to_cart((a1,a2,a3), red)] *)
Definition _red_to_cart (tmp : mat3) (red : list vec3) : list vec3 :=
  let '(a1, a2, a3) := tmp in
  map (fun r => let '(r0, r1, r2) := r in
                vadd (vadd (vtimes a1 r0) (vtimes a2 r1)) (vtimes a3 r2)) red.

(** ** Instances *)

(** the one-orbital chain with its orbital written as index -1 *)
Definition chain_from_end (t : C) : tb_model :=
  mk_tb_model identity3 [(0, 0, 0)] 1 1
    [1%Z; 1%Z] [(1%Z, 0%Z, 0%Z); ((-1)%Z, 0%Z, 0%Z)]
    [[((-1)%Z, (-1)%Z, t)]; [((-1)%Z, (-1)%Z, Cconj t)]].

(** the chain with its two shells listed in the other order *)
Definition chain_reversed (t : C) : tb_model :=
  mk_tb_model identity3 [(0, 0, 0)] 1 1
    [1%Z; 1%Z] [((-1)%Z, 0%Z, 0%Z); (1%Z, 0%Z, 0%Z)]
    [[(0%Z, 0%Z, Cconj t)]; [(0%Z, 0%Z, t)]].

(* ================================================================== *)
(** * Basic lemmas *)

Lemma Rltb_true x y : Rltb x y = true <-> x < y.
Proof. unfold Rltb. destruct (Rlt_dec x y); split; intros; auto; discriminate. Qed.

Lemma Rltb_false x y : Rltb x y = false <-> ~ x < y.
Proof. unfold Rltb. destruct (Rlt_dec x y); split; intros; auto; try discriminate; contradiction. Qed.

Lemma Rleb_true x y : Rleb x y = true <-> x <= y.
Proof. unfold Rleb. destruct (Rle_dec x y); split; intros; auto; discriminate. Qed.

Lemma Rleb_false x y : Rleb x y = false <-> ~ x <= y.
Proof. unfold Rleb. destruct (Rle_dec x y); split; intros; auto; try discriminate; contradiction. Qed.

Lemma Reqb_true x y : Reqb x y = true <-> x = y.
Proof. unfold Reqb. destruct (Req_dec_T x y); split; intros; auto; discriminate. Qed.

Lemma Reqb_false x y : Reqb x y = false <-> x <> y.
Proof. unfold Reqb. destruct (Req_dec_T x y); split; intros; auto; try discriminate; contradiction. Qed.

Lemma C_eq (a b : C) : Re a = Re b -> Im a = Im b -> a = b.
Proof. destruct a, b; simpl; intros; subst; reflexivity. Qed.

Lemma Cadd_assoc a b c : Cadd (Cadd a b) c = Cadd a (Cadd b c).
Proof. apply C_eq; Csimpl; ring. Qed.

Lemma Cadd_comm a b : Cadd a b = Cadd b a.
Proof. apply C_eq; Csimpl; ring. Qed.

Lemma Cadd_0_l a : Cadd C0 a = a.
Proof. apply C_eq; Csimpl; ring. Qed.

Lemma Cadd_0_r a : Cadd a C0 = a.
Proof. apply C_eq; Csimpl; ring. Qed.

Lemma Cconj_add a b : Cconj (Cadd a b) = Cadd (Cconj a) (Cconj b).
Proof. apply C_eq; Csimpl; ring. Qed.

Lemma Cconj_involutive a : Cconj (Cconj a) = a.
Proof. apply C_eq; Csimpl; ring. Qed.

Lemma Csum_app l1 l2 : Csum (l1 ++ l2) = Cadd (Csum l1) (Csum l2).
Proof.
  induction l1 as [|a l1 IH]; simpl.
  - now rewrite Cadd_0_l.
  - now rewrite IH, Cadd_assoc.
Qed.

Lemma Csum_perm l1 l2 : Permutation l1 l2 -> Csum l1 = Csum l2.
Proof.
  induction 1; simpl.
  - reflexivity.
  - now rewrite IHPermutation.
  - rewrite <- !Cadd_assoc. f_equal. apply Cadd_comm.
  - congruence.
Qed.

Lemma Cconj_sum l : Cconj (Csum l) = Csum (map Cconj l).
Proof.
  induction l as [|a l IH]; simpl.
  - apply C_eq; Csimpl; ring.
  - now rewrite Cconj_add, IH.
Qed.

Lemma upd_length {A} (l : list A) n v : length (upd l n v) = length l.
Proof. revert n; induction l; destruct n; simpl; auto. Qed.

Lemma nth_upd_same {A} (l : list A) n v d :
  (n < length l)%nat -> nth n (upd l n v) d = v.
Proof. revert n; induction l; destruct n; simpl; intros; try lia; auto. apply IHl; lia. Qed.

Lemma nth_upd_other {A} (l : list A) n n' v d :
  n <> n' -> nth n' (upd l n v) d = nth n' l d.
Proof.
  revert n n'; induction l; destruct n, n'; simpl; intros; try congruence; auto.
Qed.

(* ================================================================== *)
(** ** Lemmas on matrices *)

Lemma np_zeros2_square n : is_square n (np_zeros2 n n).
Proof.
  unfold is_square, np_zeros2. split.
  - apply repeat_length.
  - apply Forall_forall. intros x Hx. apply repeat_spec in Hx. subst. apply repeat_length.
Qed.

Lemma get2_zeros n i j : get2 (np_zeros2 n n) i j = C0.
Proof.
  unfold get2, np_zeros2.
  destruct (Nat.lt_ge_cases i n) as [Hi|Hi].
  - rewrite nth_repeat_lt by exact Hi.
    destruct (Nat.lt_ge_cases j n) as [Hj|Hj].
    + now rewrite nth_repeat_lt.
    + apply nth_overflow. now rewrite repeat_length.
  - rewrite (nth_overflow (repeat (repeat C0 n) n)) by (now rewrite repeat_length).
    now destruct j.
Qed.

Lemma set2_square n h i j v : is_square n h -> is_square n (set2 h i j v).
Proof.
  intros [Hl Hr]. unfold is_square, set2. split.
  - now rewrite upd_length.
  - rewrite Forall_forall in *. intros row Hin.
    apply In_nth with (d := []) in Hin. destruct Hin as [p [Hp Heq]].
    rewrite upd_length in Hp. subst row.
    destruct (Nat.eq_dec i p) as [->|Hne].
    + rewrite nth_upd_same by exact Hp. rewrite upd_length. apply Hr. now apply nth_In.
    + rewrite nth_upd_other by exact Hne. apply Hr. now apply nth_In.
Qed.

Lemma get2_set2 n h i j v i' j' :
  is_square n h -> (i < n)%nat -> (j < n)%nat ->
  get2 (set2 h i j v) i' j' =
  if (Nat.eqb i i' && Nat.eqb j j')%bool then v else get2 h i' j'.
Proof.
  intros [Hl Hr] Hi Hj. unfold get2, set2.
  destruct (Nat.eqb_spec i i') as [<-|Hne]; simpl.
  - rewrite nth_upd_same by lia.
    assert (Hrow : length (nth i h []) = n).
    { rewrite Forall_forall in Hr. apply Hr. apply nth_In. lia. }
    destruct (Nat.eqb_spec j j') as [<-|Hne'].
    + apply nth_upd_same. lia.
    + now apply nth_upd_other.
  - now rewrite nth_upd_other.
Qed.

Lemma zip_with_length {X Y Z'} (f : X -> Y -> Z') a b :
  length (zip_with f a b) = Nat.min (length a) (length b).
Proof. revert b; induction a; destruct b; simpl; auto. Qed.

Lemma nth_zip_with {X Y Z'} (f : X -> Y -> Z') a b p dx dy dz :
  (p < length a)%nat -> (p < length b)%nat ->
  nth p (zip_with f a b) dz = f (nth p a dx) (nth p b dy).
Proof.
  revert b p; induction a as [|x a IH]; intros [|y b] [|p]; simpl; intros; try lia; auto.
  apply IH; lia.
Qed.

Lemma py_index_in_range n i :
  (0 <= i < Z.of_nat n)%Z -> py_index n i = Ok (Z.to_nat i).
Proof.
  intros [H0 H1]. unfold py_index.
  apply Z.leb_le in H0. apply Z.ltb_lt in H1. now rewrite H0, H1.
Qed.


(* ================================================================== *)
(** ** The Hamiltonian builder *)

Lemma phase_expi2pi x :
  Cexp (Cmul (Cmul (0, 2.0) (RtoC PI)) (RtoC x)) = expi2pi x.
Proof.
  assert (E : 2.0 = 2) by lra. rewrite E.
  unfold Cexp, Cmul, RtoC, expi2pi, Re, Im; simpl.
  replace (((0 * PI - 2 * 0) * x - (0 * 0 + 2 * PI) * 0)) with 0 by ring.
  replace ((0 * PI - 2 * 0) * 0 + (0 * 0 + 2 * PI) * x) with (2 * PI * x) by ring.
  rewrite exp_0. f_equal; ring.
Qed.

Lemma code_displacement (oi oj : vec3) (vecR : ivec3) :
  vadd (vadd (vneg oi) oj) (ivec_to_R vecR) = vadd (vsub oj oi) (ivec_to_R vecR).
Proof.
  destruct oi as [[a1 a2] a3], oj as [[b1 b2] b3], vecR as [[r1 r2] r3]; simpl.
  f_equal; [f_equal|]; ring.
Qed.

Lemma Cmul_Cdivr a p d : Cmul a (Cdivr p d) = Cdivr (Cmul a p) d.
Proof. apply C_eq; Csimpl; unfold Rdiv; ring. Qed.

Lemma hop_okb_spec n deg vecR i j amp :
  hop_okb n (deg, vecR, (i, j, amp)) = true ->
  (0 <= i < Z.of_nat n)%Z /\ (0 <= j < Z.of_nat n)%Z /\ (0 < deg)%Z.
Proof.
  unfold hop_okb. rewrite !andb_true_iff.
  rewrite !Z.leb_le, !Z.ltb_lt. tauto.
Qed.

(** On an in-range entry the loop body adds that entry's Bloch term to
    the cell [(i, j)]. *)
Lemma hop_step_ok m k deg vecR ham i j amp :
  length (_orb m) = _norb m ->
  hop_okb (_norb m) (deg, vecR, (i, j, amp)) = true ->
  hop_step m k deg vecR ham (i, j, amp) =
  Ok (set2 ham (Z.to_nat i) (Z.to_nat j)
        (Cadd (get2 ham (Z.to_nat i) (Z.to_nat j))
              (bloch_term m k (deg, vecR, (i, j, amp))))).
Proof.
  intros Hlen Hok. apply hop_okb_spec in Hok. destruct Hok as (Hi & Hj & _).
  unfold hop_step. rewrite Hlen.
  rewrite !(py_index_in_range _ i Hi), !(py_index_in_range _ j Hj). simpl.
  rewrite phase_expi2pi, code_displacement, Cmul_Cdivr. reflexivity.
Qed.

Lemma foldM_app {A B} (f : B -> A -> result B) l1 l2 b :
  foldM f (l1 ++ l2) b = (b' <- foldM f l1 b ;; foldM f l2 b').
Proof.
  revert b; induction l1 as [|a l1 IH]; intros b; simpl.
  - reflexivity.
  - destruct (f b a); simpl; auto.
Qed.

(** the nested loops visit the entries in the order of [hops] *)
Lemma gen_ham_flat m k ss ham :
  foldM (shell_step m k) ss ham =
  foldM (fun h '(deg, vecR, e) => hop_step m k deg vecR h e) (flat_map shell_hops ss) ham.
Proof.
  revert ham; induction ss as [|[[deg vecR] ham1] ss IH]; intros ham; simpl.
  - reflexivity.
  - rewrite foldM_app.
    assert (Hin : forall h0,
      foldM (hop_step m k deg vecR) ham1 h0 =
      foldM (fun h '(deg0, vecR0, e) => hop_step m k deg0 vecR0 h e)
            (map (fun e => (deg, vecR, e)) ham1) h0).
    { induction ham1 as [|e ham1 IH1]; intros h0; simpl; auto.
      destruct (hop_step m k deg vecR h0 e); simpl; auto. }
    rewrite Hin.
    destruct (foldM _ (map _ ham1) ham); simpl; auto.
Qed.

Lemma hop_loop_entries m k (hs : list hop) :
  length (_orb m) = _norb m ->
  forallb (hop_okb (_norb m)) hs = true ->
  forall ham, is_square (_norb m) ham ->
  exists H,
    foldM (fun h '(deg, vecR, e) => hop_step m k deg vecR h e) hs ham = Ok H /\
    is_square (_norb m) H /\
    forall i j, (i < _norb m)%nat -> (j < _norb m)%nat ->
      get2 H i j =
      Cadd (get2 ham i j) (Csum (map (bloch_term m k) (filter (hop_at i j) hs))).
Proof.
  intros Hlen. induction hs as [|[[deg vecR] [[hi hj] amp]] hs IH]; intros Hok ham Hsq.
  - exists ham. simpl. repeat split; try apply Hsq.
    intros. now rewrite Cadd_0_r.
  - cbn [forallb] in Hok. apply andb_true_iff in Hok. destruct Hok as [Hok1 Hok].
    cbn [foldM]. rewrite (hop_step_ok m k deg vecR ham hi hj amp Hlen Hok1).
    cbn [bind].
    pose proof (hop_okb_spec _ deg vecR hi hj amp Hok1) as (Hi & Hj & _).
    set (ham' := set2 ham _ _ _).
    assert (Hsq' : is_square (_norb m) ham') by (now apply set2_square).
    destruct (IH Hok ham' Hsq') as (H & Hrun & HsqH & Hent).
    exists H. repeat split; try apply HsqH; try exact Hrun.
    intros i j Hilt Hjlt. rewrite (Hent i j Hilt Hjlt).
    unfold ham'. rewrite (get2_set2 (_norb m)) by (try exact Hsq; lia).
    cbn [filter].
    change (hop_at i j (deg, vecR, (hi, hj, amp)))
      with ((hi =? Z.of_nat i)%Z && (hj =? Z.of_nat j)%Z).
    destruct (Z.eqb_spec hi (Z.of_nat i)) as [Ei|Ei];
      destruct (Z.eqb_spec hj (Z.of_nat j)) as [Ej|Ej]; cbn [andb].
    + subst hi hj. rewrite !Nat2Z.id, !Nat.eqb_refl. cbn [andb map Csum fold_right].
      now rewrite Cadd_assoc.
    + replace (Z.to_nat hj =? j)%nat with false
        by (symmetry; apply Nat.eqb_neq; lia).
      now rewrite andb_false_r.
    + replace (Z.to_nat hi =? i)%nat with false
        by (symmetry; apply Nat.eqb_neq; lia).
      reflexivity.
    + replace (Z.to_nat hi =? i)%nat with false
        by (symmetry; apply Nat.eqb_neq; lia).
      reflexivity.
Qed.

(** [_gen_ham] on a well-formed model returns the square matrix of the
    Bloch sums. *)
Lemma gen_ham_entries m k :
  model_okb m = true ->
  exists H,
    _gen_ham m (Some k) = Ok H /\
    is_square (_norb m) H /\
    forall i j, (i < _norb m)%nat -> (j < _norb m)%nat ->
      get2 H i j = bloch_sum m k i j.
Proof.
  unfold model_okb. rewrite andb_true_iff. intros [Hlen Hok].
  apply Nat.eqb_eq in Hlen.
  destruct (hop_loop_entries m k (hops m) Hlen Hok _ (np_zeros2_square (_norb m)))
    as (H & Hrun & Hsq & Hent).
  exists H. repeat split; try apply Hsq.
  - unfold _gen_ham. rewrite gen_ham_flat. exact Hrun.
  - intros i j Hi Hj. rewrite (Hent i j Hi Hj), get2_zeros, Cadd_0_l. reflexivity.
Qed.

(** C1: for every well-formed model and every k-vector, [_gen_ham] returns
    the N x N complex matrix whose entry (i, j) is the sum over all shells
    (R, deg) and all their matrix elements (i, j, amplitude) of
    amplitude * exp(2 pi i k.(orb[j] - orb[i] + R)) / deg; an entry to
    which no element contributes is 0. *)
Theorem C1_gen_ham_is_bloch_sum (m : tb_model) (k : vec3) :
  model_okb m = true ->
  exists H,
    _gen_ham m (Some k) = Ok H /\
    is_square (_norb m) H /\
    (forall i j, (i < _norb m)%nat -> (j < _norb m)%nat ->
       get2 H i j = bloch_sum m k i j) /\
    (forall i j, (i < _norb m)%nat -> (j < _norb m)%nat ->
       filter (hop_at i j) (hops m) = [] -> get2 H i j = C0).
Proof.
  intros Hok. destruct (gen_ham_entries m k Hok) as (H & Hrun & Hsq & Hent).
  exists H. repeat split; try apply Hsq; auto.
  intros i j Hi Hj Hnone. rewrite (Hent i j Hi Hj).
  unfold bloch_sum. now rewrite Hnone.
Qed.

(* ================================================================== *)
(** ** Trigonometric facts used for the phases *)

Lemma cos_period_Z x (n : Z) : cos (x + 2 * IZR n * PI) = cos x.
Proof.
  destruct (Z_le_gt_dec 0 n) as [Hn|Hn].
  - rewrite <- (Z2Nat.id n Hn), <- INR_IZR_INZ. apply cos_period.
  - replace x with ((x + 2 * IZR n * PI) + 2 * INR (Z.to_nat (- n)) * PI) at 2.
    + now rewrite cos_period.
    + rewrite INR_IZR_INZ, Z2Nat.id by lia. rewrite opp_IZR. ring.
Qed.

Lemma sin_period_Z x (n : Z) : sin (x + 2 * IZR n * PI) = sin x.
Proof.
  destruct (Z_le_gt_dec 0 n) as [Hn|Hn].
  - rewrite <- (Z2Nat.id n Hn), <- INR_IZR_INZ. apply sin_period.
  - replace x with ((x + 2 * IZR n * PI) + 2 * INR (Z.to_nat (- n)) * PI) at 2.
    + now rewrite sin_period.
    + rewrite INR_IZR_INZ, Z2Nat.id by lia. rewrite opp_IZR. ring.
Qed.

Lemma expi2pi_shift x (n : Z) : expi2pi (x + IZR n) = expi2pi x.
Proof.
  unfold expi2pi.
  replace (2 * PI * (x + IZR n)) with (2 * PI * x + 2 * IZR n * PI) by ring.
  now rewrite cos_period_Z, sin_period_Z.
Qed.

Lemma expi2pi_opp x : expi2pi (- x) = Cconj (expi2pi x).
Proof.
  unfold expi2pi, Cconj; simpl.
  replace (2 * PI * - x) with (- (2 * PI * x)) by ring.
  now rewrite cos_neg, sin_neg.
Qed.

Lemma expi2pi_0 : expi2pi 0 = (1, 0).
Proof. unfold expi2pi. rewrite Rmult_0_r, cos_0, sin_0. reflexivity. Qed.

Lemma expi2pi_quarter : expi2pi (/ 4) = (0, 1).
Proof.
  unfold expi2pi. replace (2 * PI * / 4) with (PI / 2) by field.
  now rewrite cos_PI2, sin_PI2.
Qed.

Lemma expi2pi_half : expi2pi (/ 2) = (-1, 0).
Proof.
  unfold expi2pi. replace (2 * PI * / 2) with PI by field.
  now rewrite cos_PI, sin_PI.
Qed.

(* ================================================================== *)
(** ** Hermiticity of the assembled matrix *)

Lemma Permutation_filter_compat {A} (f : A -> bool) l1 l2 :
  Permutation l1 l2 -> Permutation (filter f l1) (filter f l2).
Proof.
  induction 1 as [|x l1 l2 _ IH|x y l|l1 l2 l3 _ IH1 _ IH2]; simpl.
  - constructor.
  - destruct (f x); auto.
  - destruct (f x), (f y); auto. apply perm_swap.
  - now transitivity (filter f l2).
Qed.

Lemma filter_map_swap {A B} (g : A -> B) (f : B -> bool) l :
  filter f (map g l) = map g (filter (fun a => f (g a)) l).
Proof.
  induction l as [|a l IH]; simpl; auto.
  destruct (f (g a)); simpl; now rewrite IH.
Qed.

Lemma hop_at_partner i j h : hop_at i j (partner h) = hop_at j i h.
Proof. destruct h as [[deg vecR] [[hi hj] amp]]. simpl. apply andb_comm. Qed.

Lemma displacement_partner m i j vecR :
  displacement m j i (ivneg vecR) = vneg (displacement m i j vecR).
Proof.
  unfold displacement. destruct (orb_at m i) as [[a1 a2] a3].
  destruct (orb_at m j) as [[b1 b2] b3]. destruct vecR as [[r1 r2] r3]. simpl.
  rewrite !opp_IZR. f_equal; [f_equal|]; ring.
Qed.

Lemma vdot_vneg_r k d : vdot k (vneg d) = - vdot k d.
Proof. destruct k as [[k1 k2] k3], d as [[d1 d2] d3]. simpl. ring. Qed.

(** the Bloch term of the partner is the conjugate of the entry's term *)
Lemma bloch_term_partner m k h :
  bloch_term m k (partner h) = Cconj (bloch_term m k h).
Proof.
  destruct h as [[deg vecR] [[hi hj] amp]]. unfold partner, bloch_term.
  rewrite displacement_partner, vdot_vneg_r, expi2pi_opp.
  apply C_eq; Csimpl; unfold Rdiv; ring.
Qed.

Lemma bloch_sum_conj m k i j :
  paired_partners m ->
  bloch_sum m k i j = Cconj (bloch_sum m k j i).
Proof.
  intros Hp. unfold bloch_sum.
  rewrite Cconj_sum, map_map.
  rewrite (map_ext (fun h => Cconj (bloch_term m k h))
                   (fun h => bloch_term m k (partner h)))
    by (intros h; symmetry; apply bloch_term_partner).
  rewrite <- (map_map partner (bloch_term m k)).
  rewrite (filter_ext (hop_at j i) (fun h => hop_at i j (partner h)))
    by (intros h; symmetry; apply hop_at_partner).
  rewrite <- filter_map_swap.
  apply Csum_perm, Permutation_map, Permutation_filter_compat.
  symmetry. exact Hp.
Qed.

Lemma Cmod_0 : Cmod (0, 0) = 0.
Proof. unfold Cmod; simpl. rewrite Rmult_0_l, Rplus_0_l. apply sqrt_0. Qed.

Lemma hermitian_is_within tol n h :
  0 <= tol -> hermitian n h -> hermitian_within tol n h.
Proof.
  intros Htol Hh i j Hi Hj. rewrite <- (Hh i j Hi Hj).
  replace (Csub (get2 h i j) (get2 h i j)) with ((0, 0) : C).
  - now rewrite Cmod_0.
  - apply C_eq; Csimpl; ring.
Qed.

(** C2 (as amended): when every entry (i, j, amp) of a shell (R, deg) has
    its partner (j, i, conj(amp)) in a shell (-R, deg) with the same
    multiplicity, [_gen_ham] returns a Hermitian matrix at every k:
    exactly, hence within 1e-9. *)
Theorem C2_paired_table_is_hermitian (m : tb_model) (k : vec3) :
  model_okb m = true ->
  paired_partners m ->
  exists H,
    _gen_ham m (Some k) = Ok H /\
    hermitian (_norb m) H /\
    hermitian_within 1.0E-9 (_norb m) H.
Proof.
  intros Hok Hp. destruct (gen_ham_entries m k Hok) as (H & Hrun & Hsq & Hent).
  assert (Hh : hermitian (_norb m) H).
  { intros i j Hi Hj. rewrite (Hent i j Hi Hj), (Hent j i Hj Hi).
    now apply bloch_sum_conj. }
  exists H. repeat split; auto.
  apply hermitian_is_within; auto. lra.
Qed.

(** *** The chain models *)

Lemma det3_identity : det3 identity3 = 1.
Proof. unfold det3, identity3. ring. Qed.

Lemma init_identity_lat orb deg Rvec Hmat nspin orbs :
  shape2 orb = Ok [length orbs; 3%nat] ->
  as_rows3 orb = Some orbs ->
  (nspin = 1 \/ nspin = 2)%Z ->
  __init__ identity_lat orb deg Rvec Hmat nspin =
  Ok (mk_tb_model identity3 orbs (length orbs) nspin deg Rvec Hmat).
Proof.
  intros Hshape Hrows Hspin. unfold __init__.
  change (shape2 identity_lat) with (@Ok (list nat) [3; 3]%nat). cbn [bind].
  change (shape_eqb [_dim_r; _dim_r] [3; 3]%nat) with true. cbn [negb].
  change (as_mat3 identity_lat) with (Some identity3).
  cbv iota. rewrite det3_identity.
  replace (Rltb (Rabs 1) 1.0E-6) with false
    by (symmetry; apply Rltb_false; rewrite Rabs_R1; lra).
  replace (Rltb 1 0.0) with false by (symmetry; apply Rltb_false; lra).
  rewrite Hshape. cbn [bind length nth Nat.eqb negb _dim_r]. rewrite Hrows.
  replace (nspin =? 1)%Z with (Z.eqb nspin 1) by reflexivity.
  destruct Hspin as [-> | ->]; reflexivity.
Qed.

Lemma chain_init_ok t : chain_init t = Ok (chain_model t).
Proof.
  unfold chain_init.
  rewrite (init_identity_lat _ _ _ _ _ [(0, 0, 0)]); auto.
Qed.

Lemma chain_constructed t : constructed (chain_model t).
Proof.
  exists identity_lat, [[0; 0; 0]], [1%Z; 1%Z],
    [(1%Z, 0%Z, 0%Z); ((-1)%Z, 0%Z, 0%Z)],
    [[(0%Z, 0%Z, t)]; [(0%Z, 0%Z, Cconj t)]], 1%Z.
  apply chain_init_ok.
Qed.

Lemma doubled_chain_constructed : constructed doubled_chain.
Proof.
  exists identity_lat, [[0; 0; 0]], [1%Z; 1%Z],
    [(1%Z, 0%Z, 0%Z); ((-1)%Z, 0%Z, 0%Z)],
    [[(0%Z, 0%Z, (1, 0)); (0%Z, 0%Z, (1, 0))]; [(0%Z, 0%Z, (1, 0))]], 1%Z.
  now rewrite (init_identity_lat _ _ _ _ _ [(0, 0, 0)]) by auto.
Qed.

Lemma dimer_constructed : constructed dimer_model.
Proof.
  exists identity_lat, [[0; 0; 0]; [/ 2; 0; 0]], [1%Z],
    [(0%Z, 0%Z, 0%Z)],
    [[(0%Z, 1%Z, (1, 0)); (1%Z, 0%Z, (1, 0))]], 1%Z.
  now rewrite (init_identity_lat _ _ _ _ _ [(0, 0, 0); (/ 2, 0, 0)]) by auto.
Qed.


Lemma chain_dot (m : tb_model) (x : R) (r : Z) :
  orb_at m 0 = (0, 0, 0) ->
  vdot (x, 0, 0) (displacement m 0 0 (r, 0%Z, 0%Z)) = x * IZR r.
Proof. intros Ho. unfold displacement. rewrite Ho. simpl. ring. Qed.

Lemma doubled_chain_sum :
  bloch_sum doubled_chain (/ 4, 0, 0) 0 0 = (0, 1).
Proof.
  unfold bloch_sum.
  cbn [hops doubled_chain shells zip3 deg_ws Rvec_list Hmat_list flat_map
       shell_hops map app filter hop_at Z.eqb Z.of_nat andb Csum fold_right
       bloch_term].
  rewrite !chain_dot by reflexivity.
  replace (/ 4 * 1) with (/ 4) by ring.
  replace (/ 4 * -1) with (- / 4) by ring.
  rewrite expi2pi_opp, expi2pi_quarter.
  apply C_eq; Csimpl; field.
Qed.

Lemma doubled_chain_partners : has_partners doubled_chain.
Proof.
  intros h Hin. cbn in Hin.
  assert (E : Cconj (1, 0) = (1, 0)) by (apply C_eq; Csimpl; ring).
  destruct Hin as [<-|[<-|[<-|[]]]]; cbn [partner ivneg Z.opp]; rewrite E; cbn; auto.
Qed.

(** C2, as stated, fails: on a table where the forward hop is listed twice
    and its partner once, every entry has a partner, and the matrix at
    k = (1/4, 0, 0) is the 1x1 matrix [i]. *)
Lemma C2_partner_existence_not_enough :
  ~ (forall m k, constructed m -> model_okb m = true -> has_partners m ->
       exists H, _gen_ham m (Some k) = Ok H /\
                 hermitian_within 1.0E-9 (_norb m) H).
Proof.
  intros Hall.
  destruct (Hall doubled_chain (/ 4, 0, 0) doubled_chain_constructed eq_refl
              doubled_chain_partners)
    as (H & Hrun & Hw).
  destruct (gen_ham_entries doubled_chain (/ 4, 0, 0) eq_refl)
    as (H' & Hrun' & _ & Hent).
  rewrite Hrun in Hrun'. injection Hrun' as <-.
  assert (Hlt : (0 < _norb doubled_chain)%nat) by (cbn; lia).
  specialize (Hw 0%nat 0%nat Hlt Hlt).
  rewrite (Hent 0%nat 0%nat Hlt Hlt), doubled_chain_sum in Hw.
  unfold Cmod, Csub, Cconj, Re, Im in Hw; simpl in Hw.
  replace (((0 - 0) * (0 - 0) + (1 - - (1)) * (1 - - (1)))) with (2 * 2) in Hw by ring.
  rewrite sqrt_square in Hw by lra. lra.
Qed.

(* ================================================================== *)
(** ** Reciprocal-lattice translations of k *)

Lemma foldM_ext_in {A B} (f g : B -> A -> result B) (l : list A) :
  (forall a, In a l -> forall b, f b a = g b a) ->
  forall b, foldM f l b = foldM g l b.
Proof.
  induction l as [|a l IH]; intros Hfg b; simpl.
  - reflexivity.
  - rewrite (Hfg a (or_introl eq_refl) b).
    destruct (g b a); simpl; auto.
    apply IH. intros a' Hin. apply Hfg. now right.
Qed.

(** translating k by an integer vector leaves the term of an entry whose
    orbitals differ by a lattice vector unchanged *)
Lemma bloch_term_shift m k (G : ivec3) h :
  integer_offset m h ->
  bloch_term m (vadd k (ivec_to_R G)) h = bloch_term m k h.
Proof.
  destruct h as [[deg vecR] [[hi hj] amp]]. intros [d Hd].
  unfold bloch_term, displacement. rewrite Hd.
  destruct k as [[k1 k2] k3], G as [[g1 g2] g3], d as [[d1 d2] d3],
    vecR as [[r1 r2] r3].
  cbn [vadd ivec_to_R vdot].
  replace ((k1 + IZR g1) * (IZR d1 + IZR r1) + (k2 + IZR g2) * (IZR d2 + IZR r2)
           + (k3 + IZR g3) * (IZR d3 + IZR r3))
    with (k1 * (IZR d1 + IZR r1) + k2 * (IZR d2 + IZR r2) + k3 * (IZR d3 + IZR r3)
          + IZR (g1 * (d1 + r1) + g2 * (d2 + r2) + g3 * (d3 + r3))).
  - now rewrite expi2pi_shift.
  - rewrite !plus_IZR, !mult_IZR, !plus_IZR. ring.
Qed.

Lemma dimer_entry_at_origin :
  bloch_sum dimer_model (0, 0, 0) 0 1 = (1, 0).
Proof.
  unfold bloch_sum.
  change (filter (hop_at 0 1) (hops dimer_model))
    with [(1%Z, (0%Z, 0%Z, 0%Z), (0%Z, 1%Z, ((1, 0) : C)))].
  cbn [map Csum fold_right bloch_term].
  replace (vdot (0, 0, 0) (displacement dimer_model 0 1 (0%Z, 0%Z, 0%Z))) with 0
    by (unfold displacement, orb_at; simpl; ring).
  rewrite expi2pi_0. apply C_eq; Csimpl; field.
Qed.

Lemma dimer_entry_shifted :
  bloch_sum dimer_model (vadd (0, 0, 0) (ivec_to_R (1%Z, 0%Z, 0%Z))) 0 1 = (-1, 0).
Proof.
  unfold bloch_sum.
  change (filter (hop_at 0 1) (hops dimer_model))
    with [(1%Z, (0%Z, 0%Z, 0%Z), (0%Z, 1%Z, ((1, 0) : C)))].
  cbn [map Csum fold_right bloch_term].
  replace (vdot (vadd (0, 0, 0) (ivec_to_R (1%Z, 0%Z, 0%Z)))
             (displacement dimer_model 0 1 (0%Z, 0%Z, 0%Z))) with (/ 2)
    by (unfold displacement, orb_at; simpl; field).
  rewrite expi2pi_half. apply C_eq; Csimpl; field.
Qed.

(** C3, as stated, fails: with two orbitals half a cell apart the entry
    (0, 1) is 1 at k = 0 and -1 at k = (1, 0, 0); the two matrices are not
    even within 1 of each other. *)
Lemma C3_not_periodic_with_fractional_orbitals :
  ~ (forall m k (G : ivec3), constructed m -> model_okb m = true ->
       exists H H',
         _gen_ham m (Some (vadd k (ivec_to_R G))) = Ok H' /\
         _gen_ham m (Some k) = Ok H /\
         close_within 1 (_norb m) H' H).
Proof.
  intros Hall.
  destruct (Hall dimer_model (0, 0, 0) (1%Z, 0%Z, 0%Z) dimer_constructed eq_refl)
    as (H & H' & Hrun' & Hrun & Hclose).
  destruct (gen_ham_entries dimer_model (0, 0, 0) eq_refl) as (H0 & E0 & _ & Hent).
  destruct (gen_ham_entries dimer_model
              (vadd (0, 0, 0) (ivec_to_R (1%Z, 0%Z, 0%Z))) eq_refl)
    as (H1 & E1 & _ & Hent').
  rewrite Hrun in E0. injection E0 as <-.
  rewrite Hrun' in E1. injection E1 as <-.
  assert (L0 : (0 < _norb dimer_model)%nat) by (cbn; lia).
  assert (L1 : (1 < _norb dimer_model)%nat) by (cbn; lia).
  specialize (Hclose 0%nat 1%nat L0 L1).
  rewrite (Hent 0%nat 1%nat L0 L1), (Hent' 0%nat 1%nat L0 L1) in Hclose.
  rewrite dimer_entry_at_origin, dimer_entry_shifted in Hclose.
  unfold Cmod, Csub, Re, Im in Hclose; simpl in Hclose.
  replace ((-1 - 1) * (-1 - 1) + (0 - 0) * (0 - 0)) with (2 * 2) in Hclose by ring.
  rewrite sqrt_square in Hclose by lra. lra.
Qed.

(** C3 (as amended): when the two orbitals of every entry differ by a
    lattice vector (for instance when all orbitals sit at one position),
    [_gen_ham] returns the same matrix at k + G as at k, for every real k
    and every integer vector G. *)
Theorem C3_periodic_on_integer_offsets (m : tb_model) (k : vec3) (G : ivec3) :
  model_okb m = true ->
  integer_offsets m ->
  exists H,
    _gen_ham m (Some (vadd k (ivec_to_R G))) = Ok H /\
    _gen_ham m (Some k) = Ok H.
Proof.
  intros Hok Hint. destruct (gen_ham_entries m k Hok) as (H & Hrun & _).
  exists H. split; [|exact Hrun]. rewrite <- Hrun.
  unfold _gen_ham. rewrite !gen_ham_flat. fold (hops m).
  unfold model_okb in Hok. apply andb_true_iff in Hok. destruct Hok as [Hlen Hall].
  apply Nat.eqb_eq in Hlen. rewrite forallb_forall in Hall.
  unfold integer_offsets in Hint. rewrite Forall_forall in Hint.
  apply foldM_ext_in.
  intros [[deg vecR] [[hi hj] amp]] Hin ham.
  rewrite !hop_step_ok by (auto using Hall).
  now rewrite bloch_term_shift by (apply Hint; exact Hin).
Qed.

(* ================================================================== *)
(** ** The eigensolver wrapper *)

Lemma insert_idx_perm v i l : Permutation (i :: l) (insert_idx v i l).
Proof.
  induction l as [|j l IH]; simpl.
  - apply Permutation_refl.
  - destruct (Rltb (nth i v 0) (nth j v 0)).
    + apply Permutation_refl.
    + transitivity (j :: i :: l); [apply perm_swap | now apply perm_skip].
Qed.

Lemma insert_idx_sorted v i l :
  StronglySorted (by_value v) l -> StronglySorted (by_value v) (insert_idx v i l).
Proof.
  induction 1 as [|j l Hs IH Hall]; simpl.
  - repeat constructor.
  - destruct (Rltb (nth i v 0) (nth j v 0)) eqn:E.
    + apply Rltb_true in E. constructor.
      * now constructor.
      * constructor; [unfold by_value; lra|].
        eapply Forall_impl; [|exact Hall]. unfold by_value. intros; lra.
    + apply Rltb_false in E. constructor; [exact IH|].
      eapply Permutation_Forall; [apply insert_idx_perm|].
      constructor; [unfold by_value; lra | exact Hall].
Qed.

Lemma insert_all_sorted v idxs acc :
  StronglySorted (by_value v) acc ->
  StronglySorted (by_value v) (fold_left (fun a i => insert_idx v i a) idxs acc).
Proof.
  revert acc; induction idxs as [|i idxs IH]; intros acc Hs; simpl; auto.
  apply IH. now apply insert_idx_sorted.
Qed.

Lemma insert_all_perm v idxs acc :
  Permutation (idxs ++ acc) (fold_left (fun a i => insert_idx v i a) idxs acc).
Proof.
  revert acc; induction idxs as [|i idxs IH]; intros acc; simpl; auto.
  rewrite <- IH. rewrite <- insert_idx_perm. apply Permutation_middle.
Qed.

Lemma argsort_sorted v : StronglySorted (by_value v) (argsort v).
Proof. apply insert_all_sorted. constructor. Qed.

Lemma argsort_perm v : Permutation (seq 0 (length v)) (argsort v).
Proof.
  unfold argsort. rewrite <- insert_all_perm. now rewrite app_nil_r.
Qed.

Lemma take_all {X} (d : X) (a : list X) : take d a (seq 0 (length a)) = a.
Proof.
  unfold take. apply nth_ext with (d := d) (d' := d).
  - now rewrite length_map, length_seq.
  - intros n Hn. rewrite length_map, length_seq in Hn.
    rewrite (nth_indep _ d (nth 0 a d)) by (now rewrite length_map, length_seq).
    rewrite (map_nth (fun i => nth i a d) (seq 0 (length a)) 0%nat n).
    now rewrite seq_nth.
Qed.

Lemma sorted_take v l :
  StronglySorted (by_value v) l -> StronglySorted Rle (take 0 v l).
Proof.
  induction 1 as [|j l Hs IH Hall]; simpl; constructor; auto.
  unfold take. apply Forall_map. exact Hall.
Qed.

(** [eval[args]] is ascending, and is a rearrangement of [eval] *)
Lemma take_argsort_sorted v : StronglySorted Rle (take 0 v (argsort v)).
Proof. apply sorted_take, argsort_sorted. Qed.

Lemma take_argsort_perm v : Permutation v (take 0 v (argsort v)).
Proof.
  rewrite <- (take_all 0 v) at 1. unfold take.
  apply Permutation_map, argsort_perm.
Qed.

(** a sorted array is left as it is *)
Lemma insert_idx_last v i l :
  Forall (fun j => nth j v 0 <= nth i v 0) l -> insert_idx v i l = l ++ [i].
Proof.
  induction 1 as [|j l Hj _ IH]; simpl; auto.
  replace (Rltb (nth i v 0) (nth j v 0)) with false
    by (symmetry; apply Rltb_false; lra).
  now rewrite IH.
Qed.

Lemma sorted_nth_le v a b :
  StronglySorted Rle v -> (a <= b < length v)%nat -> nth a v 0 <= nth b v 0.
Proof.
  intros Hs. revert a b. induction Hs as [|x l Hs IH Hall]; intros a b [Hab Hb].
  - simpl in Hb. lia.
  - destruct a, b; simpl in *; try lia.
    + lra.
    + rewrite Forall_forall in Hall. apply Hall, nth_In. lia.
    + apply IH. lia.
Qed.

Lemma argsort_of_sorted v : StronglySorted Rle v -> argsort v = seq 0 (length v).
Proof.
  intros Hs. unfold argsort.
  assert (Hk : forall k, (k <= length v)%nat ->
            fold_left (fun a i => insert_idx v i a) (seq 0 k) [] = seq 0 k).
  { induction k as [|k IH]; intros Hle; auto.
    rewrite seq_S, fold_left_app, IH by lia. simpl.
    apply insert_idx_last. apply Forall_forall. intros j Hj.
    apply in_seq in Hj. apply sorted_nth_le; auto. lia. }
  now apply Hk.
Qed.

Lemma nicefy_evals_sorted eval eig :
  StronglySorted Rle (solution_evals (_nicefy_eig eval eig)).
Proof. unfold _nicefy_eig. destruct eig; simpl; apply take_argsort_sorted. Qed.

Lemma nicefy_evals_perm eval eig :
  Permutation (map Re eval) (solution_evals (_nicefy_eig eval eig)).
Proof. unfold _nicefy_eig. destruct eig; simpl; apply take_argsort_perm. Qed.

(** whenever [_sol_ham] returns, its eigenvalues are the real parts of the
    solver's output in ascending order *)
Lemma sol_ham_evals eigvalsh eigh ham flag s :
  _sol_ham eigvalsh eigh ham flag = Ok s ->
  StronglySorted Rle (solution_evals s) /\
  Permutation (map Re (if flag then fst (eigh ham) else eigvalsh ham))
              (solution_evals s).
Proof.
  unfold _sol_ham. destruct (np_max _) as [mx|e]; cbn [bind]; [|discriminate].
  destruct (Cgt mx (RtoC 1.0E-9)); [discriminate|].
  destruct flag; cbn [negb].
  - destruct (eigh ham) as [eval eig]. cbn [fst]. intros [= <-].
    split; [apply (nicefy_evals_sorted eval (Some eig))
           | apply (nicefy_evals_perm eval (Some eig))].
  - intros [= <-]. cbn [solution_evals].
    split; [apply (nicefy_evals_sorted _ None) | apply (nicefy_evals_perm _ None)].
Qed.

(** *** The Hermiticity check *)

(** the 1x1 matrix [i]: it differs from its conjugate transpose by 2i *)
Lemma check_on_imaginary_unit :
  np_max (concat (msub [[Ci]] (mconj (transpose [[Ci]])))) = Ok (Csub Ci (Cconj Ci)) /\
  Cgt (Csub Ci (Cconj Ci)) (RtoC 1.0E-9) = false.
Proof.
  split; [reflexivity|].
  unfold Cgt, Csub, Cconj, Ci, RtoC, Re, Im; simpl.
  replace (Rltb 1.0E-9 (0 - 0)) with false by (symmetry; apply Rltb_false; lra).
  replace (Reqb (0 - 0) 1.0E-9) with false by (symmetry; apply Reqb_false; lra).
  reflexivity.
Qed.

Lemma sol_ham_imaginary_unit eigvalsh eigh flag :
  _sol_ham eigvalsh eigh [[Ci]] flag =
  if flag then Ok (_nicefy_eig (fst (eigh [[Ci]])) (Some (snd (eigh [[Ci]]))))
  else Ok (Evals (solution_evals (_nicefy_eig (eigvalsh [[Ci]]) None))).
Proof.
  destruct check_on_imaginary_unit as [Hmax Hgt].
  unfold _sol_ham. rewrite Hmax. cbn [bind]. rewrite Hgt.
  destruct flag; cbn [negb]; [|reflexivity].
  now destruct (eigh [[Ci]]).
Qed.

Lemma imaginary_unit_not_hermitian : not_hermitian_beyond 1.0E-9 1 [[Ci]].
Proof.
  exists 0%nat, 0%nat. repeat split; try lia.
  unfold Cmod, Csub, Cconj, get2, Ci, Re, Im; simpl.
  replace ((0 - 0) * (0 - 0) + (1 - - (1)) * (1 - - (1))) with (2 * 2) by ring.
  rewrite sqrt_square by lra. lra.
Qed.

(** C4 (the code departs from it): the 1x1 matrix [i] has
    max |H - H^dagger| = 2 > 1e-9, yet [_sol_ham] does not raise on it and
    hands it to the eigensolver, whichever result is requested.  The test
    [np.max(ham - ham.T.conj()) > 1.0E-9] compares complex numbers, real
    part first, without taking a modulus. *)
Theorem C4_check_passes_a_non_hermitian_matrix
    (eigvalsh : matrix -> list C) (eigh : matrix -> list C * matrix)
    (wantVectors : bool) :
  not_hermitian_beyond 1.0E-9 1 [[Ci]] /\
  exists s, _sol_ham eigvalsh eigh [[Ci]] wantVectors = Ok s.
Proof.
  split; [exact imaginary_unit_not_hermitian|].
  rewrite sol_ham_imaginary_unit. destruct wantVectors; eauto.
Qed.

Lemma nth_map_seq {X} (f : nat -> X) n i d :
  (i < n)%nat -> nth i (map f (seq 0 n)) d = f i.
Proof.
  intros Hi. rewrite (nth_indep _ d (f 0%nat)) by (now rewrite length_map, length_seq).
  rewrite map_nth, seq_nth by exact Hi. reflexivity.
Qed.

(** *** What the Hermiticity check decides *)

Lemma Cgt_spec a b :
  Cgt a b = true <-> Re b < Re a \/ (Re a = Re b /\ Im b < Im a).
Proof.
  unfold Cgt. rewrite orb_true_iff, andb_true_iff, !Rltb_true, Reqb_true. tauto.
Qed.

Lemma Cge_spec a b :
  Cge a b = true <-> Re b < Re a \/ (Re a = Re b /\ Im b <= Im a).
Proof.
  unfold Cge. rewrite orb_true_iff, andb_true_iff, Rltb_true, Reqb_true, Rleb_true. tauto.
Qed.

Lemma Cge_refl a : Cge a a = true.
Proof. apply Cge_spec. right. split; [reflexivity|lra]. Qed.

Lemma Cmax_ge_l a b : Cge (Cmax a b) a = true.
Proof.
  unfold Cmax. destruct (Cge a b) eqn:E; [apply Cge_refl|].
  apply Cge_spec. assert (Hn : ~ (Re b < Re a \/ (Re a = Re b /\ Im b <= Im a))).
  { intros H. apply Cge_spec in H. congruence. }
  destruct (Rtotal_order (Re a) (Re b)) as [H|[H|H]]; [now left| |tauto].
  right. split; [now symmetry|]. destruct (Rle_dec (Im a) (Im b)); [assumption|].
  exfalso. apply Hn. right. split; [assumption|lra].
Qed.

Lemma Cmax_ge_r a b : Cge (Cmax a b) b = true.
Proof. unfold Cmax. destruct (Cge a b) eqn:E; [exact E|apply Cge_refl]. Qed.

Lemma Cge_trans a b c : Cge a b = true -> Cge b c = true -> Cge a c = true.
Proof. rewrite !Cge_spec. intros [H1|[H1 H1']] [H2|[H2 H2']]; try (left; lra). right. split; lra. Qed.

Lemma Cge_Cgt a b c : Cge a b = true -> Cgt b c = true -> Cgt a c = true.
Proof.
  rewrite Cge_spec, !Cgt_spec.
  intros [H1|[H1 H1']] [H2|[H2 H2']]; try (left; lra). right. split; lra.
Qed.

Lemma Cmax_choice a b : Cmax a b = a \/ Cmax a b = b.
Proof. unfold Cmax. destruct (Cge a b); auto. Qed.

Lemma fold_Cmax_spec l x :
  In (fold_left Cmax l x) (x :: l) /\
  Forall (fun y => Cge (fold_left Cmax l x) y = true) (x :: l).
Proof.
  revert x; induction l as [|y l IH]; intros x; simpl.
  - split; [now left|]. constructor; [apply Cge_refl|constructor].
  - destruct (IH (Cmax x y)) as [Hin Hall].
    set (f := fold_left Cmax l (Cmax x y)) in *. split.
    + destruct Hin as [Hin|Hin]; [|now right; right].
      destruct (Cmax_choice x y) as [E|E]; [left|right; left]; congruence.
    + inversion Hall as [|? ? Hm Hrest]; subst.
      constructor; [|constructor]; auto.
      * eapply Cge_trans; [exact Hm|apply Cmax_ge_l].
      * eapply Cge_trans; [exact Hm|apply Cmax_ge_r].
Qed.

(** the maximum exceeds a bound exactly when some element does *)
Lemma np_max_exceeds l c :
  l <> [] ->
  exists mx, np_max l = Ok mx /\
    (Cgt mx c = true <-> exists x, In x l /\ Cgt x c = true).
Proof.
  destruct l as [|x l]; [congruence|]. intros _.
  exists (fold_left Cmax l x). split; [reflexivity|].
  destruct (fold_Cmax_spec l x) as [Hin Hall]. split.
  - intros Hgt. eauto.
  - intros (y & Hy & Hgt). rewrite Forall_forall in Hall.
    eapply Cge_Cgt; [apply Hall; exact Hy|exact Hgt].
Qed.

Lemma square_row n (h : matrix) i : is_square n h -> (i < n)%nat -> length (nth i h []) = n.
Proof.
  intros [Hl Hr] Hi. rewrite Forall_forall in Hr. apply Hr, nth_In. lia.
Qed.

Lemma square_ncols n (h : matrix) : is_square n h -> ncols h = n.
Proof.
  intros [Hl Hr]. destruct h as [|r h]; simpl in *; [exact Hl|].
  now inversion Hr.
Qed.

Lemma transpose_square n h : is_square n h -> is_square n (transpose h).
Proof.
  intros Hsq. unfold transpose. rewrite (square_ncols n h Hsq). split.
  - now rewrite length_map, length_seq.
  - apply Forall_forall. intros row Hin. apply in_map_iff in Hin.
    destruct Hin as (j & <- & _). rewrite length_map. apply Hsq.
Qed.

Lemma transpose_get n h i j :
  is_square n h -> (i < n)%nat -> (j < n)%nat ->
  get2 (transpose h) i j = get2 h j i.
Proof.
  intros Hsq Hi Hj. unfold get2, transpose. rewrite (square_ncols n h Hsq).
  rewrite nth_map_seq by exact Hi.
  etransitivity;
    [apply nth_indep with (d' := (fun row : list C => nth i row C0) []);
     rewrite length_map; destruct Hsq as [-> _]; exact Hj|].
  apply (map_nth (fun row : list C => nth i row C0) h [] j).
Qed.

Lemma mconj_square n h : is_square n h -> is_square n (mconj h).
Proof.
  intros [Hl Hr]. unfold mconj. split; [now rewrite length_map|].
  apply Forall_forall. intros row Hin. apply in_map_iff in Hin.
  destruct Hin as (r & <- & Hin). rewrite length_map.
  rewrite Forall_forall in Hr. now apply Hr.
Qed.

Lemma mconj_get n h i j :
  is_square n h -> (i < n)%nat -> (j < n)%nat ->
  get2 (mconj h) i j = Cconj (get2 h i j).
Proof.
  intros Hsq Hi Hj. unfold get2, mconj.
  change (@nil C) with (map Cconj []) at 1. rewrite map_nth.
  etransitivity;
    [apply nth_indep with (d' := Cconj C0);
     rewrite length_map, (square_row n h i Hsq Hi); exact Hj|].
  apply map_nth.
Qed.

Lemma msub_square n a b : is_square n a -> is_square n b -> is_square n (msub a b).
Proof.
  intros Ha Hb. unfold msub. split.
  - rewrite zip_with_length. destruct Ha as [-> _], Hb as [-> _]. lia.
  - apply Forall_forall. intros row Hin.
    apply In_nth with (d := []) in Hin. destruct Hin as (i & Hi & <-).
    rewrite zip_with_length in Hi. destruct Ha as [Hla Hra], Hb as [Hlb Hrb].
    rewrite (nth_zip_with _ a b i [] [] []) by lia.
    rewrite zip_with_length.
    rewrite (square_row n a i (conj Hla Hra)), (square_row n b i (conj Hlb Hrb)) by lia.
    lia.
Qed.

Lemma msub_get n a b i j :
  is_square n a -> is_square n b -> (i < n)%nat -> (j < n)%nat ->
  get2 (msub a b) i j = Csub (get2 a i j) (get2 b i j).
Proof.
  intros Ha Hb Hi Hj. unfold get2, msub.
  rewrite (nth_zip_with _ a b i [] [] []) by (destruct Ha as [Ea _], Hb as [Eb _]; lia).
  apply nth_zip_with; [rewrite (square_row n a i Ha Hi)|rewrite (square_row n b i Hb Hi)]; exact Hj.
Qed.

Lemma square_entries n (h : matrix) x :
  is_square n h ->
  (In x (concat h) <-> exists i j, (i < n)%nat /\ (j < n)%nat /\ x = get2 h i j).
Proof.
  intros Hsq. rewrite in_concat. split.
  - intros (row & Hrow & Hx).
    apply In_nth with (d := []) in Hrow. destruct Hrow as (i & Hi & <-).
    destruct Hsq as [Hl Hr]. rewrite Hl in Hi.
    apply In_nth with (d := C0) in Hx. destruct Hx as (j & Hj & <-).
    rewrite (square_row n h i (conj Hl Hr) Hi) in Hj.
    exists i, j. auto.
  - intros (i & j & Hi & Hj & ->). exists (nth i h []). split.
    + apply nth_In. destruct Hsq as [-> _]. exact Hi.
    + apply nth_In. now rewrite (square_row n h i Hsq Hi).
Qed.

(** [_sol_ham] raises its "not hermitian" exception exactly when some
    entry of [H - H^dagger] is above 1e-9 in numpy's order on complex
    numbers: when its real part exceeds 1e-9, or equals 1e-9 with a
    positive imaginary part.  The imaginary parts alone never trigger it. *)
Lemma sol_ham_check_decides eigvalsh eigh (n : nat) (ham : matrix) (flag : bool) :
  is_square n ham -> (0 < n)%nat ->
  (_sol_ham eigvalsh eigh ham flag = Raise (Exception not_hermitian_msg) <->
   exists i j, (i < n)%nat /\ (j < n)%nat /\
     let d := Csub (get2 ham i j) (Cconj (get2 ham j i)) in
     1.0E-9 < Re d \/ (Re d = 1.0E-9 /\ 0 < Im d)).
Proof.
  intros Hsq Hn.
  set (D := msub ham (mconj (transpose ham))).
  assert (HD : is_square n D)
    by (apply msub_square; [exact Hsq|apply mconj_square, transpose_square, Hsq]).
  assert (Hget : forall i j, (i < n)%nat -> (j < n)%nat ->
            get2 D i j = Csub (get2 ham i j) (Cconj (get2 ham j i))).
  { intros i j Hi Hj. unfold D.
    rewrite (msub_get n), (mconj_get n), (transpose_get n); auto.
    - now apply transpose_square.
    - now apply mconj_square, transpose_square. }
  assert (Hne : concat D <> []).
  { intros E. assert (Hin : In (get2 D 0 0) (concat D))
      by (apply (square_entries n D _ HD); exists 0%nat, 0%nat; auto).
    rewrite E in Hin. exact Hin. }
  destruct (np_max_exceeds (concat D) (RtoC 1.0E-9) Hne) as (mx & Hmax & Hiff).
  unfold _sol_ham. fold D. rewrite Hmax. cbn [bind].
  assert (Hex : (exists x, In x (concat D) /\ Cgt x (RtoC 1.0E-9) = true) <->
                exists i j, (i < n)%nat /\ (j < n)%nat /\
                  let d := Csub (get2 ham i j) (Cconj (get2 ham j i)) in
                  1.0E-9 < Re d \/ (Re d = 1.0E-9 /\ 0 < Im d)).
  { split.
    - intros (x & Hin & Hgt). apply (square_entries n D x HD) in Hin.
      destruct Hin as (i & j & Hi & Hj & ->). exists i, j. repeat split; auto.
      rewrite Hget in Hgt by assumption. apply Cgt_spec in Hgt. exact Hgt.
    - intros (i & j & Hi & Hj & Hd). exists (get2 D i j). split.
      + apply (square_entries n D _ HD). exists i, j. auto.
      + rewrite Hget by assumption. apply Cgt_spec. exact Hd. }
  rewrite <- Hex, <- Hiff.
  destruct (Cgt mx (RtoC 1.0E-9)).
  - split; auto.
  - split; [|discriminate]. destruct (negb flag); [discriminate|].
    destruct (eigh ham). discriminate.
Qed.

(** *** What [eig[args]] selects *)

(** on eigenvalues that come back ascending, [_nicefy_eig] changes
    nothing *)
Lemma nicefy_of_sorted (eval : list C) (eig : matrix) :
  StronglySorted Rle (map Re eval) -> length eig = length eval ->
  _nicefy_eig eval (Some eig) = EvalsVecs (map Re eval) eig.
Proof.
  intros Hs Hlen. unfold _nicefy_eig.
  rewrite (argsort_of_sorted _ Hs), take_all, length_map, <- Hlen, take_all.
  reflexivity.
Qed.

(** on eigenvalues that come back descending, the rows of [eig] are
    exchanged: [eig[args]] indexes the first axis *)
Lemma nicefy_exchanges_rows (a b c d : C) :
  _nicefy_eig [RtoC 1; RtoC 0] (Some [[a; b]; [c; d]]) =
  EvalsVecs [0; 1] [[c; d]; [a; b]].
Proof.
  unfold _nicefy_eig.
  assert (Hargs : argsort (map Re [RtoC 1; RtoC 0]) = [1; 0]%nat).
  { unfold argsort. cbn [map Re RtoC fst length seq fold_left insert_idx nth].
    replace (Rltb 0 1) with true by (symmetry; apply Rltb_true; lra).
    reflexivity. }
  rewrite Hargs. reflexivity.
Qed.

(** with an eigensolver that keeps numpy's contract on [ham] (ascending
    real eigenvalues, one per row, and [ham = V diag(E) V^dagger]), a
    matrix that passes the check is returned decomposed as it came *)
Lemma sol_ham_of_contract eigvalsh eigh (ham : matrix) s :
  _sol_ham eigvalsh eigh ham true = Ok s ->
  StronglySorted Rle (map Re (fst (eigh ham))) ->
  length (snd (eigh ham)) = length (fst (eigh ham)) ->
  reconstruct (snd (eigh ham)) (map Re (fst (eigh ham))) = ham ->
  exists E V, s = EvalsVecs E V /\ StronglySorted Rle E /\ reconstruct V E = ham.
Proof.
  unfold _sol_ham. destruct (np_max _) as [mx|e]; cbn [bind]; [|discriminate].
  destruct (Cgt mx (RtoC 1.0E-9)); [discriminate|]. cbn [negb].
  destruct (eigh ham) as [eval eig]. cbn [fst snd].
  intros Heq Hs Hlen Hrec.
  rewrite (nicefy_of_sorted eval eig Hs Hlen) in Heq. injection Heq as <-. eauto.
Qed.

(* ================================================================== *)
(** ** The one-orbital chain *)

Lemma square1_is_entry (h : matrix) : is_square 1 h -> h = [[get2 h 0 0]].
Proof.
  intros [Hl Hr]. destruct h as [|row [|? ?]]; try discriminate.
  inversion Hr as [|? ? Hrow _]; subst.
  destruct row as [|z [|? ?]]; try discriminate. reflexivity.
Qed.

Lemma chain_sum t k :
  bloch_sum (chain_model t) (k, 0, 0) 0 0 =
  RtoC (2 * (Re t * cos (2 * PI * k) - Im t * sin (2 * PI * k))).
Proof.
  unfold bloch_sum.
  change (filter (hop_at 0 0) (hops (chain_model t)))
    with [(1%Z, (1%Z, 0%Z, 0%Z), (0%Z, 0%Z, t));
          (1%Z, ((-1)%Z, 0%Z, 0%Z), (0%Z, 0%Z, Cconj t))].
  cbn [map Csum fold_right bloch_term].
  rewrite !chain_dot by reflexivity.
  replace (k * -1) with (- (k * 1)) by ring.
  rewrite expi2pi_opp. unfold expi2pi.
  replace (2 * PI * (k * 1)) with (2 * PI * k) by ring.
  apply C_eq; Csimpl; field.
Qed.

Lemma chain_ham t k :
  _gen_ham (chain_model t) (Some (k, 0, 0)) =
  Ok [[RtoC (2 * (Re t * cos (2 * PI * k) - Im t * sin (2 * PI * k)))]].
Proof.
  destruct (gen_ham_entries (chain_model t) (k, 0, 0) eq_refl) as (H & Hrun & Hsq & Hent).
  transitivity (Ok H); [exact Hrun|]. f_equal.
  rewrite (square1_is_entry H Hsq).
  change (_norb (chain_model t)) with 1%nat in Hent.
  rewrite (Hent 0%nat 0%nat) by lia. now rewrite chain_sum.
Qed.

(** C5, as stated, fails for an amplitude that is not real: with t = i and
    k = 1/4 the matrix is [-2], not [2 Re(t) cos(2 pi k)] = [0]. *)
Lemma C5_imaginary_amplitude :
  ~ (forall (t : C) (k : R),
       _gen_ham (chain_model t) (Some (k, 0, 0)) =
       Ok [[RtoC (2 * Re t * cos (2 * PI * k))]]).
Proof.
  intros Hall. specialize (Hall Ci (/ 4)). rewrite chain_ham in Hall.
  injection Hall as Hre. revert Hre. unfold Ci, Re, Im; simpl.
  replace (2 * PI * / 4) with (PI / 2) by field.
  rewrite cos_PI2, sin_PI2. lra.
Qed.

(** *** Solving a real 1x1 matrix *)

Lemma Cmul_cancel_r (a b c : C) : c <> C0 -> Cmul a c = Cmul b c -> a = b.
Proof.
  destruct a as [a1 a2], b as [b1 b2], c as [c1 c2]. unfold Cmul, C0; simpl.
  intros Hc [= H1 H2].
  assert (Hn : 0 < c1 * c1 + c2 * c2).
  { destruct (Req_dec (c1 * c1 + c2 * c2) 0) as [E|E].
    - destruct (Rplus_sqr_eq_0 c1 c2 E) as [-> ->]. now elim Hc.
    - pose proof (Rle_0_sqr c1). pose proof (Rle_0_sqr c2). unfold Rsqr in *. lra. }
  assert (E1 : (a1 - b1) * (c1 * c1 + c2 * c2) = 0).
  { replace ((a1 - b1) * (c1 * c1 + c2 * c2))
      with (c1 * ((a1 * c1 - a2 * c2) - (b1 * c1 - b2 * c2))
            + c2 * ((a1 * c2 + a2 * c1) - (b1 * c2 + b2 * c1))) by ring.
    rewrite H1, H2. ring. }
  assert (E2 : (a2 - b2) * (c1 * c1 + c2 * c2) = 0).
  { replace ((a2 - b2) * (c1 * c1 + c2 * c2))
      with (c1 * ((a1 * c2 + a2 * c1) - (b1 * c2 + b2 * c1))
            - c2 * ((a1 * c1 - a2 * c2) - (b1 * c1 - b2 * c2))) by ring.
    rewrite H1, H2. ring. }
  apply Rmult_integral in E1, E2.
  f_equal; [destruct E1 | destruct E2]; lra.
Qed.

Lemma eigenvalue_1x1 (h lam : C) : is_eigenvalue [[h]] lam -> lam = h.
Proof.
  intros (v & Hlen & Hnz & Heq).
  destruct v as [|c [|? ?]]; try discriminate.
  inversion Hnz as [? ? Hc|? ? Hc]; [|inversion Hc].
  unfold mat_apply in Heq. cbn [map zip_with Csum fold_right] in Heq.
  apply (f_equal (fun l => nth 0 l C0)) in Heq. cbn [nth] in Heq.
  rewrite Cadd_0_r in Heq. symmetry. now apply Cmul_cancel_r with (c := c).
Qed.

Lemma eigvalsh_1x1_spec eigvalsh (h : C) :
  eigenvalues_of eigvalsh [[h]] -> eigvalsh [[h]] = [h].
Proof.
  intros [Hlen Hall]. destruct (eigvalsh [[h]]) as [|lam [|? ?]]; try discriminate.
  inversion Hall as [|? ? Hlam _]; subst. now rewrite (eigenvalue_1x1 h lam).
Qed.

Lemma sol_ham_real_1x1 eigvalsh eigh (x : R) :
  eigenvalues_of eigvalsh [[RtoC x]] ->
  _sol_ham eigvalsh eigh [[RtoC x]] false = Ok (Evals [x]).
Proof.
  intros Hspec. unfold _sol_ham.
  change (np_max (concat (msub [[RtoC x]] (mconj (transpose [[RtoC x]])))))
    with (@Ok C (Csub (RtoC x) (Cconj (RtoC x)))).
  cbn [bind].
  replace (Cgt (Csub (RtoC x) (Cconj (RtoC x))) (RtoC 1.0E-9)) with false.
  - cbn [negb]. rewrite (eigvalsh_1x1_spec eigvalsh _ Hspec). reflexivity.
  - symmetry. unfold Cgt, Csub, Cconj, RtoC, Re, Im; simpl.
    replace (Rltb 1.0E-9 (x - x)) with false by (symmetry; apply Rltb_false; lra).
    replace (Reqb (x - x) 1.0E-9) with false by (symmetry; apply Reqb_false; lra).
    reflexivity.
Qed.

(** C5 (as amended): for every complex t and real k the chain, which the
    constructor accepts, has the 1x1 Hamiltonian
    2 (Re(t) cos(2 pi k) - Im(t) sin(2 pi k)) at [k, 0, 0]; this is
    2 Re(t) cos(2 pi k) when t is real or sin(2 pi k) = 0; and with an
    eigensolver that returns the eigenvalues of that matrix, [_sol_ham] at
    k = 0 returns the single eigenvalue 2 Re(t). *)
Theorem C5_chain_dispersion
    (t : C) (k : R)
    (eigvalsh : matrix -> list C) (eigh : matrix -> list C * matrix) :
  eigenvalues_of eigvalsh [[RtoC (2 * Re t)]] ->
  chain_init t = Ok (chain_model t) /\
  _gen_ham (chain_model t) (Some (k, 0, 0)) =
    Ok [[RtoC (2 * (Re t * cos (2 * PI * k) - Im t * sin (2 * PI * k)))]] /\
  (Im t = 0 \/ sin (2 * PI * k) = 0 ->
   _gen_ham (chain_model t) (Some (k, 0, 0)) =
     Ok [[RtoC (2 * Re t * cos (2 * PI * k))]]) /\
  exists H0,
    _gen_ham (chain_model t) (Some (0, 0, 0)) = Ok H0 /\
    H0 = [[RtoC (2 * Re t)]] /\
    _sol_ham eigvalsh eigh H0 false = Ok (Evals [2 * Re t]).
Proof.
  intros Hspec. split; [apply chain_init_ok|]. split; [apply chain_ham|]. split.
  - intros Hreal. rewrite chain_ham. do 4 f_equal.
    destruct Hreal as [-> | ->]; ring.
  - exists [[RtoC (2 * Re t)]]. split; [|split; auto].
    + rewrite chain_ham. do 4 f_equal.
      rewrite Rmult_0_r, cos_0, sin_0. ring.
    + now apply sol_ham_real_1x1.
Qed.

(* ================================================================== *)
(** ** Arrays: flat positions and element access *)

Lemma in_bounds_size_pos shape idx : in_bounds shape idx -> (0 < size shape)%nat.
Proof.
  unfold in_bounds. induction 1 as [|i n idx shape Hi _ IH]; simpl; [lia|].
  apply Nat.mul_pos_pos; lia.
Qed.

Lemma ravel_lt shape idx : in_bounds shape idx -> (ravel shape idx < size shape)%nat.
Proof.
  unfold in_bounds. induction 1 as [|i n idx shape Hi _ IH]; simpl; [lia|].
  nia.
Qed.

Lemma unravel_ravel shape idx : in_bounds shape idx -> unravel shape (ravel shape idx) = idx.
Proof.
  intros Hb. pose proof Hb as Hb'. unfold in_bounds in Hb.
  induction Hb as [|i n idx shape Hi Hrest IH]; simpl; [reflexivity|].
  assert (Hr : (ravel shape idx < size shape)%nat) by (now apply ravel_lt).
  assert (Hs : size shape <> 0%nat) by lia.
  f_equal.
  - rewrite Nat.div_add_l by exact Hs. rewrite Nat.div_small by exact Hr. lia.
  - rewrite Nat.add_comm, Nat.Div0.mod_add, Nat.mod_small by exact Hr.
    apply IH. exact Hrest.
Qed.

Lemma nd_get_build {X} (d : X) shape f idx :
  in_bounds shape idx -> nd_get d (nd_build shape f) idx = f idx.
Proof.
  intros Hb. unfold nd_get, nd_build; simpl.
  rewrite nth_map_seq by (now apply ravel_lt).
  now rewrite unravel_ravel.
Qed.

Lemma nd_build_length {X} shape (f : list nat -> X) :
  length (nd_data (nd_build shape f)) = size shape.
Proof. unfold nd_build; simpl. now rewrite length_map, length_seq. Qed.

(** reading a reshaped [nd_build] array: the flat position decides *)
Lemma nd_get_rebuilt {X} (d : X) shape f shape' idx' idx :
  in_bounds shape idx ->
  ravel shape' idx' = ravel shape idx ->
  nd_get d (mk_nd shape' (nd_data (nd_build shape f))) idx' = f idx.
Proof.
  intros Hb Heq. unfold nd_get; simpl. rewrite Heq.
  rewrite nth_map_seq by (now apply ravel_lt).
  now rewrite unravel_ravel.
Qed.


(* ================================================================== *)
(** ** The k-mesh generator *)

Lemma mesh_norm_get (N1 N2 N3 : nat) (a1 a2 a3 : R) c i1 i2 i3 :
  (c < 3)%nat -> (i1 < N1)%nat -> (i2 < N2)%nat -> (i3 < N3)%nat ->
  nd_get 0 (np_transpose 0 (mk_nd [N1; N2; N3; 3%nat]
                              (nd_data (np_tile 0 [a1; a2; a3] [N1; N2; N3])))
                         [3; 0; 1; 2]%nat)
         [c; i1; i2; i3] = nth c [a1; a2; a3] 0.
Proof.
  intros Hc H1 H2 H3. unfold np_transpose.
  cbn [nd_shape map nth length seq index_of Nat.eqb].
  rewrite nd_get_build by bounds.
  cbn [map nth].
  unfold np_tile. cbn [removelast last app length].
  rewrite (nd_get_rebuilt 0 _ _ _ _ [i1; i2; (i3 * 3 + c)%nat]).
  - cbn [last]. now rewrite Nat.add_comm, Nat.Div0.mod_add, Nat.mod_small.
  - bounds.
  - cbn [ravel size fold_right]. ring.
Qed.

Lemma mesh_grid_get (N1 N2 N3 : nat) c i1 i2 i3 :
  (c < 3)%nat -> (i1 < N1)%nat -> (i2 < N2)%nat -> (i3 < N3)%nat ->
  nd_get 0%nat (np_mgrid [N1; N2; N3]) [c; i1; i2; i3] = nth c [i1; i2; i3] 0%nat.
Proof.
  intros Hc H1 H2 H3. unfold np_mgrid. cbn [length].
  now rewrite nd_get_build by bounds.
Qed.

Lemma shape_eqb_refl s : shape_eqb s s = true.
Proof. unfold shape_eqb. destruct (list_eq_dec Nat.eq_dec s s); congruence. Qed.

Lemma mesh_run m n1 n2 n3 :
  (0 < n1)%Z -> (0 < n2)%Z -> (0 < n3)%Z ->
  k_uniform_mesh m [n1; n2; n3] =
  Ok (mk_nd [(Z.to_nat n1 * Z.to_nat n2 * Z.to_nat n3)%nat; 3%nat]
        (nd_data (np_transpose 0 (mesh_quotient n1 n2 n3) [1; 2; 3; 0]%nat))).
Proof.
  intros H1 H2 H3. unfold k_uniform_mesh.
  change (shape_eqb [length [n1; n2; n3]] [_dim_k]) with true. cbn [negb].
  cbn [np_min fold_left bind].
  replace (Z.min (Z.min n1 n2) n3 <=? 0)%Z with false
    by (symmetry; apply Z.leb_gt; lia).
  cbn [map app nth].
  set (N1 := Z.to_nat n1). set (N2 := Z.to_nat n2). set (N3 := Z.to_nat n3).
  unfold np_reshape at 1.
  replace (size [N1; N2; N3; 3%nat] =?
           length (nd_data (np_tile 0%R [IZR n1; IZR n2; IZR n3] [N1; N2; N3])))%nat
    with true.
  2:{ symmetry. apply Nat.eqb_eq. unfold np_tile. rewrite nd_build_length.
      cbn [removelast last app length size fold_right]. ring. }
  cbn [bind]. unfold np_divide.
  change (nd_shape (np_mgrid [N1; N2; N3])) with [3%nat; N1; N2; N3].
  change (nd_shape (np_transpose 0 _ [3; 0; 1; 2]%nat)) with [3%nat; N1; N2; N3].
  rewrite shape_eqb_refl.
  cbn [bind]. unfold np_reshape.
  match goal with |- (if ?b then _ else _) = _ => replace b with true end.
  - reflexivity.
  - symmetry. apply Nat.eqb_eq. unfold np_transpose. rewrite nd_build_length.
    cbn [nd_shape map nth size fold_right]. ring.
Qed.

Lemma mesh_get n1 n2 n3 c i1 i2 i3 :
  (c < 3)%nat -> (i1 < Z.to_nat n1)%nat -> (i2 < Z.to_nat n2)%nat -> (i3 < Z.to_nat n3)%nat ->
  nd_get 0
    (mk_nd [(Z.to_nat n1 * Z.to_nat n2 * Z.to_nat n3)%nat; 3%nat]
       (nd_data (np_transpose 0 (mesh_quotient n1 n2 n3) [1; 2; 3; 0]%nat)))
    [(i1 * Z.to_nat n2 * Z.to_nat n3 + i2 * Z.to_nat n3 + i3)%nat; c]
  = INR (nth c [i1; i2; i3] 0%nat) / nth c [IZR n1; IZR n2; IZR n3] 0.
Proof.
  intros Hc H1 H2 H3.
  set (N1 := Z.to_nat n1) in *. set (N2 := Z.to_nat n2) in *. set (N3 := Z.to_nat n3) in *.
  unfold np_transpose.
  change (nd_shape (mesh_quotient n1 n2 n3)) with [3%nat; N1; N2; N3].
  cbn [map nth length seq index_of Nat.eqb].
  rewrite (nd_get_rebuilt 0 _ _ _ _ [i1; i2; i3; c]).
  - cbn [map nth]. unfold nd_get, mesh_quotient. cbn [nd_shape nd_data]. fold N1 N2 N3.
    assert (Hr : (ravel [3%nat; N1; N2; N3] [c; i1; i2; i3] < size [3%nat; N1; N2; N3])%nat)
      by (apply ravel_lt; bounds).
    rewrite (nth_zip_with _ _ _ _ 0%nat 0).
    + change (nth (ravel [3%nat; N1; N2; N3] [c; i1; i2; i3])
                  (nd_data (np_mgrid [N1; N2; N3])) 0%nat)
        with (nd_get 0%nat (np_mgrid [N1; N2; N3]) [c; i1; i2; i3]).
      rewrite mesh_grid_get by assumption. f_equal.
      apply (mesh_norm_get N1 N2 N3 (IZR n1) (IZR n2) (IZR n3) c i1 i2 i3); assumption.
    + unfold np_mgrid. rewrite nd_build_length. exact Hr.
    + unfold np_transpose. rewrite nd_build_length. exact Hr.
  - bounds.
  - cbn [ravel size fold_right]. ring.
Qed.

Lemma mesh_index_split N1 N2 N3 p :
  (p < N1 * N2 * N3)%nat ->
  exists i1 i2 i3, (i1 < N1)%nat /\ (i2 < N2)%nat /\ (i3 < N3)%nat /\
    p = (i1 * N2 * N3 + i2 * N3 + i3)%nat.
Proof.
  intros Hp.
  assert (H3 : N3 <> 0%nat) by (intros ->; lia).
  assert (H2 : N2 <> 0%nat) by (intros ->; lia).
  exists (p / N3 / N2)%nat, ((p / N3) mod N2)%nat, (p mod N3)%nat.
  repeat split.
  - apply Nat.Div0.div_lt_upper_bound. apply Nat.Div0.div_lt_upper_bound. lia.
  - now apply Nat.mod_upper_bound.
  - now apply Nat.mod_upper_bound.
  - pose proof (Nat.div_mod_eq p N3) as E1.
    pose proof (Nat.div_mod_eq (p / N3) N2) as E2. nia.
Qed.

Lemma mesh_index_zero (N1 N2 N3 i1 i2 i3 : nat) :
  (i1 * N2 * N3 + i2 * N3 + i3 = 0 <-> i1 * N2 * N3 = 0 /\ i2 * N3 = 0 /\ i3 = 0)%nat.
Proof. lia. Qed.

Lemma INR_over_pos_range (i : nat) (n : Z) :
  (i < Z.to_nat n)%nat -> 0 <= INR i / IZR n < 1.
Proof.
  intros Hi. assert (Hn : (0 < n)%Z) by lia.
  assert (Hlt : INR i < IZR n).
  { rewrite INR_IZR_INZ. apply IZR_lt. lia. }
  pose proof (pos_INR i) as Hpos.
  assert (Hn' : 0 < IZR n) by lra.
  split.
  - apply Rmult_le_pos; [exact Hpos|]. left. now apply Rinv_0_lt_compat.
  - apply (Rmult_lt_reg_r (IZR n)); [exact Hn'|]. unfold Rdiv.
    rewrite Rmult_assoc, Rinv_l by lra. lra.
Qed.

Lemma INR_over_pos_zero (i : nat) (n : Z) :
  (0 < n)%Z -> INR i / IZR n = 0 -> i = 0%nat.
Proof.
  intros Hn H0. assert (Hn' : 0 < IZR n) by (now apply IZR_lt).
  assert (E : INR i = 0).
  { replace (INR i) with (INR i / IZR n * IZR n) by (field; lra). rewrite H0. ring. }
  now apply INR_eq.
Qed.

(** C7: for positive integers n1, n2, n3, [k_uniform_mesh] returns an
    array of n1 n2 n3 rows of 3 coordinates; row i1 n2 n3 + i2 n3 + i3 is
    (i1/n1, i2/n2, i3/n3), so the order is row-major with the last
    dimension fastest; the zero vector is row 0 and no other row; every
    coordinate lies in [0, 1). *)
Theorem C7_uniform_mesh (m : tb_model) (n1 n2 n3 : Z) :
  (0 < n1)%Z -> (0 < n2)%Z -> (0 < n3)%Z ->
  let N1 := Z.to_nat n1 in
  let N2 := Z.to_nat n2 in
  let N3 := Z.to_nat n3 in
  exists K,
    k_uniform_mesh m [n1; n2; n3] = Ok K /\
    nd_shape K = [(N1 * N2 * N3)%nat; 3%nat] /\
    length (nd_data K) = (N1 * N2 * N3 * 3)%nat /\
    (forall i1 i2 i3, (i1 < N1)%nat -> (i2 < N2)%nat -> (i3 < N3)%nat ->
       nd_row K (i1 * N2 * N3 + i2 * N3 + i3) =
       (INR i1 / IZR n1, INR i2 / IZR n2, INR i3 / IZR n3)) /\
    nd_row K 0 = vzero /\
    (forall p, (p < N1 * N2 * N3)%nat -> nd_row K p = vzero -> p = 0%nat) /\
    (forall p c, (p < N1 * N2 * N3)%nat -> (c < 3)%nat ->
       0 <= nd_get 0 K [p; c] < 1).
Proof.
  intros H1 H2 H3 N1 N2 N3.
  eexists. split; [apply mesh_run; assumption|]. fold N1 N2 N3.
  set (K := mk_nd _ _).
  assert (Hrow : forall i1 i2 i3, (i1 < N1)%nat -> (i2 < N2)%nat -> (i3 < N3)%nat ->
            nd_row K (i1 * N2 * N3 + i2 * N3 + i3) =
            (INR i1 / IZR n1, INR i2 / IZR n2, INR i3 / IZR n3)).
  { intros i1 i2 i3 B1 B2 B3. unfold nd_row, K. subst N1 N2 N3.
    rewrite !mesh_get by (assumption || lia). reflexivity. }
  split; [reflexivity|]. split.
  { unfold K. cbn [nd_data]. unfold np_transpose. rewrite nd_build_length.
    change (nd_shape (mesh_quotient n1 n2 n3)) with [3%nat; N1; N2; N3].
    cbn [map nth size fold_right]. ring. }
  split; [exact Hrow|]. split.
  { replace 0%nat with (0 * N2 * N3 + 0 * N3 + 0)%nat by lia.
    rewrite Hrow by (unfold N1, N2, N3; lia).
    unfold vzero. simpl. unfold Rdiv. now rewrite !Rmult_0_l. }
  split.
  - intros p Hp Hz.
    destruct (mesh_index_split N1 N2 N3 p Hp) as (i1 & i2 & i3 & B1 & B2 & B3 & ->).
    rewrite Hrow in Hz by assumption. unfold vzero in Hz. injection Hz as Z1 Z2 Z3.
    apply INR_over_pos_zero in Z1, Z2, Z3; try assumption. subst. lia.
  - intros p c Hp Hc.
    destruct (mesh_index_split N1 N2 N3 p Hp) as (i1 & i2 & i3 & B1 & B2 & B3 & ->).
    unfold K. subst N1 N2 N3. rewrite mesh_get by assumption.
    destruct c as [|[|[|c]]]; try lia; cbn [nth]; now apply INR_over_pos_range.
Qed.

(* ================================================================== *)
(** ** Validation at construction and at the start of [k_path] *)

Lemma exception_is_configuration_error msg :
  msg <> not_hermitian_msg -> ConfigurationError (Exception msg).
Proof. intros Hne. exists msg. now split. Qed.

Lemma init_singular_lattice (L : mat3) orb deg Rvec Hmat nspin :
  Rabs (det3 L) < 1.0E-6 ->
  __init__ (mat3_rows L) orb deg Rvec Hmat nspin =
  Raise (Exception "Lattice vectors length/area/volume too close to zero, or zero.").
Proof.
  intros Hdet. destruct L as [[[[a11 a12] a13] [[a21 a22] a23]] [[a31 a32] a33]].
  unfold __init__.
  change (shape2 (mat3_rows (a11, a12, a13, (a21, a22, a23), (a31, a32, a33))))
    with (@Ok (list nat) [3; 3]%nat).
  cbn [bind]. change (shape_eqb [3; 3]%nat [_dim_r; _dim_r]) with true. cbn [negb].
  change (as_mat3 (mat3_rows (a11, a12, a13, (a21, a22, a23), (a31, a32, a33))))
    with (Some (a11, a12, a13, (a21, a22, a23), (a31, a32, a33))).
  cbv iota.
  apply Rltb_true in Hdet.
  match goal with
  | |- (if ?b then _ else _) = _ => replace b with true by (symmetry; exact Hdet)
  end.
  reflexivity.
Qed.

Lemma as_rows3_nodes (nodes : list vec3) : as_rows3 (map vec3_to_list nodes) = Some nodes.
Proof.
  induction nodes as [|[[a b] c] nodes IH]; simpl; [reflexivity|]. now rewrite IH.
Qed.

Lemma shape2_nodes (nodes : list vec3) :
  nodes <> [] -> shape2 (map vec3_to_list nodes) = Ok [length nodes; 3%nat].
Proof.
  destruct nodes as [|[[a b] c] nodes]; [congruence|]. intros _.
  unfold shape2. cbn [map].
  replace (forallb _ (map vec3_to_list nodes)) with true.
  - cbn [length vec3_to_list]. now rewrite length_map.
  - symmetry. apply forallb_forall. intros r Hin. apply in_map_iff in Hin.
    destruct Hin as ([[x y] z] & <- & _). reflexivity.
Qed.

(** what [k_path] does once the node array has passed the shape checks *)
Lemma k_path_nodes m nodes nk :
  nodes <> [] ->
  k_path m (nodes_arg nodes) nk =
  if (nk <? Z.of_nat (length nodes))%Z
  then Raise (Exception "Must have more points in the path than number of nodes.")
  else
    k_metric <- inv3 (mat_mul (_lat m) (transpose3 (_lat m))) ;;
    node_index <- node_indices (length nodes) (node_distances k_metric nodes) nk ;;
    k_vec <- setitem (repeat vzero (Z.to_nat nk)) 0 (nth 0 nodes vzero) ;;
    st <- foldM (segment_step nodes (node_distances k_metric nodes) node_index)
                (seq 1 (length nodes - 1)) (repeat 0 (Z.to_nat nk), k_vec) ;;
    Ok (snd st, fst st, node_distances k_metric nodes).
Proof.
  intros Hne. unfold k_path, nodes_arg. cbn [k_list_of].
  rewrite (shape2_nodes nodes Hne). cbn [bind length Nat.ltb Nat.leb nth].
  change (negb (3 =? _dim_k)%nat) with false. cbv iota.
  now rewrite as_rows3_nodes.
Qed.

(** C9: a lattice matrix with |det| < 1e-6, the all-zero matrix among
    them, makes the constructor raise, and [k_path] raises when asked for
    fewer points than there are nodes; both exceptions are configuration
    errors, and nothing is returned. *)
Theorem C9_validation_rejects :
  (forall (L : mat3) orb deg Rvec Hmat nspin,
     Rabs (det3 L) < 1.0E-6 ->
     exists e, __init__ (mat3_rows L) orb deg Rvec Hmat nspin = Raise e /\
               ConfigurationError e) /\
  (forall orb deg Rvec Hmat nspin,
     exists e, __init__ [[0; 0; 0]; [0; 0; 0]; [0; 0; 0]] orb deg Rvec Hmat nspin = Raise e /\
               ConfigurationError e) /\
  (forall (m : tb_model) (nodes : list vec3) (nk : Z),
     nodes <> [] -> (nk < Z.of_nat (length nodes))%Z ->
     exists e, k_path m (nodes_arg nodes) nk = Raise e /\ ConfigurationError e).
Proof.
  split; [|split].
  - intros L orb deg Rvec Hmat nspin Hdet. eexists. split.
    + now apply init_singular_lattice.
    + apply exception_is_configuration_error. discriminate.
  - intros orb deg Rvec Hmat nspin. eexists. split.
    + apply (init_singular_lattice ((0, 0, 0), (0, 0, 0), (0, 0, 0))).
      unfold det3. rewrite !Rmult_0_l, Rminus_0_r, Rplus_0_r, Rabs_R0. lra.
    + apply exception_is_configuration_error. discriminate.
  - intros m nodes nk Hne Hlt. eexists. split.
    + rewrite (k_path_nodes m nodes nk Hne).
      apply Z.ltb_lt in Hlt. rewrite Hlt. reflexivity.
    + apply exception_is_configuration_error. discriminate.
Qed.

(* ================================================================== *)
(** ** [k_path] on degenerate node lists *)

Lemma vec3_eq (a b : vec3) :
  fst (fst a) = fst (fst b) -> snd (fst a) = snd (fst b) -> snd a = snd b -> a = b.
Proof. destruct a as [[? ?] ?], b as [[? ?] ?]; simpl; intros; subst; reflexivity. Qed.

Lemma identity_metric : inv3 (mat_mul identity3 (transpose3 identity3)) = Ok identity3.
Proof.
  unfold inv3.
  replace (det3 (mat_mul identity3 (transpose3 identity3))) with 1
    by (unfold det3, mat_mul, transpose3, identity3, vdot; ring).
  replace (Reqb 1 0) with false by (symmetry; apply Reqb_false; lra).
  f_equal. unfold mat_scale, adj3, mat_mul, transpose3, identity3, vdot, vscale.
  f_equal; [f_equal|]; apply vec3_eq; simpl; field.
Qed.

Lemma py_round_IZR (z : Z) : py_round (IZR z) = z.
Proof.
  assert (Hup : up (IZR z) = (z + 1)%Z).
  { symmetry. apply tech_up; rewrite plus_IZR; lra. }
  assert (Hint : Int_part (IZR z) = z) by (unfold Int_part; rewrite Hup; lia).
  unfold py_round, frac_part. rewrite Hint.
  replace (Rltb (IZR z - IZR z) (1 / 2)) with true
    by (symmetry; apply Rltb_true; lra).
  reflexivity.
Qed.

Lemma dklen_same M a : dklen M a a = 0.
Proof.
  unfold dklen. destruct a as [[a1 a2] a3]. destruct M as [[r1 r2] r3].
  cbn [vsub mat_vec].
  set (x1 := vdot r1 _). set (x2 := vdot r2 _). set (x3 := vdot r3 _).
  cbn [vdot]. replace ((a1 - a1) * x1 + (a2 - a2) * x2 + (a3 - a3) * x3) with 0 by ring.
  apply sqrt_0.
Qed.

Lemma dklen_identity a b :
  dklen identity3 a b = sqrt (vdot (vsub b a) (vsub b a)).
Proof.
  unfold dklen. f_equal. f_equal.
  destruct (vsub b a) as [[x y] z]. unfold mat_vec, identity3, vdot.
  apply vec3_eq; simpl; ring.
Qed.

Lemma node_distances_3 M a b c :
  node_distances M [a; b; c] = [0; 0 + dklen M a b; 0 + dklen M a b + dklen M b c].
Proof. reflexivity. Qed.

Lemma path_three_coincident_raises t :
  k_path (chain_model t) (nodes_arg [origin3; origin3; origin3]) 3 = Raise ValueError.
Proof.
  rewrite k_path_nodes by discriminate.
  change (3 <? Z.of_nat (length [origin3; origin3; origin3]))%Z with false. cbv iota.
  change (_lat (chain_model t)) with identity3.
  rewrite identity_metric. cbn [bind].
  rewrite node_distances_3, !dklen_same.
  unfold node_indices. cbn [length Nat.sub seq mapM].
  unfold interior_index. cbn [nth last].
  replace (Reqb (0 + 0 + 0) 0) with true by (symmetry; apply Reqb_true; lra).
  replace (Reqb (0 + 0) 0) with true by (symmetry; apply Reqb_true; lra).
  reflexivity.
Qed.

Lemma dklen_origin_unit_x : dklen identity3 origin3 unit_x = 1.
Proof.
  rewrite dklen_identity. unfold origin3, unit_x, vsub, vdot.
  replace ((1 - 0) * (1 - 0) + (0 - 0) * (0 - 0) + (0 - 0) * (0 - 0)) with (1 * 1) by ring.
  apply sqrt_square. lra.
Qed.

Lemma path_repeated_node_raises t :
  k_path (chain_model t) (nodes_arg [origin3; origin3; unit_x]) 3 = Raise ZeroDivisionError.
Proof.
  rewrite k_path_nodes by discriminate.
  change (3 <? Z.of_nat (length [origin3; origin3; unit_x]))%Z with false. cbv iota.
  change (_lat (chain_model t)) with identity3.
  rewrite identity_metric. cbn [bind].
  rewrite node_distances_3, dklen_same, dklen_origin_unit_x.
  unfold node_indices. cbn [length Nat.sub seq mapM].
  unfold interior_index. cbn [nth last].
  replace (Reqb (0 + 0 + 1) 0) with false by (symmetry; apply Reqb_false; lra).
  replace ((0 + 0) / (0 + 0 + 1) * IZR (3 - 1)) with (IZR 0) by (simpl; field).
  rewrite py_round_IZR. cbn [bind app].
  reflexivity.
Qed.

(* ================================================================== *)
(** ** The accumulated node distances *)

Lemma nth_repeat_any {X} (x : X) n p : nth p (repeat x n) x = x.
Proof.
  destruct (Nat.lt_ge_cases p n).
  - now apply nth_repeat_lt.
  - apply nth_overflow. now rewrite repeat_length.
Qed.

Lemma nth_upd {X} (l : list X) n p v d :
  nth p (upd l n v) d = if (Nat.eqb n p && Nat.ltb n (length l))%bool then v else nth p l d.
Proof.
  destruct (Nat.eqb_spec n p) as [<-|Hne]; simpl.
  - destruct (Nat.ltb_spec n (length l)) as [Hlt|Hge].
    + now apply nth_upd_same.
    + rewrite !nth_overflow; auto. now rewrite upd_length.
  - now apply nth_upd_other.
Qed.

Section NodeDistances.
Variable M : mat3.
Variable nodes : list vec3.

Lemma upto_S k : node_distances_upto M nodes (S k) = node_step M nodes (node_distances_upto M nodes k) (S k).
Proof. unfold node_distances_upto. now rewrite seq_S, fold_left_app. Qed.

Lemma upto_length k : length (node_distances_upto M nodes k) = length nodes.
Proof.
  induction k as [|k IH].
  - apply repeat_length.
  - rewrite upto_S. unfold node_step. now rewrite upd_length.
Qed.

Lemma upto_untouched k n : (n = 0 \/ k < n)%nat -> nth n (node_distances_upto M nodes k) 0 = 0.
Proof.
  revert n. induction k as [|k IH]; intros n Hn.
  - apply nth_repeat_any.
  - rewrite upto_S. unfold node_step. rewrite nth_upd.
    replace (S k =? n)%nat with false by (symmetry; apply Nat.eqb_neq; lia).
    simpl. apply IH. lia.
Qed.

Lemma upto_step k n :
  (1 <= n <= k)%nat -> (k < length nodes)%nat ->
  nth n (node_distances_upto M nodes k) 0 =
  nth (n - 1) (node_distances_upto M nodes k) 0 + dklen M (nth (n - 1) nodes vzero) (nth n nodes vzero).
Proof.
  revert n. induction k as [|k IH]; intros n Hn Hk; [lia|].
  rewrite upto_S. unfold node_step. rewrite !nth_upd, upto_length.
  replace (S k <? length nodes)%nat with true by (symmetry; apply Nat.ltb_lt; lia).
  replace (S k =? n - 1)%nat with false by (symmetry; apply Nat.eqb_neq; lia).
  destruct (Nat.eqb_spec (S k) n) as [<-|Hne]; simpl.
  - replace (S k - 1)%nat with k by lia. reflexivity.
  - apply IH; lia.
Qed.

Lemma node_distances_length : length (node_distances M nodes) = length nodes.
Proof. apply (upto_length (length nodes - 1)). Qed.

Lemma node_distances_0 : nth 0 (node_distances M nodes) 0 = 0.
Proof. apply (upto_untouched (length nodes - 1)). now left. Qed.

Lemma node_distances_step n :
  (1 <= n < length nodes)%nat ->
  nth n (node_distances M nodes) 0 =
  nth (n - 1) (node_distances M nodes) 0
  + dklen M (nth (n - 1) nodes vzero) (nth n nodes vzero).
Proof. intros Hn. apply (upto_step (length nodes - 1)); lia. Qed.

Lemma dklen_nonneg a b : 0 <= dklen M a b.
Proof. apply sqrt_pos. Qed.

Lemma node_distances_mono a b :
  (a <= b < length nodes)%nat ->
  nth a (node_distances M nodes) 0 <= nth b (node_distances M nodes) 0.
Proof.
  intros [Hab Hb]. induction b as [|b IH].
  - replace a with 0%nat by lia. lra.
  - destruct (Nat.eq_dec a (S b)) as [->|Hne]; [lra|].
    rewrite (node_distances_step (S b)) by lia.
    replace (S b - 1)%nat with b by lia.
    pose proof (dklen_nonneg (nth b nodes vzero) (nth (S b) nodes vzero)).
    assert (nth a (node_distances M nodes) 0 <= nth b (node_distances M nodes) 0)
      by (apply IH; lia).
    lra.
Qed.
End NodeDistances.

(* ================================================================== *)
(** ** The interpolation loops *)

Lemma setitem_in_range {X} (l : list X) (j : Z) v :
  (0 <= j < Z.of_nat (length l))%Z -> setitem l j v = Ok (upd l (Z.to_nat j) v).
Proof. intros Hj. unfold setitem. now rewrite py_index_in_range. Qed.

Lemma point_loop n_i n_f kd_i kd_f k_i k_f (L : nat) (js : list Z) :
  n_f <> n_i ->
  Forall (fun j => (0 <= j < Z.of_nat L)%Z) js ->
  forall kd kv, length kd = L -> length kv = L ->
  exists kd' kv',
    foldM (point_step n_i n_f kd_i kd_f k_i k_f) js (kd, kv) = Ok (kd', kv') /\
    length kd' = L /\ length kv' = L /\
    forall p : nat,
      (In (Z.of_nat p) js ->
         nth p kd' 0 = point_dist n_i n_f kd_i kd_f (Z.of_nat p) /\
         nth p kv' vzero = point_vec n_i n_f k_i k_f (Z.of_nat p)) /\
      (~ In (Z.of_nat p) js ->
         nth p kd' 0 = nth p kd 0 /\ nth p kv' vzero = nth p kv vzero).
Proof.
  intros Hne. induction 1 as [|j js Hj _ IH]; intros kd kv Hkd Hkv.
  - exists kd, kv. cbn [foldM]. split; [reflexivity|]. split; [exact Hkd|].
    split; [exact Hkv|]. intros p. split; [intros []|auto].
  - cbn [foldM]. unfold point_step at 1.
    replace (n_f - n_i =? 0)%Z with false by (symmetry; apply Z.eqb_neq; lia).
    rewrite !setitem_in_range by (rewrite ?Hkd, ?Hkv; exact Hj). cbn [bind].
    fold (point_dist n_i n_f kd_i kd_f j). fold (point_vec n_i n_f k_i k_f j).
    destruct (IH (upd kd (Z.to_nat j) (point_dist n_i n_f kd_i kd_f j))
                 (upd kv (Z.to_nat j) (point_vec n_i n_f k_i k_f j)))
      as (kd' & kv' & Hrun & Hl1 & Hl2 & Hval); try (now rewrite upd_length).
    exists kd', kv'. split; [exact Hrun|]. split; [exact Hl1|]. split; [exact Hl2|].
    intros p. destruct (Hval p) as [Hin Hout]. split.
    + intros [Heq|Hin'].
      * destruct (in_dec Z.eq_dec (Z.of_nat p) js) as [Hi|Hni]; [now apply Hin|].
        destruct (Hout Hni) as [E1 E2]. rewrite E1, E2. subst j. rewrite Nat2Z.id.
        rewrite !nth_upd_same by lia. now split.
      * now apply Hin.
    + intros Hnot. assert (Hni : ~ In (Z.of_nat p) js) by (intros Hi; apply Hnot; now right).
      destruct (Hout Hni) as [E1 E2]. rewrite E1, E2.
      assert (Z.to_nat j <> p) by (intros <-; apply Hnot; left; lia).
      now rewrite !nth_upd_other.
Qed.

Lemma zrange_In a b j : In j (zrange a b) <-> (a <= j < b)%Z.
Proof.
  unfold zrange. rewrite in_map_iff. split.
  - intros (t & <- & Ht). apply in_seq in Ht. lia.
  - intros Hj. exists (Z.to_nat (j - a)). split; [lia|]. apply in_seq. lia.
Qed.

Lemma segment_loop n_i n_f kd_i kd_f k_i k_f (L : nat) kd kv :
  (0 <= n_i < n_f)%Z -> (n_f < Z.of_nat L)%Z ->
  length kd = L -> length kv = L ->
  exists kd' kv',
    foldM (point_step n_i n_f kd_i kd_f k_i k_f) (zrange n_i (n_f + 1)) (kd, kv)
      = Ok (kd', kv') /\
    length kd' = L /\ length kv' = L /\
    forall p : nat,
      ((n_i <= Z.of_nat p <= n_f)%Z ->
         nth p kd' 0 = point_dist n_i n_f kd_i kd_f (Z.of_nat p) /\
         nth p kv' vzero = point_vec n_i n_f k_i k_f (Z.of_nat p)) /\
      (~ (n_i <= Z.of_nat p <= n_f)%Z ->
         nth p kd' 0 = nth p kd 0 /\ nth p kv' vzero = nth p kv vzero).
Proof.
  intros Hi Hf Hkd Hkv.
  destruct (point_loop n_i n_f kd_i kd_f k_i k_f L (zrange n_i (n_f + 1)))
    with (kd := kd) (kv := kv) as (kd' & kv' & Hrun & Hl1 & Hl2 & Hval); auto.
  - lia.
  - apply Forall_forall. intros j Hj. apply zrange_In in Hj. lia.
  - exists kd', kv'. repeat (split; [assumption|]).
    intros p. destruct (Hval p) as [Hin Hout]. split.
    + intros Hp. apply Hin. apply zrange_In. lia.
    + intros Hp. apply Hout. rewrite zrange_In. lia.
Qed.

Lemma point_dist_start n_i n_f kd_i kd_f : point_dist n_i n_f kd_i kd_f n_i = kd_i.
Proof. unfold point_dist. rewrite Z.sub_diag. unfold Rdiv. ring. Qed.

Lemma point_dist_end n_i n_f kd_i kd_f :
  n_f <> n_i -> point_dist n_i n_f kd_i kd_f n_f = kd_f.
Proof.
  intros Hne. unfold point_dist.
  assert (IZR (n_f - n_i) <> 0) by (apply not_0_IZR; lia). field. assumption.
Qed.

Lemma point_dist_mono n_i n_f kd_i kd_f a b :
  (n_i < n_f)%Z -> kd_i <= kd_f -> (n_i <= a <= b)%Z ->
  point_dist n_i n_f kd_i kd_f a <= point_dist n_i n_f kd_i kd_f b.
Proof.
  intros Hlt Hkd Hab. unfold point_dist.
  assert (Hd : 0 < IZR (n_f - n_i)) by (apply IZR_lt; lia).
  assert (Hn : IZR (a - n_i) <= IZR (b - n_i)) by (apply IZR_le; lia).
  assert (Hq : IZR (a - n_i) / IZR (n_f - n_i) <= IZR (b - n_i) / IZR (n_f - n_i)).
  { unfold Rdiv. apply Rmult_le_compat_r; [|exact Hn].
    left. now apply Rinv_0_lt_compat. }
  nra.
Qed.

Lemma point_vec_start n_i n_f k_i k_f : point_vec n_i n_f k_i k_f n_i = k_i.
Proof.
  unfold point_vec. rewrite Z.sub_diag.
  destruct k_i as [[a b] c], k_f as [[a' b'] c']. unfold Rdiv. simpl.
  f_equal; [f_equal|]; ring.
Qed.

Lemma point_vec_end n_i n_f k_i k_f :
  n_f <> n_i -> point_vec n_i n_f k_i k_f n_f = k_f.
Proof.
  intros Hne. unfold point_vec.
  assert (IZR (n_f - n_i) <> 0) by (apply not_0_IZR; lia).
  destruct k_i as [[a b] c], k_f as [[a' b'] c']. simpl.
  f_equal; [f_equal|]; field; assumption.
Qed.

Section Interpolation.
Variable nodes : list vec3.
Variable k_node : list R.
Variable node_index : list Z.
Variable nk : Z.

Hypothesis Hnodes : (2 <= length nodes)%nat.
Hypothesis Hidx_len : length node_index = length nodes.
Hypothesis Hidx_inc : increasing node_index.
Hypothesis Hidx_first : nth 0 node_index 0%Z = 0%Z.
Hypothesis Hidx_last : nth (length nodes - 1) node_index 0%Z = (nk - 1)%Z.
Hypothesis Hnode_mono : forall a b, (a <= b < length nodes)%nat ->
  nth a k_node 0 <= nth b k_node 0.
Hypothesis Hnode_first : nth 0 k_node 0 = 0.

Lemma index_lower k : (k < length nodes)%nat -> (0 <= nth k node_index 0)%Z.
Proof.
  induction k as [|k IH]; intros Hk.
  - rewrite Hidx_first. lia.
  - assert (nth k node_index 0 < nth (S k) node_index 0)%Z
      by (apply Hidx_inc; lia).
    assert (0 <= nth k node_index 0)%Z by (apply IH; lia). lia.
Qed.

Lemma index_upper k : (k < length nodes)%nat -> (nth k node_index 0 <= nk - 1)%Z.
Proof.
  intros Hk.
  assert (Hgen : forall d, (k + d < length nodes)%nat ->
            (nth k node_index 0 <= nth (k + d) node_index 0)%Z).
  { induction d as [|d IH]; intros Hd.
    - rewrite Nat.add_0_r. lia.
    - replace (k + S d)%nat with (S (k + d)) by lia.
      assert (nth (k + d) node_index 0 < nth (S (k + d)) node_index 0)%Z
        by (apply Hidx_inc; lia).
      assert (nth k node_index 0 <= nth (k + d) node_index 0)%Z by (apply IH; lia).
      lia. }
  rewrite <- Hidx_last.
  replace (length nodes - 1)%nat with (k + (length nodes - 1 - k))%nat by lia.
  apply Hgen. lia.
Qed.

Lemma nk_pos : (1 <= nk)%Z.
Proof.
  assert (0 <= nth (length nodes - 1) node_index 0)%Z by (apply index_lower; lia).
  lia.
Qed.

Lemma segments_run k :
  (k < length nodes)%nat ->
  exists st,
    foldM (segment_step nodes k_node node_index) (seq 1 k) (path_start nodes nk) = Ok st /\
    path_inv nodes k_node node_index (Z.to_nat nk) k st.
Proof.
  pose proof nk_pos as Hnk.
  induction k as [|k IH]; intros Hk.
  - exists (path_start nodes nk). split; [reflexivity|]. unfold path_inv, path_start. cbn [fst snd].
    rewrite Hidx_first. change (Z.to_nat 0) with 0%nat.
    rewrite repeat_length, upd_length, repeat_length.
    repeat split; auto.
    + intros a b Hab. replace a with 0%nat by lia. replace b with 0%nat by lia. lra.
    + now rewrite nth_repeat_any.
    + apply nth_upd_same. rewrite repeat_length. lia.
    + apply nth_upd_same. rewrite repeat_length. lia.
  - destruct IH as ([kd kv] & Hrun & Hinv); [lia|].
    rewrite seq_S, foldM_app, Hrun. cbn [bind foldM plus].
    unfold segment_step. replace (S k - 1)%nat with k by lia.
    set (n_i := nth k node_index 0%Z). set (n_f := nth (S k) node_index 0%Z).
    assert (Hlo : (0 <= n_i)%Z) by (apply index_lower; lia).
    assert (Hlt : (n_i < n_f)%Z) by (apply Hidx_inc; lia).
    assert (Hhi : (n_f <= nk - 1)%Z) by (now apply index_upper).
    unfold path_inv in Hinv. cbn [fst snd] in Hinv. fold n_i in Hinv.
    destruct Hinv as (Hl1 & Hl2 & Hsorted & Hdist & Hv0 & Hvf).
    destruct (segment_loop n_i n_f (nth k k_node 0) (nth (S k) k_node 0)
                (nth k nodes vzero) (nth (S k) nodes vzero) (Z.to_nat nk) kd kv)
      as (kd' & kv' & Hrun' & Hl1' & Hl2' & Hval); try assumption; try lia.
    rewrite Hrun'. cbn [bind].
    exists (kd', kv'). split; [reflexivity|].
    unfold path_inv. cbn [fst snd]. fold n_f.
    assert (Hkd : nth k k_node 0 <= nth (S k) k_node 0) by (apply Hnode_mono; lia).
    split; [exact Hl1'|]. split; [exact Hl2'|].
    assert (Hin : forall p : nat, (Z.to_nat n_i <= p <= Z.to_nat n_f)%nat ->
              (n_i <= Z.of_nat p <= n_f)%Z) by (intros; lia).
    assert (Hout : forall p : nat, (p < Z.to_nat n_i)%nat ->
              ~ (n_i <= Z.of_nat p <= n_f)%Z) by (intros; lia).
    split; [|split; [|split]].
    + intros a b Hab.
      destruct (Nat.lt_ge_cases b (Z.to_nat n_i)) as [Hb|Hb].
      * destruct (Hval a) as [_ Ha]. destruct (Hval b) as [_ Hb'].
        rewrite (proj1 (Ha (Hout a ltac:(lia)))), (proj1 (Hb' (Hout b Hb))).
        apply Hsorted. lia.
      * destruct (Hval b) as [Hb' _].
        rewrite (proj1 (Hb' (Hin b ltac:(lia)))).
        destruct (Nat.lt_ge_cases a (Z.to_nat n_i)) as [Ha|Ha].
        -- destruct (Hval a) as [_ Ha'].
           rewrite (proj1 (Ha' (Hout a Ha))).
           apply Rle_trans with (nth (Z.to_nat n_i) kd 0); [apply Hsorted; lia|].
           rewrite Hdist.
           apply Rle_trans
             with (point_dist n_i n_f (nth k k_node 0) (nth (S k) k_node 0) n_i);
             [rewrite point_dist_start; lra | apply point_dist_mono; [exact Hlt | exact Hkd | lia]].
        -- destruct (Hval a) as [Ha' _].
           rewrite (proj1 (Ha' (Hin a ltac:(lia)))).
           apply point_dist_mono; [exact Hlt | exact Hkd | lia].
    + destruct (Hval (Z.to_nat n_f)) as [Hf _].
      rewrite (proj1 (Hf (Hin (Z.to_nat n_f) ltac:(lia)))), Z2Nat.id by lia.
      apply point_dist_end. lia.
    + destruct (Z.eq_dec n_i 0) as [E0|E0].
      * destruct (Hval 0%nat) as [H0 _].
        rewrite (proj2 (H0 ltac:(lia))). change (Z.of_nat 0) with 0%Z.
        rewrite <- E0, point_vec_start, <- Hvf, E0. exact Hv0.
      * destruct (Hval 0%nat) as [_ H0].
        rewrite (proj2 (H0 ltac:(lia))). exact Hv0.
    + destruct (Hval (Z.to_nat n_f)) as [Hf _].
      rewrite (proj2 (Hf (Hin (Z.to_nat n_f) ltac:(lia)))), Z2Nat.id by lia.
      apply point_vec_end. lia.
Qed.
End Interpolation.

(* ================================================================== *)
(** ** The path as a whole *)

Lemma mapM_length {X Y} (f : X -> result Y) l ys :
  mapM f l = Ok ys -> length ys = length l.
Proof.
  revert ys; induction l as [|x l IH]; intros ys; simpl.
  - now intros [= <-].
  - destruct (f x) as [y|e]; simpl; [|discriminate].
    destruct (mapM f l) as [ys'|e]; simpl; [|discriminate].
    intros [= <-]. simpl. now rewrite (IH ys').
Qed.

Lemma last_as_nth {X} (l : list X) d : last l d = nth (length l - 1) l d.
Proof.
  induction l as [|x l IH]; [reflexivity|].
  destruct l as [|y l]; [reflexivity|].
  change (last (x :: y :: l) d) with (last (y :: l) d). rewrite IH.
  simpl. now rewrite Nat.sub_0_r.
Qed.

Lemma node_indices_shape n k_node nk idx :
  (2 <= n)%nat ->
  node_indices n k_node nk = Ok idx ->
  length idx = n /\ nth 0 idx 0%Z = 0%Z /\ nth (n - 1) idx 0%Z = (nk - 1)%Z.
Proof.
  intros Hn. unfold node_indices.
  destruct (mapM _ _) as [inner|e] eqn:E; simpl; [|discriminate].
  intros [= <-]. apply mapM_length in E. rewrite length_seq in E.
  repeat split.
  - simpl. rewrite length_app. simpl. lia.
  - change (0%Z :: inner ++ [(nk - 1)%Z]) with ((0%Z :: inner) ++ [(nk - 1)%Z]).
    rewrite app_nth2 by (simpl; lia).
    replace (n - 1 - length (0%Z :: inner))%nat with 0%nat by (simpl; lia).
    reflexivity.
Qed.

(** the whole of [k_path] on a node array whose assigned indices are
    strictly increasing: it returns, and the loop invariant holds of the
    returned arrays at the last node *)
Lemma path_runs (m : tb_model) (nodes : list vec3) (nk : Z) (k_metric : mat3)
    (node_index : list Z) :
  inv3 (mat_mul (_lat m) (transpose3 (_lat m))) = Ok k_metric ->
  (2 <= length nodes)%nat ->
  (Z.of_nat (length nodes) <= nk)%Z ->
  node_indices (length nodes) (node_distances k_metric nodes) nk = Ok node_index ->
  increasing node_index ->
  exists k_dist k_vec,
    k_path m (nodes_arg nodes) nk = Ok (k_vec, k_dist, node_distances k_metric nodes) /\
    nth (length nodes - 1) node_index 0%Z = (nk - 1)%Z /\
    path_inv nodes (node_distances k_metric nodes) node_index (Z.to_nat nk)
             (length nodes - 1) (k_dist, k_vec).
Proof.
  intros Hmetric Hlen Hnk Hidx Hinc.
  destruct (node_indices_shape _ _ _ _ Hlen Hidx) as (Hil & Hi0 & Hilast).
  destruct (segments_run nodes (node_distances k_metric nodes) node_index nk
              Hlen Hil Hinc Hi0 Hilast
              (node_distances_mono k_metric nodes)
              (node_distances_0 k_metric nodes)
              (length nodes - 1)) as ([kd kv] & Hrun & Hinv); [lia|].
  exists kd, kv. split; [|split; [exact Hilast|exact Hinv]].
  rewrite k_path_nodes by (intros ->; simpl in Hlen; lia).
  replace (nk <? Z.of_nat (length nodes))%Z with false
    by (symmetry; apply Z.ltb_ge; lia).
  rewrite Hmetric. cbn [bind]. rewrite Hidx. cbn [bind].
  rewrite setitem_in_range by (rewrite repeat_length; lia). cbn [bind].
  change (Z.to_nat 0) with 0%nat. fold (path_start nodes nk).
  rewrite Hrun. reflexivity.
Qed.

(** *** The same with the index computation as a parameter *)

Lemma node_indices_with_shape index_of n k_node nk idx :
  (2 <= n)%nat ->
  node_indices_with index_of n k_node nk = Ok idx ->
  length idx = n /\ nth 0 idx 0%Z = 0%Z /\ nth (n - 1) idx 0%Z = (nk - 1)%Z.
Proof.
  intros Hn. unfold node_indices_with.
  destruct (mapM _ _) as [inner|e] eqn:E; simpl; [|discriminate].
  intros [= <-]. apply mapM_length in E. rewrite length_seq in E.
  repeat split.
  - simpl. rewrite length_app. simpl. lia.
  - change (0%Z :: inner ++ [(nk - 1)%Z]) with ((0%Z :: inner) ++ [(nk - 1)%Z]).
    rewrite app_nth2 by (simpl; lia).
    replace (n - 1 - length (0%Z :: inner))%nat with 0%nat by (simpl; lia).
    reflexivity.
Qed.

(** what [k_path] does once the node array has passed the shape checks *)
Lemma k_path_with_nodes index_of m nodes nk :
  nodes <> [] ->
  k_path_with index_of m (nodes_arg nodes) nk =
  if (nk <? Z.of_nat (length nodes))%Z
  then Raise (Exception "Must have more points in the path than number of nodes.")
  else
    k_metric <- inv3 (mat_mul (_lat m) (transpose3 (_lat m))) ;;
    node_index <- node_indices_with index_of (length nodes)
                    (node_distances k_metric nodes) nk ;;
    k_vec <- setitem (repeat vzero (Z.to_nat nk)) 0 (nth 0 nodes vzero) ;;
    st <- foldM (segment_step nodes (node_distances k_metric nodes) node_index)
                (seq 1 (length nodes - 1)) (repeat 0 (Z.to_nat nk), k_vec) ;;
    Ok (snd st, fst st, node_distances k_metric nodes).
Proof.
  intros Hne. unfold k_path_with, nodes_arg. cbn [k_list_of].
  rewrite (shape2_nodes nodes Hne). cbn [bind length Nat.ltb Nat.leb nth].
  change (negb (3 =? _dim_k)%nat) with false. cbv iota.
  now rewrite as_rows3_nodes.
Qed.

(** [k_path] is [k_path_with] on the index computation on exact reals *)
Lemma k_path_with_exact_index m kpts nk :
  k_path_with exact_index m kpts nk = k_path m kpts nk.
Proof. reflexivity. Qed.

(** the path once the node indices are known and lie in the arrays:
    everything up to the interpolation loops succeeds *)
Lemma k_path_with_segments index_of m nodes nk k_metric node_index :
  inv3 (mat_mul (_lat m) (transpose3 (_lat m))) = Ok k_metric ->
  (1 <= length nodes)%nat ->
  (Z.of_nat (length nodes) <= nk)%Z ->
  node_indices_with index_of (length nodes) (node_distances k_metric nodes) nk
    = Ok node_index ->
  k_path_with index_of m (nodes_arg nodes) nk =
  (st <- foldM (segment_step nodes (node_distances k_metric nodes) node_index)
               (seq 1 (length nodes - 1)) (path_start nodes nk) ;;
   Ok (snd st, fst st, node_distances k_metric nodes)).
Proof.
  intros Hmetric Hlen Hnk Hidx.
  rewrite k_path_with_nodes by (intros ->; simpl in Hlen; lia).
  replace (nk <? Z.of_nat (length nodes))%Z with false
    by (symmetry; apply Z.ltb_ge; lia).
  rewrite Hmetric. cbn [bind]. rewrite Hidx. cbn [bind].
  rewrite setitem_in_range by (rewrite repeat_length; lia). cbn [bind].
  change (Z.to_nat 0) with 0%nat. reflexivity.
Qed.

Lemma path_runs_with index_of (m : tb_model) (nodes : list vec3) (nk : Z)
    (k_metric : mat3) (node_index : list Z) :
  inv3 (mat_mul (_lat m) (transpose3 (_lat m))) = Ok k_metric ->
  (2 <= length nodes)%nat ->
  (Z.of_nat (length nodes) <= nk)%Z ->
  node_indices_with index_of (length nodes) (node_distances k_metric nodes) nk
    = Ok node_index ->
  increasing node_index ->
  exists k_dist k_vec,
    k_path_with index_of m (nodes_arg nodes) nk
      = Ok (k_vec, k_dist, node_distances k_metric nodes) /\
    nth (length nodes - 1) node_index 0%Z = (nk - 1)%Z /\
    path_inv nodes (node_distances k_metric nodes) node_index (Z.to_nat nk)
             (length nodes - 1) (k_dist, k_vec).
Proof.
  intros Hmetric Hlen Hnk Hidx Hinc.
  destruct (node_indices_with_shape _ _ _ _ _ Hlen Hidx) as (Hil & Hi0 & Hilast).
  destruct (segments_run nodes (node_distances k_metric nodes) node_index nk
              Hlen Hil Hinc Hi0 Hilast
              (node_distances_mono k_metric nodes)
              (node_distances_0 k_metric nodes)
              (length nodes - 1)) as ([kd kv] & Hrun & Hinv); [lia|].
  exists kd, kv. split; [|split; [exact Hilast|exact Hinv]].
  rewrite (k_path_with_segments index_of m nodes nk k_metric node_index)
    by (assumption || lia).
  rewrite Hrun. reflexivity.
Qed.

(** C8 (as amended): for at least 2 nodes and totalPoints >= the node
    count, whenever the indices that the code assigns to the nodes are
    strictly increasing (no segment has n_f <= n_i), [k_path] returns
    totalPoints k-vectors, the first equal to nodes[0] and the last to
    nodes[-1], with a non-decreasing accumulated distance.  The indices of
    the interior nodes come from a floating-point computation followed by
    a rounding; the statement holds for every outcome [index_of] of that
    computation. *)
Theorem C8_path_endpoints_and_distances
    (index_of : R -> R -> Z -> result Z)
    (m : tb_model) (nodes : list vec3) (nk : Z) (k_metric : mat3) (node_index : list Z) :
  inv3 (mat_mul (_lat m) (transpose3 (_lat m))) = Ok k_metric ->
  (2 <= length nodes)%nat ->
  (Z.of_nat (length nodes) <= nk)%Z ->
  node_indices_with index_of (length nodes) (node_distances k_metric nodes) nk
    = Ok node_index ->
  increasing node_index ->
  exists k_vec k_dist k_node,
    k_path_with index_of m (nodes_arg nodes) nk = Ok (k_vec, k_dist, k_node) /\
    length k_vec = Z.to_nat nk /\
    length k_dist = Z.to_nat nk /\
    nth 0 k_vec vzero = nth 0 nodes vzero /\
    last k_vec vzero = last nodes vzero /\
    (forall a b, (a <= b < Z.to_nat nk)%nat -> nth a k_dist 0 <= nth b k_dist 0).
Proof.
  intros Hmetric Hlen Hnk Hidx Hinc.
  destruct (path_runs_with index_of m nodes nk k_metric node_index
              Hmetric Hlen Hnk Hidx Hinc)
    as (kd & kv & Hrun & Hilast & Hinv).
  unfold path_inv in Hinv. cbn [fst snd] in Hinv. rewrite Hilast in Hinv.
  destruct Hinv as (Hl1 & Hl2 & Hsorted & _ & Hv0 & Hvlast).
  exists kv, kd, (node_distances k_metric nodes).
  split; [exact Hrun|]. split; [exact Hl2|]. split; [exact Hl1|].
  split; [exact Hv0|]. split.
  - rewrite !last_as_nth, Hl2.
    replace (Z.to_nat nk - 1)%nat with (Z.to_nat (nk - 1)) by lia. exact Hvlast.
  - intros a b Hab. apply Hsorted. lia.
Qed.

(** C8, as stated, fails: the nodes (0,0,0), (0,0,0), (1,0,0) are not all
    coincident, yet with 3 points the first segment gets n_f = n_i = 0 and
    the call raises [ZeroDivisionError]. *)
Lemma C8_repeated_node_raises :
  ~ (forall (m : tb_model) (nodes : list vec3) (nk : Z),
       constructed m ->
       (2 <= length nodes)%nat ->
       (exists a b, In a nodes /\ In b nodes /\ a <> b) ->
       (Z.of_nat (length nodes) <= nk)%Z ->
       exists k_vec k_dist k_node,
         k_path m (nodes_arg nodes) nk = Ok (k_vec, k_dist, k_node) /\
         length k_vec = Z.to_nat nk /\
         nth 0 k_vec vzero = nth 0 nodes vzero /\
         last k_vec vzero = last nodes vzero /\
         (forall a b, (a <= b < Z.to_nat nk)%nat -> nth a k_dist 0 <= nth b k_dist 0)).
Proof.
  intros Hall.
  destruct (Hall (chain_model (1, 0)) [origin3; origin3; unit_x] 3%Z)
    as (kv & kd & kn & Hrun & _).
  - apply chain_constructed.
  - simpl. lia.
  - exists origin3, unit_x. repeat split; simpl; auto.
    unfold origin3, unit_x. intros [= E]. lra.
  - simpl. lia.
  - rewrite path_repeated_node_raises in Hrun. discriminate.
Qed.

(** C10: three coincident nodes with 3 points pass every check of
    [k_path]; the last node distance is 0, so the fraction
    k_node[n]/k_node[-1] is 0/0 and the call raises instead of returning.
    The other division, by n_f - n_i, also meets a zero divisor on input
    that passes the checks: on the nodes (0,0,0), (0,0,0), (1,0,0) the
    first segment has n_f = n_i and the call raises [ZeroDivisionError]. *)
Theorem C10_zero_divisor_reachable :
  exists (m : tb_model) (nodes : list vec3) (nk : Z),
    constructed m /\
    (2 <= length nodes)%nat /\
    (forall a b, In a nodes -> In b nodes -> a = b) /\
    (Z.of_nat (length nodes) <= nk)%Z /\
    (exists k_metric,
       inv3 (mat_mul (_lat m) (transpose3 (_lat m))) = Ok k_metric /\
       last (node_distances k_metric nodes) 0 = 0) /\
    k_path m (nodes_arg nodes) nk = Raise ValueError /\
    k_path m (nodes_arg [origin3; origin3; unit_x]) nk = Raise ZeroDivisionError.
Proof.
  exists (chain_model (1, 0)), [origin3; origin3; origin3], 3%Z.
  split; [|split; [|split; [|split; [|split; [|split]]]]].
  - apply chain_constructed.
  - simpl. lia.
  - intros a b Ha Hb. simpl in Ha, Hb.
    destruct Ha as [<-|[<-|[<-|[]]]]; destruct Hb as [<-|[<-|[<-|[]]]]; reflexivity.
  - simpl. lia.
  - exists identity3. split; [apply identity_metric|].
    rewrite node_distances_3, !dklen_same. cbn [last]. lra.
  - apply path_three_coincident_raises.
  - apply path_repeated_node_raises.
Qed.

(* ================================================================== *)
(** ** The k-space metric of a constructed model *)

Lemma det3_gram (L : mat3) :
  det3 (mat_mul L (transpose3 L)) = det3 L * det3 L.
Proof.
  destruct L as [[[[a11 a12] a13] [[a21 a22] a23]] [[a31 a32] a33]].
  unfold det3, mat_mul, transpose3, vdot. ring.
Qed.

Lemma init_lattice lat orb deg Rvec Hmat nspin m :
  __init__ lat orb deg Rvec Hmat nspin = Ok m ->
  1.0E-6 <= Rabs (det3 (_lat m)) /\ 0 <= det3 (_lat m) /\ length (_orb m) = _norb m.
Proof.
  unfold __init__.
  destruct (shape2 lat) as [ls|e]; cbn [bind]; [|discriminate].
  destruct (negb (shape_eqb ls [_dim_r; _dim_r])); [discriminate|].
  destruct (as_mat3 lat) as [L|]; [|discriminate].
  destruct (Rltb (Rabs (det3 L)) 1.0E-6) eqn:E1; [discriminate|].
  destruct (Rltb (det3 L) 0.0) eqn:E2; [discriminate|].
  destruct (shape2 orb) as [os|e] eqn:Eo; cbn [bind]; [|discriminate].
  repeat match goal with
         | |- (if ?b then Raise _ else _) = _ -> _ => destruct b; [discriminate|]
         end.
  destruct (as_rows3 orb) as [orbs|] eqn:Er; [|discriminate].
  match goal with
  | |- (if ?b then Raise _ else _) = _ -> _ => destruct b; [discriminate|]
  end.
  intros Heq. injection Heq as Heq. subst m. cbn [_lat _orb _norb].
  apply Rltb_false in E1, E2. repeat split; try lra.
  assert (Hlen : forall rows vs, as_rows3 rows = Some vs -> length vs = length rows).
  { induction rows as [|r rows IH]; intros vs; simpl.
    - now intros [= <-].
    - destruct (as_vec3 r); [|discriminate].
      destruct (as_rows3 rows) as [vs'|]; [|discriminate].
      intros [= <-]. simpl. now rewrite (IH vs'). }
  rewrite (Hlen _ _ Er).
  unfold shape2 in Eo. destruct orb as [|r rs].
  - injection Eo as Eo. subst os. reflexivity.
  - destruct (forallb _ rs); [|discriminate]. injection Eo as Eo. subst os. reflexivity.
Qed.

Lemma constructed_metric m :
  constructed m ->
  exists k_metric, inv3 (mat_mul (_lat m) (transpose3 (_lat m))) = Ok k_metric.
Proof.
  intros (lat & orb & deg & Rvec & Hmat & nspin & Hinit).
  destruct (init_lattice _ _ _ _ _ _ _ Hinit) as (Hdet & _ & _).
  unfold inv3. rewrite det3_gram.
  replace (Reqb (det3 (_lat m) * det3 (_lat m)) 0) with false; [eauto|].
  symmetry. apply Reqb_false. intros E.
  apply Rmult_integral in E. assert (det3 (_lat m) = 0) by tauto.
  rewrite H, Rabs_R0 in Hdet. lra.
Qed.

Lemma gram_form (L : mat3) (dk : vec3) :
  vdot dk (mat_vec (adj3 (mat_mul L (transpose3 L))) dk) =
  vdot (mat_vec (adj3 L) dk) (mat_vec (adj3 L) dk).
Proof.
  destruct L as [[[[a11 a12] a13] [[a21 a22] a23]] [[a31 a32] a33]].
  destruct dk as [[x y] z].
  unfold adj3, mat_mul, transpose3, mat_vec, vdot. ring.
Qed.

Lemma form_scale c (A : mat3) (dk : vec3) :
  vdot dk (mat_vec (mat_scale c A) dk) = c * vdot dk (mat_vec A dk).
Proof.
  destruct A as [[[[a11 a12] a13] [[a21 a22] a23]] [[a31 a32] a33]].
  destruct dk as [[x y] z]. unfold mat_scale, mat_vec, vscale, vdot. ring.
Qed.

Lemma vdot_self_nonneg (v : vec3) : 0 <= vdot v v.
Proof. destruct v as [[x y] z]. unfold vdot. nra. Qed.

(** the k-space metric is positive semi-definite, so [np.sqrt] in
    [k_path] never sees a negative number *)
Lemma metric_form_nonneg (L k_metric : mat3) (dk : vec3) :
  inv3 (mat_mul L (transpose3 L)) = Ok k_metric ->
  0 <= vdot dk (mat_vec k_metric dk).
Proof.
  unfold inv3. destruct (Reqb _ 0) eqn:E; [discriminate|].
  intros [= <-]. apply Reqb_false in E.
  rewrite form_scale, gram_form.
  apply Rmult_le_pos; [|apply vdot_self_nonneg].
  rewrite det3_gram in *. left. apply Rinv_0_lt_compat.
  assert (det3 L <> 0) by (intros H0; apply E; rewrite H0; ring). nra.
Qed.

(** two nodes never meet a zero divisor, coincident or not *)
Lemma path_two_nodes m (a b : vec3) (nk : Z) :
  constructed m -> (2 <= nk)%Z ->
  exists k_vec k_dist k_node,
    k_path m (nodes_arg [a; b]) nk = Ok (k_vec, k_dist, k_node) /\
    length k_vec = Z.to_nat nk /\
    nth 0 k_vec vzero = a /\ last k_vec vzero = b.
Proof.
  intros Hm Hnk. destruct (constructed_metric m Hm) as [k_metric Hmetric].
  destruct (path_runs m [a; b] nk k_metric [0%Z; (nk - 1)%Z])
    as (kd & kv & Hrun & _ & Hinv).
  - exact Hmetric.
  - simpl. lia.
  - change (Z.of_nat (length [a; b])) with 2%Z. lia.
  - reflexivity.
  - intros k Hk. simpl in Hk. destruct k as [|k]; [simpl; lia | lia].
  - unfold path_inv in Hinv. cbn [fst snd length Nat.sub nth] in Hinv.
    destruct Hinv as (_ & Hl2 & _ & _ & Hv0 & Hvlast).
    exists kv, kd, (node_distances k_metric [a; b]).
    split; [exact Hrun|]. split; [exact Hl2|]. split; [exact Hv0|].
    rewrite last_as_nth, Hl2.
    replace (Z.to_nat nk - 1)%nat with (Z.to_nat (nk - 1)) by lia. exact Hvlast.
Qed.

(* ================================================================== *)
(** * Further properties *)

(** ** The constructor *)

Lemma as_rows3_length rows vs : as_rows3 rows = Some vs -> length vs = length rows.
Proof.
  revert vs; induction rows as [|r rows IH]; intros vs; simpl.
  - now intros [= <-].
  - destruct (as_vec3 r); [|discriminate].
    destruct (as_rows3 rows) as [vs'|]; [|discriminate].
    intros [= <-]. simpl. now rewrite (IH vs').
Qed.

Lemma as_vec3_length r v : as_vec3 r = Some v -> length r = 3%nat.
Proof. destruct r as [|a [|b [|c [|d r]]]]; simpl; intros; congruence. Qed.

Lemma as_rows3_widths rows vs :
  as_rows3 rows = Some vs -> Forall (fun r => length r = 3%nat) rows.
Proof.
  revert vs; induction rows as [|r rows IH]; intros vs; simpl; [constructor|].
  destruct (as_vec3 r) eqn:E; [|discriminate].
  destruct (as_rows3 rows) as [vs'|]; [|discriminate].
  intros _. constructor; [eapply as_vec3_length; eauto | eapply IH; eauto].
Qed.

Lemma shape2_of_rows3 rows vs :
  as_rows3 rows = Some vs -> rows <> [] -> shape2 rows = Ok [length rows; 3%nat].
Proof.
  intros Hr Hne. pose proof (as_rows3_widths rows vs Hr) as Hw.
  destruct rows as [|r rows]; [congruence|].
  inversion Hw as [|? ? H3 Hrest]; subst. unfold shape2.
  replace (forallb _ rows) with true; [now rewrite H3|].
  symmetry. apply forallb_forall. intros r' Hin.
  rewrite Forall_forall in Hrest. rewrite H3, (Hrest r' Hin). reflexivity.
Qed.

Lemma as_mat3_rows lat L : as_mat3 lat = Some L -> as_rows3 lat <> None /\ length lat = 3%nat.
Proof.
  unfold as_mat3. destruct (as_rows3 lat) as [vs|] eqn:E; [|discriminate].
  destruct vs as [|r1 [|r2 [|r3 [|r4 vs]]]]; try discriminate.
  intros _. split; [discriminate|]. now rewrite <- (as_rows3_length lat _ E).
Qed.

Lemma shape2_of_mat3 lat L : as_mat3 lat = Some L -> shape2 lat = Ok [3%nat; 3%nat].
Proof.
  intros HL. destruct (as_mat3_rows lat L HL) as [Hr Hlen].
  destruct (as_rows3 lat) as [vs|] eqn:E; [|congruence].
  rewrite (shape2_of_rows3 lat vs E), Hlen; [reflexivity|].
  intros ->. discriminate.
Qed.

Lemma shape2_rank2 {X} (rows : list (list X)) sh :
  shape2 rows = Ok sh -> length sh = 2%nat ->
  rows <> [] /\ nth 0 sh 0%nat = length rows.
Proof.
  unfold shape2. destruct rows as [|r rs].
  - intros [= <-]. discriminate.
  - destruct (forallb _ rs); [|discriminate]. intros [= <-] _. split; [discriminate|reflexivity].
Qed.

(** X1: the constructor returns a model exactly for a 3x3 lattice with
    determinant at least 1e-6, a non-empty array of 3-component orbital
    positions and [nspin] 1 or 2; the model stores the lattice, the
    orbitals, their number and the hopping table as given. *)
Theorem init_accepts_iff
    (lat orb : list (list R)) (deg : list Z) (Rvec : list ivec3)
    (Hmat : list (list (Z * Z * C))) (nspin : Z) (m : tb_model) :
  __init__ lat orb deg Rvec Hmat nspin = Ok m <->
  exists L orbs,
    as_mat3 lat = Some L /\ 1.0E-6 <= det3 L /\
    as_rows3 orb = Some orbs /\ orbs <> [] /\
    (nspin = 1 \/ nspin = 2)%Z /\
    m = mk_tb_model L orbs (length orbs) nspin deg Rvec Hmat.
Proof.
  split.
  - unfold __init__.
    destruct (shape2 lat) as [ls|e]; cbn [bind]; [|discriminate].
    destruct (negb (shape_eqb ls [_dim_r; _dim_r])); [discriminate|].
    destruct (as_mat3 lat) as [L|]; [|discriminate].
    destruct (Rltb (Rabs (det3 L)) 1.0E-6) eqn:E1; [discriminate|].
    destruct (Rltb (det3 L) 0.0) eqn:E2; [discriminate|].
    destruct (shape2 orb) as [os|e] eqn:Eo; cbn [bind]; [|discriminate].
    destruct (Nat.eqb (length os) 2) eqn:E3; cbn [negb]; [|discriminate].
    destruct (negb (Nat.eqb (nth 1 os 0%nat) _dim_r)); [discriminate|].
    destruct (as_rows3 orb) as [orbs|] eqn:Er; [|discriminate].
    destruct (Z.eqb nspin 1 || Z.eqb nspin 2) eqn:E4; cbn [negb]; [|discriminate].
    intros Heq. injection Heq as Heq. subst m.
    apply Nat.eqb_eq in E3. destruct (shape2_rank2 orb os Eo E3) as [Hne Hn].
    apply Rltb_false in E1, E2.
    exists L, orbs. split; [reflexivity|]. split.
    { unfold Rabs in E1. destruct (Rcase_abs (det3 L)); lra. }
    split; [reflexivity|]. split.
    { intros ->. apply as_rows3_length in Er. destruct orb; [congruence|discriminate]. }
    split.
    { apply orb_true_iff in E4. rewrite !Z.eqb_eq in E4. exact E4. }
    rewrite Hn, (as_rows3_length orb orbs Er). reflexivity.
  - intros (L & orbs & HL & Hdet & Ho & Hne & Hspin & ->).
    unfold __init__. rewrite (shape2_of_mat3 lat L HL). cbn [bind].
    change (shape_eqb [3%nat; 3%nat] [_dim_r; _dim_r]) with true. cbn [negb].
    rewrite HL.
    replace (Rltb (Rabs (det3 L)) 1.0E-6) with false
      by (symmetry; apply Rltb_false; rewrite Rabs_pos_eq; lra).
    replace (Rltb (det3 L) 0.0) with false by (symmetry; apply Rltb_false; lra).
    assert (Hone : orb <> []).
    { intros ->. simpl in Ho. injection Ho as <-. now apply Hne. }
    rewrite (shape2_of_rows3 orb orbs Ho Hone). cbn [bind length nth Nat.eqb negb _dim_r].
    rewrite Ho.
    replace (Z.eqb nspin 1 || Z.eqb nspin 2) with true
      by (symmetry; apply orb_true_iff; rewrite !Z.eqb_eq; exact Hspin).
    cbn [negb]. now rewrite (as_rows3_length orb orbs Ho).
Qed.

(* ================================================================== *)
(** ** The Hamiltonian builder: indices *)

Lemma py_index_spec n i :
  py_index n i =
  if py_in_range n i then Ok (Z.to_nat (wrap_index n i)) else Raise IndexError.
Proof.
  unfold py_index, py_in_range, wrap_index.
  destruct (Z.leb_spec 0 i), (Z.ltb_spec i (Z.of_nat n)),
           (Z.leb_spec (- Z.of_nat n) i), (Z.ltb_spec i 0); cbn [andb]; try lia;
    try reflexivity.
  - now rewrite Z.mod_small by lia.
  - f_equal. f_equal.
    rewrite <- (Z.mod_add i 1 (Z.of_nat n)) by lia.
    rewrite Z.mod_small by lia. lia.
Qed.

Lemma wrap_index_range n i :
  py_in_range n i = true -> (0 <= wrap_index n i < Z.of_nat n)%Z.
Proof.
  unfold py_in_range, wrap_index. rewrite andb_true_iff, Z.leb_le, Z.ltb_lt.
  intros [Hlo Hhi]. apply Z.mod_pos_bound. lia.
Qed.

Lemma wrap_index_idem n i : wrap_index n (wrap_index n i) = wrap_index n i.
Proof. unfold wrap_index. apply Zmod_mod. Qed.

Lemma wrap_in_range n i : py_in_range n i = true -> py_in_range n (wrap_index n i) = true.
Proof.
  intros H. apply wrap_index_range in H. unfold py_in_range.
  apply andb_true_iff. rewrite Z.leb_le, Z.ltb_lt. lia.
Qed.

(** what one pass of the loop body does, in or out of range *)
Lemma hop_step_cases m k deg vecR ham i j amp :
  length (_orb m) = _norb m ->
  hop_step m k deg vecR ham (i, j, amp) =
  if py_in_range (_norb m) i && py_in_range (_norb m) j
  then
    let wi := wrap_index (_norb m) i in
    let wj := wrap_index (_norb m) j in
    Ok (set2 ham (Z.to_nat wi) (Z.to_nat wj)
          (Cadd (get2 ham (Z.to_nat wi) (Z.to_nat wj))
                (bloch_term m k (deg, vecR, (wi, wj, amp)))))
  else Raise IndexError.
Proof.
  intros Hlen. unfold hop_step. rewrite Hlen, !py_index_spec.
  destruct (py_in_range (_norb m) i); cbn [bind andb]; [|reflexivity].
  destruct (py_in_range (_norb m) j); cbn [bind]; [|reflexivity].
  rewrite phase_expi2pi, code_displacement, Cmul_Cdivr. reflexivity.
Qed.

Lemma hop_loop_returns_iff m k (hs : list hop) :
  length (_orb m) = _norb m ->
  forall ham, is_square (_norb m) ham ->
  if forallb (hop_in_range (_norb m)) hs
  then exists H,
         foldM (fun h '(deg, vecR, e) => hop_step m k deg vecR h e) hs ham = Ok H /\
         is_square (_norb m) H
  else foldM (fun h '(deg, vecR, e) => hop_step m k deg vecR h e) hs ham = Raise IndexError.
Proof.
  intros Hlen. induction hs as [|[[deg vecR] [[i j] amp]] hs IH]; intros ham Hsq.
  - cbn. eauto.
  - cbn [forallb foldM]. rewrite (hop_step_cases m k deg vecR ham i j amp Hlen).
    change (hop_in_range (_norb m) (deg, vecR, (i, j, amp)))
      with (py_in_range (_norb m) i && py_in_range (_norb m) j).
    destruct (py_in_range (_norb m) i && py_in_range (_norb m) j); cbn [bind andb];
      [|reflexivity].
    apply IH. now apply set2_square.
Qed.

(** X2: on a model whose orbital count matches its orbital array,
    [_gen_ham] returns a square matrix when every orbital index of the
    table lies in [-N, N), and raises [IndexError] as soon as one does
    not. *)
Theorem gen_ham_returns_iff (m : tb_model) (k : vec3) :
  length (_orb m) = _norb m ->
  (forallb (hop_in_range (_norb m)) (hops m) = true ->
     exists H, _gen_ham m (Some k) = Ok H /\ is_square (_norb m) H) /\
  (forallb (hop_in_range (_norb m)) (hops m) = false ->
     _gen_ham m (Some k) = Raise IndexError).
Proof.
  intros Hlen.
  pose proof (hop_loop_returns_iff m k (hops m) Hlen _ (np_zeros2_square (_norb m))) as H.
  unfold _gen_ham. rewrite gen_ham_flat. fold (hops m).
  split; intros E; rewrite E in H; exact H.
Qed.

Lemma zip3_map_third {X Y Z' W} (g : Z' -> W) (a : list X) (b : list Y) (c : list Z') :
  zip3 a b (map g c) = map (fun '(x, y, z) => (x, y, g z)) (zip3 a b c).
Proof.
  revert b c; induction a as [|x a IH]; intros [|y b] [|z c]; simpl; auto.
  now rewrite IH.
Qed.

Lemma foldM_map {X Y B} (f : B -> Y -> result B) (g : X -> Y) l b :
  foldM f (map g l) b = foldM (fun b a => f b (g a)) l b.
Proof.
  revert b; induction l as [|a l IH]; intros b; simpl; auto.
  destruct (f b (g a)); simpl; auto.
Qed.

Lemma hops_shell m s h : In s (shells m) -> In h (shell_hops s) -> In h (hops m).
Proof. intros Hs Hh. unfold hops. apply in_flat_map. eauto. Qed.

Lemma bloch_term_orb m m' k h : _orb m' = _orb m -> bloch_term m' k h = bloch_term m k h.
Proof.
  intros Ho. destruct h as [[deg vecR] [[i j] amp]].
  unfold bloch_term, displacement, orb_at. now rewrite Ho.
Qed.

Lemma hop_step_wrapped m k deg vecR ham e :
  length (_orb m) = _norb m ->
  hop_in_range (_norb m) (deg, vecR, e) = true ->
  hop_step (wrap_indices m) k deg vecR ham (wrap_element (_norb m) e) =
  hop_step m k deg vecR ham e.
Proof.
  intros Hlen Hin. destruct e as [[i j] amp]. cbn [wrap_element].
  cbn [hop_in_range] in Hin. apply andb_true_iff in Hin. destruct Hin as [Hi Hj].
  rewrite (hop_step_cases (wrap_indices m)) by exact Hlen.
  rewrite (hop_step_cases m) by exact Hlen.
  change (_norb (wrap_indices m)) with (_norb m).
  rewrite (wrap_in_range _ _ Hi), (wrap_in_range _ _ Hj), Hi, Hj. cbn [andb].
  cbv zeta. rewrite !wrap_index_idem.
  now rewrite (bloch_term_orb m (wrap_indices m)).
Qed.

(** X3: an orbital index in [-N, 0) counts from the end, as Python
    indexing does: when all indices lie in [-N, N) (and no degeneracy
    weight is zero), [_gen_ham] gives on the table as written what it
    gives on the table with every index i replaced by i mod N, whose
    indices are 0-based. *)
Theorem gen_ham_negative_indices_wrap (m : tb_model) (k : vec3) :
  length (_orb m) = _norb m ->
  Forall (fun h : hop => fst (fst h) <> 0%Z) (hops m) ->
  forallb (hop_in_range (_norb m)) (hops m) = true ->
  _gen_ham m (Some k) = _gen_ham (wrap_indices m) (Some k) /\
  Forall (fun h : hop =>
            let '(_, _, (i, j, _)) := h in
            (0 <= i < Z.of_nat (_norb m))%Z /\ (0 <= j < Z.of_nat (_norb m))%Z)
         (hops (wrap_indices m)).
Proof.
  intros Hlen _ Hall. rewrite forallb_forall in Hall.
  assert (Hshells : shells (wrap_indices m) =
            map (fun '(d, r, h) => (d, r, map (wrap_element (_norb m)) h)) (shells m)).
  { unfold shells, wrap_indices. cbn [deg_ws Rvec_list Hmat_list]. apply zip3_map_third. }
  split.
  - unfold _gen_ham. change (_norb (wrap_indices m)) with (_norb m).
    fold (shells m). fold (shells (wrap_indices m)). rewrite Hshells, foldM_map.
    symmetry. apply foldM_ext_in.
    intros [[deg vecR] ham1] Hs ham. cbn [shell_step]. rewrite foldM_map.
    apply foldM_ext_in. intros e He ham'.
    apply hop_step_wrapped; [exact Hlen|].
    apply Hall. apply (hops_shell m (deg, vecR, ham1)); [exact Hs|].
    cbn [shell_hops]. now apply in_map.
  - apply Forall_forall. intros h Hh. unfold hops in Hh. rewrite Hshells in Hh.
    apply in_flat_map in Hh. destruct Hh as (s & Hs & Hh).
    apply in_map_iff in Hs. destruct Hs as ([[deg vecR] ham1] & <- & Hs).
    cbn [shell_hops] in Hh. apply in_map_iff in Hh. destruct Hh as (e & <- & He).
    apply in_map_iff in He. destruct He as ([[i j] amp] & <- & He).
    cbn [wrap_element].
    assert (Hin : hop_in_range (_norb m) (deg, vecR, (i, j, amp)) = true).
    { apply Hall. apply (hops_shell m (deg, vecR, ham1)); [exact Hs|].
      cbn [shell_hops]. now apply in_map. }
    cbn [hop_in_range] in Hin. apply andb_true_iff in Hin. destruct Hin as [Hi Hj].
    split; now apply wrap_index_range.
Qed.

(* ================================================================== *)
(** ** The Hamiltonian builder: the table as a whole *)

Lemma square_ext n (a b : matrix) :
  is_square n a -> is_square n b ->
  (forall i j, (i < n)%nat -> (j < n)%nat -> get2 a i j = get2 b i j) ->
  a = b.
Proof.
  intros Ha Hb Hget. apply nth_ext with (d := []) (d' := []).
  - destruct Ha as [-> _], Hb as [-> _]. reflexivity.
  - intros i Hi. assert (Hi' : (i < n)%nat) by (destruct Ha as [<- _]; exact Hi).
    apply nth_ext with (d := C0) (d' := C0).
    + now rewrite (square_row n a i Ha Hi'), (square_row n b i Hb Hi').
    + intros j Hj. rewrite (square_row n a i Ha Hi') in Hj. now apply Hget.
Qed.

Lemma bloch_sum_change m m' k i j :
  _orb m' = _orb m ->
  bloch_sum m' k i j = Csum (map (bloch_term m k) (filter (hop_at i j) (hops m'))).
Proof.
  intros Ho. unfold bloch_sum. f_equal. apply map_ext. intros h. now apply bloch_term_orb.
Qed.

Lemma forallb_perm {X} (f : X -> bool) l l' :
  Permutation l l' -> forallb f l = forallb f l'.
Proof.
  induction 1; simpl; auto.
  - now rewrite IHPermutation.
  - destruct (f x), (f y); reflexivity.
  - congruence.
Qed.

(** X4: the order in which the entries of the table are listed does not
    matter: two well-formed models on the same orbitals whose tables hold
    the same entries, each as often, have the same Hamiltonian at every k. *)
Theorem gen_ham_order_independent (m m' : tb_model) (k : vec3) :
  model_okb m = true ->
  _orb m' = _orb m -> _norb m' = _norb m ->
  Permutation (hops m) (hops m') ->
  _gen_ham m' (Some k) = _gen_ham m (Some k).
Proof.
  intros Hok Ho Hn Hperm.
  assert (Hok' : model_okb m' = true).
  { unfold model_okb in *. rewrite Ho, Hn, <- (forallb_perm _ _ _ Hperm). exact Hok. }
  destruct (gen_ham_entries m k Hok) as (H & Hrun & Hsq & Hent).
  destruct (gen_ham_entries m' k Hok') as (H' & Hrun' & Hsq' & Hent').
  rewrite Hrun, Hrun'. f_equal. rewrite Hn in *.
  apply (square_ext (_norb m)); auto.
  intros i j Hi Hj. rewrite (Hent i j Hi Hj), (Hent' i j Hi Hj).
  rewrite (bloch_sum_change m m' k i j Ho). unfold bloch_sum.
  apply Csum_perm, Permutation_map, Permutation_filter_compat. now symmetry.
Qed.

Lemma zip3_app {X Y Z'} (a a' : list X) (b b' : list Y) (c c' : list Z') :
  length a = length b -> length b = length c ->
  zip3 (a ++ a') (b ++ b') (c ++ c') = zip3 a b c ++ zip3 a' b' c'.
Proof.
  revert b c; induction a as [|x a IH]; intros [|y b] [|z c]; simpl; intros H1 H2;
    try discriminate; auto.
  rewrite IH by lia. reflexivity.
Qed.

Lemma hops_join m1 m2 :
  table_aligned m1 -> hops (join_tables m1 m2) = hops m1 ++ hops m2.
Proof.
  intros [H1 H2]. unfold hops, shells, join_tables. cbn [deg_ws Rvec_list Hmat_list].
  rewrite zip3_app by assumption. apply flat_map_app.
Qed.

(** X5: the Hamiltonian is additive in the table: on the same orbitals,
    the matrix built from the table of [m1] followed by that of [m2] is
    the entry-wise sum of the two matrices. *)
Theorem gen_ham_additive (m1 m2 : tb_model) (k : vec3) :
  model_okb m1 = true -> model_okb m2 = true ->
  _orb m2 = _orb m1 -> _norb m2 = _norb m1 ->
  table_aligned m1 ->
  exists H1 H2 H12,
    _gen_ham m1 (Some k) = Ok H1 /\
    _gen_ham m2 (Some k) = Ok H2 /\
    _gen_ham (join_tables m1 m2) (Some k) = Ok H12 /\
    forall i j, (i < _norb m1)%nat -> (j < _norb m1)%nat ->
      get2 H12 i j = Cadd (get2 H1 i j) (get2 H2 i j).
Proof.
  intros Hok1 Hok2 Ho Hn Hal.
  assert (Hok : model_okb (join_tables m1 m2) = true).
  { unfold model_okb in *. rewrite (hops_join m1 m2 Hal), forallb_app.
    change (_orb (join_tables m1 m2)) with (_orb m1).
    change (_norb (join_tables m1 m2)) with (_norb m1).
    rewrite Ho, Hn in Hok2.
    apply andb_true_iff in Hok1, Hok2. destruct Hok1 as [E1 F1], Hok2 as [_ F2].
    now rewrite E1, F1, F2. }
  destruct (gen_ham_entries m1 k Hok1) as (H1 & Hrun1 & _ & Hent1).
  destruct (gen_ham_entries m2 k Hok2) as (H2 & Hrun2 & _ & Hent2).
  destruct (gen_ham_entries _ k Hok) as (H12 & Hrun12 & _ & Hent12).
  exists H1, H2, H12. repeat split; auto.
  intros i j Hi Hj.
  rewrite (Hent1 i j Hi Hj), (Hent2 i j) by (rewrite Hn; assumption).
  rewrite (Hent12 i j Hi Hj).
  rewrite (bloch_sum_change m1 (join_tables m1 m2) k i j eq_refl).
  rewrite (bloch_sum_change m1 m2 k i j Ho).
  rewrite (hops_join m1 m2 Hal), filter_app, map_app, Csum_app. reflexivity.
Qed.

Lemma vdot_vneg_l k d : vdot (vneg k) d = - vdot k d.
Proof. destruct k as [[k1 k2] k3], d as [[d1 d2] d3]. simpl. ring. Qed.

Lemma bloch_term_reversed m k h :
  Im (snd (snd h)) = 0 -> bloch_term m (vneg k) h = Cconj (bloch_term m k h).
Proof.
  destruct h as [[deg vecR] [[i j] [re im]]]. cbn [snd Im]. intros ->.
  unfold bloch_term. rewrite vdot_vneg_l, expi2pi_opp.
  apply C_eq; Csimpl; unfold Rdiv; ring.
Qed.

(** X6: with real hopping amplitudes the Hamiltonian at -k is the
    entry-wise complex conjugate of the Hamiltonian at k. *)
Theorem gen_ham_time_reversal (m : tb_model) (k : vec3) :
  model_okb m = true -> real_amplitudes m ->
  exists H H',
    _gen_ham m (Some k) = Ok H /\
    _gen_ham m (Some (vneg k)) = Ok H' /\
    forall i j, (i < _norb m)%nat -> (j < _norb m)%nat ->
      get2 H' i j = Cconj (get2 H i j).
Proof.
  intros Hok Hreal.
  destruct (gen_ham_entries m k Hok) as (H & Hrun & _ & Hent).
  destruct (gen_ham_entries m (vneg k) Hok) as (H' & Hrun' & _ & Hent').
  exists H, H'. repeat split; auto.
  intros i j Hi Hj. rewrite (Hent i j Hi Hj), (Hent' i j Hi Hj).
  unfold bloch_sum. rewrite Cconj_sum, map_map. f_equal.
  apply map_ext_in. intros h Hh. apply bloch_term_reversed.
  apply filter_In in Hh. unfold real_amplitudes in Hreal.
  rewrite Forall_forall in Hreal. apply Hreal, Hh.
Qed.

(* ================================================================== *)
(** ** The eigensolver wrapper *)

Lemma sol_ham_ok_or_not_hermitian eigvalsh eigh n ham flag :
  is_square n ham -> (0 < n)%nat ->
  (exists s, _sol_ham eigvalsh eigh ham flag = Ok s) \/
  _sol_ham eigvalsh eigh ham flag = Raise (Exception not_hermitian_msg).
Proof.
  intros Hsq Hn.
  assert (HD : is_square n (msub ham (mconj (transpose ham))))
    by (apply msub_square; [exact Hsq|apply mconj_square, transpose_square, Hsq]).
  assert (Hne : concat (msub ham (mconj (transpose ham))) <> []).
  { intros E.
    assert (Hin : In (get2 (msub ham (mconj (transpose ham))) 0 0)
                     (concat (msub ham (mconj (transpose ham)))))
      by (apply (square_entries n _ _ HD); exists 0%nat, 0%nat; auto).
    rewrite E in Hin. exact Hin. }
  unfold _sol_ham.
  destruct (concat (msub ham (mconj (transpose ham)))) as [|x xs]; [congruence|].
  cbn [np_max bind].
  destruct (Cgt _ _); [now right|left].
  destruct (negb flag); [eauto|]. destruct (eigh ham). eauto.
Qed.

(** X7: on a square matrix with at least one row, [_sol_ham] has two
    outcomes only.  It raises its "not hermitian" exception when for some
    entry Re(H[i,j]) - Re(H[j,i]) exceeds 1e-9 (or equals 1e-9 while
    Im(H[i,j]) + Im(H[j,i]) is positive), and it returns a solution
    otherwise. *)
Theorem sol_ham_outcome
    (eigvalsh : matrix -> list C) (eigh : matrix -> list C * matrix)
    (n : nat) (ham : matrix) (flag : bool) :
  is_square n ham -> (0 < n)%nat ->
  ((exists i j, (i < n)%nat /\ (j < n)%nat /\ check_objects ham i j) ->
     _sol_ham eigvalsh eigh ham flag = Raise (Exception not_hermitian_msg)) /\
  (~ (exists i j, (i < n)%nat /\ (j < n)%nat /\ check_objects ham i j) ->
     exists s, _sol_ham eigvalsh eigh ham flag = Ok s).
Proof.
  intros Hsq Hn.
  pose proof (sol_ham_check_decides eigvalsh eigh n ham flag Hsq Hn) as Hdec.
  assert (Hsame : forall i j,
            (let d := Csub (get2 ham i j) (Cconj (get2 ham j i)) in
             1.0E-9 < Re d \/ (Re d = 1.0E-9 /\ 0 < Im d)) <-> check_objects ham i j).
  { intros i j. unfold check_objects, Csub, Cconj, Re, Im; simpl.
    split; intros [H|[H1 H2]]; [left|right|left|right]; try split; lra. }
  split.
  - intros (i & j & Hi & Hj & Hobj). apply Hdec. exists i, j.
    repeat split; auto. now apply Hsame.
  - intros Hnone.
    destruct (sol_ham_ok_or_not_hermitian eigvalsh eigh n ham flag Hsq Hn) as [Hok|Hraise];
      [exact Hok|].
    exfalso. apply Hnone. apply Hdec in Hraise.
    destruct Hraise as (i & j & Hi & Hj & Hd). exists i, j.
    repeat split; auto. now apply Hsame.
Qed.

Lemma hermitian_passes_check n ham :
  is_square n ham -> (0 < n)%nat -> hermitian n ham ->
  exists mx, np_max (concat (msub ham (mconj (transpose ham)))) = Ok mx /\
             Cgt mx (RtoC 1.0E-9) = false.
Proof.
  intros Hsq Hn Hh.
  set (D := msub ham (mconj (transpose ham))).
  assert (HD : is_square n D)
    by (apply msub_square; [exact Hsq|apply mconj_square, transpose_square, Hsq]).
  assert (Hne : concat D <> []).
  { intros E. assert (Hin : In (get2 D 0 0) (concat D))
      by (apply (square_entries n D _ HD); exists 0%nat, 0%nat; auto).
    rewrite E in Hin. exact Hin. }
  destruct (np_max_exceeds (concat D) (RtoC 1.0E-9) Hne) as (mx & Hmax & Hiff).
  exists mx. split; [exact Hmax|].
  destruct (Cgt mx (RtoC 1.0E-9)) eqn:E; [|reflexivity].
  exfalso. destruct (proj1 Hiff eq_refl) as (x & Hx & Hgt).
  apply (square_entries n D x HD) in Hx. destruct Hx as (i & j & Hi & Hj & ->).
  unfold D in Hgt.
  rewrite (msub_get n), (mconj_get n), (transpose_get n) in Hgt; auto.
  - rewrite <- (Hh i j Hi Hj) in Hgt. apply Cgt_spec in Hgt.
    unfold Csub, RtoC, Re, Im in Hgt; simpl in Hgt. lra.
  - now apply transpose_square.
  - now apply mconj_square, transpose_square.
Qed.

(** X8: a matrix that is exactly Hermitian is never rejected, and the
    eigensolver is given that very matrix: the result is the solver's
    output on [ham], passed through [_nicefy_eig]. *)
Theorem sol_ham_accepts_hermitian
    (eigvalsh : matrix -> list C) (eigh : matrix -> list C * matrix)
    (n : nat) (ham : matrix) :
  is_square n ham -> (0 < n)%nat -> hermitian n ham ->
  _sol_ham eigvalsh eigh ham false =
    Ok (Evals (solution_evals (_nicefy_eig (eigvalsh ham) None))) /\
  _sol_ham eigvalsh eigh ham true =
    Ok (_nicefy_eig (fst (eigh ham)) (Some (snd (eigh ham)))).
Proof.
  intros Hsq Hn Hh.
  destruct (hermitian_passes_check n ham Hsq Hn Hh) as (mx & Hmax & Hgt).
  unfold _sol_ham. rewrite Hmax. cbn [bind]. rewrite Hgt. cbn [negb].
  split; [reflexivity|]. now destruct (eigh ham).
Qed.

Lemma combine_take {X Y} (dx : X) (dy : Y) (a : list X) (b : list Y) (args : list nat) :
  combine (take dx a args) (take dy b args) =
  map (fun i => (nth i a dx, nth i b dy)) args.
Proof. unfold take. induction args as [|i args IH]; simpl; auto. now rewrite IH. Qed.

Lemma combine_as_map {X Y} (dx : X) (dy : Y) (a : list X) (b : list Y) :
  length a = length b ->
  combine a b = map (fun i => (nth i a dx, nth i b dy)) (seq 0 (length a)).
Proof.
  intros Hlen. rewrite <- (combine_take dx dy a b).
  rewrite take_all. rewrite Hlen, take_all. reflexivity.
Qed.

(** X9: [_nicefy_eig] keeps each eigenvalue with its row of [eig]: the
    returned pairs (eigenvalue, row) are the pairs that came in, in
    ascending order of the eigenvalue. *)
Theorem nicefy_keeps_pairs (eval : list C) (eig : matrix) :
  length eig = length eval ->
  exists E V,
    _nicefy_eig eval (Some eig) = EvalsVecs E V /\
    StronglySorted Rle E /\
    length V = length E /\
    Permutation (combine (map Re eval) eig) (combine E V).
Proof.
  intros Hlen. unfold _nicefy_eig.
  eexists; eexists. split; [reflexivity|]. split; [apply take_argsort_sorted|]. split.
  - unfold take. now rewrite !length_map.
  - rewrite (combine_take 0 []).
    rewrite (combine_as_map 0 [] (map Re eval) eig) by (now rewrite length_map).
    apply Permutation_map, argsort_perm.
Qed.

(* ================================================================== *)
(** ** The k-mesh generator *)

Lemma shape_eqb_spec s1 s2 : shape_eqb s1 s2 = true <-> s1 = s2.
Proof.
  unfold shape_eqb. destruct (list_eq_dec Nat.eq_dec s1 s2); split; auto; discriminate.
Qed.

Lemma length3 {X} (l : list X) : length l = 3%nat -> exists a b c, l = [a; b; c].
Proof.
  destruct l as [|a [|b [|c [|d l]]]]; try discriminate. intros _. eauto.
Qed.

(** X10: [k_uniform_mesh] returns a mesh exactly for three positive
    sizes.  Another number of sizes raises the "incorrect size"
    exception, and three sizes of which one is zero or negative raise
    the "positive non-zero" exception. *)
Theorem mesh_accepts_iff (m : tb_model) (mesh_size : list Z) :
  ((exists K, k_uniform_mesh m mesh_size = Ok K) <->
   length mesh_size = 3%nat /\ Forall (fun n => (0 < n)%Z) mesh_size) /\
  (length mesh_size <> 3%nat ->
   k_uniform_mesh m mesh_size =
   Raise (Exception "Incorrect size of the specified k-mesh!")) /\
  (length mesh_size = 3%nat -> Exists (fun n => (n <= 0)%Z) mesh_size ->
   k_uniform_mesh m mesh_size =
   Raise (Exception "Mesh must have positive non-zero number of elements.")).
Proof.
  assert (Hsize : length mesh_size <> 3%nat ->
            k_uniform_mesh m mesh_size =
            Raise (Exception "Incorrect size of the specified k-mesh!")).
  { intros Hne. unfold k_uniform_mesh.
    replace (shape_eqb [length mesh_size] [_dim_k]) with false; [reflexivity|].
    symmetry. destruct (shape_eqb _ _) eqn:E; [|reflexivity].
    apply shape_eqb_spec in E. injection E as E. now elim Hne. }
  assert (Hpos : length mesh_size = 3%nat -> Exists (fun n => (n <= 0)%Z) mesh_size ->
            k_uniform_mesh m mesh_size =
            Raise (Exception "Mesh must have positive non-zero number of elements.")).
  { intros Hlen Hex. destruct (length3 mesh_size Hlen) as (a & b & c & ->).
    unfold k_uniform_mesh. change (shape_eqb [length [a; b; c]] [_dim_k]) with true.
    cbn [negb np_min fold_left bind].
    replace (Z.min (Z.min a b) c <=? 0)%Z with true; [reflexivity|].
    symmetry. apply Z.leb_le.
    repeat match goal with
           | H : Exists _ _ |- _ => inversion H; clear H; subst
           end; lia. }
  split; [|split; assumption].
  split.
  - intros [K HK].
    destruct (Nat.eq_dec (length mesh_size) 3) as [Hlen|Hlen];
      [|rewrite (Hsize Hlen) in HK; discriminate].
    split; [exact Hlen|].
    destruct (length3 mesh_size Hlen) as (a & b & c & ->).
    destruct (Z_lt_le_dec 0 a) as [Ha|Ha];
      [|rewrite Hpos in HK; [discriminate|reflexivity|now constructor]].
    destruct (Z_lt_le_dec 0 b) as [Hb|Hb];
      [|rewrite Hpos in HK; [discriminate|reflexivity|now constructor; constructor]].
    destruct (Z_lt_le_dec 0 c) as [Hc|Hc];
      [|rewrite Hpos in HK; [discriminate|reflexivity|
                             now constructor; constructor; constructor]].
    repeat constructor; assumption.
  - intros [Hlen Hall]. destruct (length3 mesh_size Hlen) as (a & b & c & ->).
    inversion Hall as [|? ? Ha Hall']; subst.
    inversion Hall' as [|? ? Hb Hall'']; subst.
    inversion Hall'' as [|? ? Hc _]; subst.
    eexists. now apply mesh_run.
Qed.

Lemma INR_over_pos_inj (i i' : nat) (n : Z) :
  (0 < n)%Z -> INR i / IZR n = INR i' / IZR n -> i = i'.
Proof.
  intros Hn E. assert (Hn' : 0 < IZR n) by (now apply IZR_lt).
  apply INR_eq. apply (Rmult_eq_reg_r (/ IZR n)); [exact E|].
  apply Rinv_neq_0_compat. lra.
Qed.

(** X11: the points of a mesh are pairwise distinct. *)
Theorem mesh_points_distinct (m : tb_model) (n1 n2 n3 : Z) (K : ndarray R) (p q : nat) :
  (0 < n1)%Z -> (0 < n2)%Z -> (0 < n3)%Z ->
  k_uniform_mesh m [n1; n2; n3] = Ok K ->
  (p < Z.to_nat n1 * Z.to_nat n2 * Z.to_nat n3)%nat ->
  (q < Z.to_nat n1 * Z.to_nat n2 * Z.to_nat n3)%nat ->
  nd_row K p = nd_row K q -> p = q.
Proof.
  intros H1 H2 H3 Hrun Hp Hq Hrow.
  rewrite (mesh_run m n1 n2 n3 H1 H2 H3) in Hrun. injection Hrun as <-.
  destruct (mesh_index_split _ _ _ p Hp) as (i1 & i2 & i3 & B1 & B2 & B3 & ->).
  destruct (mesh_index_split _ _ _ q Hq) as (j1 & j2 & j3 & D1 & D2 & D3 & ->).
  unfold nd_row in Hrow.
  rewrite !mesh_get in Hrow by (assumption || lia).
  cbn [nth] in Hrow. injection Hrow as E1 E2 E3.
  apply INR_over_pos_inj in E1, E2, E3; try assumption. now subst.
Qed.

(* ================================================================== *)
(** ** The k-path interpolator: what it refuses *)

Lemma shape2_rectangular {X} (rows : list (list X)) c :
  rows <> [] -> Forall (fun r => length r = c) rows ->
  shape2 rows = Ok [length rows; c].
Proof.
  intros Hne Hall. destruct rows as [|r rows]; [congruence|].
  inversion Hall as [|? ? Hr Hrest]; subst. unfold shape2.
  replace (forallb _ rows) with true; [reflexivity|].
  symmetry. apply forallb_forall. intros r' Hin.
  rewrite Forall_forall in Hrest. rewrite (Hrest r' Hin). apply Nat.eqb_refl.
Qed.

(** X12: [k_path] refuses a node array that is not n x 3 before it looks
    at [nk]: an empty list raises [IndexError], and rows of a common
    width other than 3 raise the dimension exception; so does each of the
    1D presets "full", "fullc" and "half", whose nodes have one
    component. *)
Theorem k_path_rejects_malformed (m : tb_model) (nk : Z) :
  k_path m (KArray []) nk = Raise IndexError /\
  (forall rows c, rows <> [] -> Forall (fun r => length r = c) rows -> c <> 3%nat ->
     k_path m (KArray rows) nk = Raise (Exception "k-space dimensions do not match")) /\
  k_path m KFull nk = Raise (Exception "k-space dimensions do not match") /\
  k_path m KFullc nk = Raise (Exception "k-space dimensions do not match") /\
  k_path m KHalf nk = Raise (Exception "k-space dimensions do not match").
Proof.
  split; [reflexivity|]. split; [|repeat split; reflexivity].
  intros rows c Hne Hall Hc. unfold k_path. cbn [k_list_of].
  rewrite (shape2_rectangular rows c Hne Hall). cbn [bind length Nat.ltb Nat.leb nth].
  replace (Nat.eqb c _dim_k) with false; [reflexivity|].
  symmetry. now apply Nat.eqb_neq.
Qed.

(* ================================================================== *)
(** ** The k-space metric *)

Lemma adj3_mul (L : mat3) (v : vec3) :
  mat_vec L (mat_vec (adj3 L) v) = vscale (det3 L) v.
Proof.
  destruct L as [[[[a11 a12] a13] [[a21 a22] a23]] [[a31 a32] a33]].
  destruct v as [[x y] z].
  unfold mat_vec, adj3, vdot, vscale, det3. f_equal; [f_equal|]; ring.
Qed.

Lemma vdot_self_zero (v : vec3) : vdot v v = 0 -> v = vzero.
Proof.
  destruct v as [[x y] z]. unfold vdot, vzero. intros E.
  assert (x = 0 /\ y = 0 /\ z = 0) as (-> & -> & ->); [|reflexivity].
  pose proof (Rle_0_sqr x). pose proof (Rle_0_sqr y). pose proof (Rle_0_sqr z).
  unfold Rsqr in *.
  assert (x * x = 0) by lra. assert (y * y = 0) by lra. assert (z * z = 0) by lra.
  repeat split; apply Rsqr_0_uniq; assumption.
Qed.

Lemma vsub_zero (a b : vec3) : vsub b a = vzero -> a = b.
Proof.
  destruct a as [[a1 a2] a3], b as [[b1 b2] b3]. unfold vsub, vzero.
  intros [= E1 E2 E3]. f_equal; [f_equal|]; lra.
Qed.

Lemma mat_vec_zero (L : mat3) : mat_vec L vzero = vzero.
Proof.
  destruct L as [[[[a11 a12] a13] [[a21 a22] a23]] [[a31 a32] a33]].
  unfold mat_vec, vdot, vzero. f_equal; [f_equal|]; ring.
Qed.

Lemma metric_form_zero (L k_metric : mat3) (dk : vec3) :
  inv3 (mat_mul L (transpose3 L)) = Ok k_metric ->
  vdot dk (mat_vec k_metric dk) = 0 -> dk = vzero.
Proof.
  unfold inv3. destruct (Reqb _ 0) eqn:E; [discriminate|].
  intros [= <-] Hz. apply Reqb_false in E.
  rewrite form_scale, gram_form in Hz. rewrite det3_gram in *.
  assert (Hd : det3 L <> 0) by (intros H0; apply E; rewrite H0; ring).
  apply Rmult_integral in Hz. destruct Hz as [Hz|Hz].
  - exfalso. revert Hz. apply Rinv_neq_0_compat. exact E.
  - apply vdot_self_zero in Hz.
    pose proof (adj3_mul L dk) as Hm. rewrite Hz, mat_vec_zero in Hm.
    destruct dk as [[x y] z]. unfold vscale, vzero in *.
    injection Hm as E1 E2 E3.
    assert (x = 0) by (apply (Rmult_eq_reg_l (det3 L)); [lra|exact Hd]).
    assert (y = 0) by (apply (Rmult_eq_reg_l (det3 L)); [lra|exact Hd]).
    assert (z = 0) by (apply (Rmult_eq_reg_l (det3 L)); [lra|exact Hd]).
    now subst.
Qed.

Lemma dklen_zero_iff (L k_metric : mat3) (a b : vec3) :
  inv3 (mat_mul L (transpose3 L)) = Ok k_metric ->
  (dklen k_metric a b = 0 <-> a = b).
Proof.
  intros HM. split.
  - unfold dklen. intros Hz.
    apply sqrt_eq_0 in Hz; [|now apply (metric_form_nonneg L)].
    apply vsub_zero. now apply (metric_form_zero L k_metric).
  - intros ->. apply dklen_same.
Qed.

Lemma dklen_sym (M : mat3) (a b : vec3) : dklen M a b = dklen M b a.
Proof.
  unfold dklen. f_equal.
  destruct M as [[[[m11 m12] m13] [[m21 m22] m23]] [[m31 m32] m33]].
  destruct a as [[a1 a2] a3], b as [[b1 b2] b3].
  unfold vsub, mat_vec, vdot. ring.
Qed.

(** X13: for a model that the constructor returned, [np.linalg.inv] in
    [k_path] finds the k-space metric, the square root is taken of a
    non-negative number, and the distance it gives between two nodes is
    symmetric and is zero exactly when the nodes coincide. *)
Theorem constructed_metric_is_a_distance (m : tb_model) :
  constructed m ->
  exists k_metric,
    inv3 (mat_mul (_lat m) (transpose3 (_lat m))) = Ok k_metric /\
    (forall dk, 0 <= vdot dk (mat_vec k_metric dk)) /\
    (forall a b, dklen k_metric a b = dklen k_metric b a) /\
    (forall a b, dklen k_metric a b = 0 <-> a = b).
Proof.
  intros Hm. destruct (constructed_metric m Hm) as [k_metric HM].
  exists k_metric. split; [exact HM|]. split; [|split].
  - intros dk. now apply (metric_form_nonneg (_lat m)).
  - intros a b. apply dklen_sym.
  - intros a b. now apply (dklen_zero_iff (_lat m)).
Qed.

(* ================================================================== *)
(** ** Rounding *)

Lemma Int_part_bounds x : IZR (Int_part x) <= x < IZR (Int_part x) + 1.
Proof. destruct (base_Int_part x). lra. Qed.

Lemma Int_part_mono x y : x <= y -> (Int_part x <= Int_part y)%Z.
Proof.
  intros Hxy. destruct (Int_part_bounds x) as [Hx _], (Int_part_bounds y) as [_ Hy].
  destruct (Z_le_gt_dec (Int_part x) (Int_part y)) as [H|H]; [exact H|].
  exfalso. assert (Hz : (Int_part y + 1 <= Int_part x)%Z) by lia.
  apply IZR_le in Hz. rewrite plus_IZR in Hz. lra.
Qed.

Lemma py_round_range x : (Int_part x <= py_round x <= Int_part x + 1)%Z.
Proof.
  unfold py_round. destruct (Rltb _ _); [lia|]. destruct (Rltb _ _); [lia|].
  destruct (Z.even _); lia.
Qed.

(** rounding to the nearest integer, ties to even, is monotone *)
Lemma py_round_mono x y : x <= y -> (py_round x <= py_round y)%Z.
Proof.
  intros Hxy. pose proof (Int_part_mono x y Hxy) as Hfl.
  destruct (Z.eq_dec (Int_part x) (Int_part y)) as [E|E].
  - unfold py_round, frac_part. rewrite <- E.
    destruct (Rltb (x - IZR (Int_part x)) (1 / 2)) eqn:X1;
      destruct (Rltb (y - IZR (Int_part x)) (1 / 2)) eqn:Y1;
      destruct (Rltb (1 / 2) (x - IZR (Int_part x))) eqn:X2;
      destruct (Rltb (1 / 2) (y - IZR (Int_part x))) eqn:Y2;
      rewrite ?Rltb_true, ?Rltb_false in *; try lra; try lia;
      destruct (Z.even (Int_part x)); lia.
  - pose proof (py_round_range x). pose proof (py_round_range y). lia.
Qed.

Lemma py_round_between (x : R) (lo hi : Z) :
  IZR lo <= x <= IZR hi -> (lo <= py_round x <= hi)%Z.
Proof.
  intros [Hlo Hhi]. split.
  - rewrite <- (py_round_IZR lo). now apply py_round_mono.
  - rewrite <- (py_round_IZR hi). now apply py_round_mono.
Qed.

(* ================================================================== *)
(** ** The k-path interpolator: the node indices *)

Lemma mapM_ok {X Y} (f : X -> result Y) (g : X -> Y) l :
  (forall x, In x l -> f x = Ok (g x)) -> mapM f l = Ok (map g l).
Proof.
  induction l as [|x l IH]; intros Hf; simpl; [reflexivity|].
  rewrite (Hf x (or_introl eq_refl)). cbn [bind].
  rewrite IH by (intros y Hy; apply Hf; now right). reflexivity.
Qed.

Section NodeIndices.
Variable k_node : list R.
Variable nk : Z.
Hypothesis Hlen : (2 <= length k_node)%nat.
Hypothesis Hfirst : nth 0 k_node 0 = 0.
Hypothesis Hmono : forall a b, (a <= b < length k_node)%nat ->
  nth a k_node 0 <= nth b k_node 0.
Hypothesis Hnk : (Z.of_nat (length k_node) <= nk)%Z.

Lemma last_is_max n : (n < length k_node)%nat -> 0 <= nth n k_node 0 <= last k_node 0.
Proof.
  intros Hn. rewrite last_as_nth. split.
  - rewrite <- Hfirst at 1. apply Hmono. lia.
  - apply Hmono. lia.
Qed.

Lemma node_indices_degenerate :
  (3 <= length k_node)%nat -> last k_node 0 = 0 ->
  node_indices (length k_node) k_node nk = Raise ValueError.
Proof.
  intros H3 Hz. unfold node_indices.
  replace (length k_node - 2)%nat with (S (length k_node - 3)) by lia.
  cbn [seq mapM]. unfold interior_index at 1. rewrite Hz.
  replace (Reqb 0 0) with true by (symmetry; now apply Reqb_true).
  assert (H1 : nth 1 k_node 0 = 0).
  { pose proof (last_is_max 1 ltac:(lia)) as Hb. rewrite Hz in Hb. lra. }
  rewrite H1. replace (Reqb 0 0) with true by (symmetry; now apply Reqb_true).
  reflexivity.
Qed.

Lemma node_indices_value :
  (length k_node = 2%nat \/ last k_node 0 <> 0) ->
  node_indices (length k_node) k_node nk =
  Ok ([0%Z] ++ map (interior_value k_node nk) (seq 1 (length k_node - 2)) ++ [(nk - 1)%Z]).
Proof.
  intros Hcase. unfold node_indices.
  rewrite (mapM_ok _ (interior_value k_node nk)); [reflexivity|].
  intros n Hn. apply in_seq in Hn.
  destruct Hcase as [H2|Hden]; [lia|].
  unfold interior_index, interior_value.
  replace (Reqb (last k_node 0) 0) with false by (symmetry; now apply Reqb_false).
  reflexivity.
Qed.

Lemma interior_value_range n :
  last k_node 0 <> 0 -> (n < length k_node)%nat ->
  (0 <= interior_value k_node nk n <= nk - 1)%Z.
Proof.
  intros Hden Hn. unfold interior_value. apply py_round_between.
  pose proof (last_is_max n Hn) as [H0 H1].
  assert (Hpos : 0 < last k_node 0).
  { pose proof (last_is_max 0 ltac:(lia)). lra. }
  assert (Hk : 0 <= IZR (nk - 1)) by (apply IZR_le; lia).
  assert (Hf0 : 0 <= nth n k_node 0 / last k_node 0).
  { apply Rmult_le_pos; [exact H0|]. left. now apply Rinv_0_lt_compat. }
  assert (Hf1 : nth n k_node 0 / last k_node 0 <= 1).
  { apply (Rmult_le_reg_r (last k_node 0)); [exact Hpos|].
    unfold Rdiv. rewrite Rmult_assoc, Rinv_l by lra. lra. }
  simpl. split; [apply Rmult_le_pos; assumption|].
  rewrite <- (Rmult_1_l (IZR (nk - 1))) at 2.
  apply Rmult_le_compat_r; assumption.
Qed.

Lemma interior_value_mono a b :
  last k_node 0 <> 0 -> (a <= b < length k_node)%nat ->
  (interior_value k_node nk a <= interior_value k_node nk b)%Z.
Proof.
  intros Hden Hab. unfold interior_value. apply py_round_mono.
  assert (Hpos : 0 < last k_node 0).
  { pose proof (last_is_max 0 ltac:(lia)). lra. }
  assert (Hk : 0 <= IZR (nk - 1)) by (apply IZR_le; lia).
  apply Rmult_le_compat_r; [exact Hk|].
  unfold Rdiv. apply Rmult_le_compat_r; [left; now apply Rinv_0_lt_compat|].
  now apply Hmono.
Qed.

(** the entries of the list of node indices *)
Lemma node_index_nth n :
  (n < length k_node)%nat ->
  nth n ([0%Z] ++ map (interior_value k_node nk) (seq 1 (length k_node - 2))
           ++ [(nk - 1)%Z]) 0%Z =
  if Nat.eqb n 0 then 0%Z
  else if Nat.ltb n (length k_node - 1) then interior_value k_node nk n
  else (nk - 1)%Z.
Proof.
  intros Hn. destruct n as [|n]; [reflexivity|].
  cbn [app nth Nat.eqb].
  destruct (Nat.ltb_spec (S n) (length k_node - 1)) as [Hlt|Hge].
  - rewrite app_nth1 by (rewrite length_map, length_seq; lia).
    rewrite (nth_indep _ 0%Z (interior_value k_node nk 0))
      by (rewrite length_map, length_seq; lia).
    rewrite map_nth, seq_nth by lia. reflexivity.
  - rewrite app_nth2 by (rewrite length_map, length_seq; lia).
    rewrite length_map, length_seq.
    replace (n - (length k_node - 2))%nat with 0%nat by lia. reflexivity.
Qed.

Lemma node_index_sorted node_index :
  node_indices (length k_node) k_node nk = Ok node_index ->
  length node_index = length k_node /\
  (forall n, (n < length k_node)%nat -> (0 <= nth n node_index 0 <= nk - 1)%Z) /\
  (forall n, (S n < length k_node)%nat -> (nth n node_index 0 <= nth (S n) node_index 0)%Z).
Proof.
  intros Hidx.
  destruct (node_indices_shape _ _ _ _ Hlen Hidx) as (Hl & _ & _).
  split; [exact Hl|].
  destruct (Req_dec (last k_node 0) 0) as [Hz|Hden].
  - destruct (Nat.eq_dec (length k_node) 2) as [H2|H2].
    + rewrite node_indices_value in Hidx by (now left).
      injection Hidx as <-. rewrite H2. cbn [Nat.sub seq map app].
      split.
      * intros [|[|n]] Hn; cbn [nth]; lia.
      * intros [|n] Hn; cbn [nth]; lia.
    + rewrite node_indices_degenerate in Hidx by (assumption || lia). discriminate.
  - rewrite node_indices_value in Hidx by (now right).
    assert (Hv : node_index = [0%Z] ++ map (interior_value k_node nk)
                   (seq 1 (length k_node - 2)) ++ [(nk - 1)%Z]) by congruence.
    rewrite Hv. clear Hv Hidx.
    split.
    + intros n Hn. rewrite (node_index_nth n Hn).
      destruct (Nat.eqb n 0); [lia|].
      destruct (Nat.ltb n (length k_node - 1)); [|lia].
      now apply interior_value_range.
    + intros n Hn. rewrite (node_index_nth n), (node_index_nth (S n)) by lia.
      cbn [Nat.eqb].
      destruct (Nat.ltb_spec (S n) (length k_node - 1)) as [Hs|Hs];
        destruct (Nat.eqb_spec n 0) as [Hn0|Hn0].
      * apply interior_value_range; [exact Hden|lia].
      * replace (n <? length k_node - 1)%nat with true
          by (symmetry; apply Nat.ltb_lt; lia).
        apply interior_value_mono; [exact Hden|lia].
      * lia.
      * destruct (Nat.ltb n (length k_node - 1)); [|lia].
        apply interior_value_range; [exact Hden|lia].
Qed.

End NodeIndices.

(* ================================================================== *)
(** ** The k-path interpolator: the segments *)

Lemma segment_of_no_length k_list k_node node_index st n :
  nth (n - 1) node_index 0%Z = nth n node_index 0%Z ->
  segment_step k_list k_node node_index st n = Raise ZeroDivisionError.
Proof.
  intros Heq. unfold segment_step. rewrite Heq.
  unfold zrange.
  replace (nth n node_index 0 + 1 - nth n node_index 0)%Z with 1%Z by lia.
  cbn [Z.to_nat Pos.to_nat Pos.iter_op seq map foldM].
  destruct st as [kd kv]. unfold point_step.
  rewrite Z.sub_diag. reflexivity.
Qed.

Section Segments.
Variable nodes : list vec3.
Variable k_node : list R.
Variable node_index : list Z.
Variable L : nat.

Lemma segments_outcome ns :
  Forall (segment_fits node_index L) ns ->
  forall st, length (fst st) = L -> length (snd st) = L ->
  (forallb (segment_grows node_index) ns = true ->
     exists st', foldM (segment_step nodes k_node node_index) ns st = Ok st' /\
                 length (fst st') = L /\ length (snd st') = L) /\
  (forallb (segment_grows node_index) ns = false ->
     foldM (segment_step nodes k_node node_index) ns st = Raise ZeroDivisionError).
Proof.
  induction 1 as [|n ns Hn Hns IH]; intros [kd kv] Hkd Hkv; cbn [fst snd] in *.
  - split; [|discriminate]. intros _. exists (kd, kv). now repeat split.
  - cbn [forallb foldM]. destruct Hn as [Hord Hlt].
    unfold segment_grows at 1 3.
    destruct (Z.ltb_spec (nth (n - 1) node_index 0%Z) (nth n node_index 0%Z)) as [Hg|Hg].
    + destruct (segment_loop (nth (n - 1) node_index 0%Z) (nth n node_index 0%Z)
                  (nth (n - 1) k_node 0) (nth n k_node 0)
                  (nth (n - 1) nodes vzero) (nth n nodes vzero) L kd kv)
        as (kd' & kv' & Hrun & Hkd' & Hkv' & _); try assumption; [lia|].
      unfold segment_step at 1 3. rewrite Hrun. cbn [bind andb].
      apply (IH (kd', kv')); assumption.
    + rewrite segment_of_no_length by lia. cbn [bind andb].
      split; [discriminate|reflexivity].
Qed.

End Segments.

Lemma increasing_as_test node_index :
  increasing node_index <->
  forallb (segment_grows node_index) (seq 1 (length node_index - 1)) = true.
Proof.
  rewrite forallb_forall. unfold increasing, segment_grows. split.
  - intros Hinc n Hn. apply in_seq in Hn. apply Z.ltb_lt.
    replace n with (S (n - 1)) at 2 by lia. apply Hinc. lia.
  - intros Ht k Hk. specialize (Ht (S k)).
    rewrite in_seq in Ht. specialize (Ht ltac:(lia)).
    apply Z.ltb_lt in Ht. now replace (S k - 1)%nat with k in Ht by lia.
Qed.

(** nodes all coincide exactly when the accumulated distance stays 0 *)
Lemma path_length_zero_iff (Lat M : mat3) (nodes : list vec3) :
  inv3 (mat_mul Lat (transpose3 Lat)) = Ok M ->
  (last (node_distances M nodes) 0 = 0 <-> all_coincide nodes).
Proof.
  intros HM. rewrite last_as_nth, node_distances_length.
  split.
  - intros Hz.
    assert (Hall : forall n, (n < length nodes)%nat -> nth n (node_distances M nodes) 0 = 0).
    { intros n Hn.
      pose proof (node_distances_mono M nodes 0 n ltac:(lia)) as H0.
      pose proof (node_distances_mono M nodes n (length nodes - 1) ltac:(lia)) as H1.
      rewrite node_distances_0 in H0. lra. }
    assert (Hsame : forall n, (n < length nodes)%nat -> nth n nodes vzero = nth 0 nodes vzero).
    { induction n as [|n IHn]; intros Hn; [reflexivity|].
      rewrite <- IHn by lia.
      pose proof (node_distances_step M nodes (S n) ltac:(lia)) as Hs.
      rewrite !Hall in Hs by lia.
      replace (S n - 1)%nat with n in Hs by lia.
      symmetry. apply (dklen_zero_iff Lat M); [exact HM|]. lra. }
    intros a b Ha Hb.
    destruct (In_nth _ _ vzero Ha) as (i & Hi & <-).
    destruct (In_nth _ _ vzero Hb) as (j & Hj & <-).
    rewrite (Hsame i), (Hsame j) by assumption. reflexivity.
  - intros Hall.
    assert (Hz : forall n, (n < length nodes)%nat -> nth n (node_distances M nodes) 0 = 0).
    { induction n as [|n IHn]; intros Hn; [apply node_distances_0|].
      rewrite node_distances_step by lia.
      replace (S n - 1)%nat with n by lia. rewrite IHn by lia.
      assert (Hd : dklen M (nth n nodes vzero) (nth (S n) nodes vzero) = 0).
      { apply (dklen_zero_iff Lat M); [exact HM|].
        apply Hall; apply nth_In; lia. }
      rewrite Hd. lra. }
    destruct nodes as [|v vs] eqn:E; [reflexivity|].
    apply Hz. cbn [length]. lia.
Qed.

(** the facts on [k_node] that the node indices rest on *)
Lemma node_index_facts (Lat M : mat3) (nodes : list vec3) (nk : Z) node_index :
  (2 <= length nodes)%nat -> (Z.of_nat (length nodes) <= nk)%Z ->
  node_indices (length nodes) (node_distances M nodes) nk = Ok node_index ->
  length node_index = length nodes /\
  (forall n, (n < length nodes)%nat -> (0 <= nth n node_index 0 <= nk - 1)%Z) /\
  (forall n, (S n < length nodes)%nat -> (nth n node_index 0 <= nth (S n) node_index 0)%Z).
Proof.
  intros Hlen Hnk Hidx.
  pose proof (node_distances_length M nodes) as Hl.
  rewrite <- Hl in Hidx, Hlen, Hnk.
  pose proof (node_index_sorted (node_distances M nodes) nk Hlen
                (node_distances_0 M nodes)
                (fun a b Hab => node_distances_mono M nodes a b
                                  ltac:(rewrite <- Hl; exact Hab))
                Hnk node_index Hidx) as Hs.
  now rewrite Hl in Hs.
Qed.

Lemma path_segments_fit (nodes : list vec3) (nk : Z) node_index :
  (forall n, (n < length nodes)%nat -> (0 <= nth n node_index 0 <= nk - 1)%Z) ->
  (forall n, (S n < length nodes)%nat -> (nth n node_index 0 <= nth (S n) node_index 0)%Z) ->
  Forall (segment_fits node_index (Z.to_nat nk)) (seq 1 (length nodes - 1)).
Proof.
  intros Hrange Hord. apply Forall_forall. intros n Hn. apply in_seq in Hn.
  unfold segment_fits.
  pose proof (Hrange (n - 1)%nat ltac:(lia)) as H1.
  pose proof (Hrange n ltac:(lia)) as H2.
  pose proof (Hord (n - 1)%nat ltac:(lia)) as H3.
  replace (S (n - 1)) with n in H3 by lia. lia.
Qed.

Lemma path_outcome (m : tb_model) (nodes : list vec3) (nk : Z) :
  constructed m ->
  (2 <= length nodes)%nat ->
  (Z.of_nat (length nodes) <= nk)%Z ->
  exists k_metric,
    inv3 (mat_mul (_lat m) (transpose3 (_lat m))) = Ok k_metric /\
    ((3 <= length nodes)%nat /\ all_coincide nodes ->
       k_path m (nodes_arg nodes) nk = Raise ValueError) /\
    (~ ((3 <= length nodes)%nat /\ all_coincide nodes) ->
       exists node_index,
         node_indices (length nodes) (node_distances k_metric nodes) nk = Ok node_index /\
         (increasing node_index ->
            exists k_vec k_dist,
              k_path m (nodes_arg nodes) nk
              = Ok (k_vec, k_dist, node_distances k_metric nodes)) /\
         (~ increasing node_index ->
            k_path m (nodes_arg nodes) nk = Raise ZeroDivisionError)).
Proof.
  intros Hc Hlen Hnk.
  destruct (constructed_metric m Hc) as [M HM]. exists M. split; [exact HM|].
  assert (Hne : nodes <> []) by (destruct nodes; [simpl in Hlen; lia|discriminate]).
  pose proof (node_distances_length M nodes) as Hl.
  pose proof (path_length_zero_iff (_lat m) M nodes HM) as Hzero.
  assert (Hlen' : (2 <= length (node_distances M nodes))%nat) by now rewrite Hl.
  assert (Hmono : forall a b, (a <= b < length (node_distances M nodes))%nat ->
            nth a (node_distances M nodes) 0 <= nth b (node_distances M nodes) 0).
  { intros a b Hab. apply node_distances_mono. now rewrite <- Hl. }
  assert (Hnk0 : (nk <? Z.of_nat (length nodes))%Z = false) by (apply Z.ltb_ge; lia).
  split.
  - intros [H3 Hall].
    rewrite k_path_nodes, Hnk0, HM by exact Hne. cbn [bind].
    pose proof (node_indices_degenerate (node_distances M nodes) nk Hlen'
                  (node_distances_0 M nodes) Hmono
                  ltac:(rewrite Hl; exact H3)
                  (proj2 Hzero Hall)) as Hd.
    rewrite Hl in Hd. rewrite Hd. reflexivity.
  - intros Hnot.
    assert (Hcase : length (node_distances M nodes) = 2%nat
                    \/ last (node_distances M nodes) 0 <> 0).
    { destruct (Nat.eq_dec (length nodes) 2) as [H2|H2]; [left; now rewrite Hl|].
      right. intros Hz. apply Hnot. split; [lia|]. now apply Hzero. }
    pose proof (node_indices_value (node_distances M nodes) nk Hlen' Hcase) as Hval.
    rewrite Hl in Hval.
    remember ([0%Z] ++ map (interior_value (node_distances M nodes) nk)
                (seq 1 (length nodes - 2)) ++ [(nk - 1)%Z]) as node_index eqn:Eidx.
    clear Eidx. exists node_index. split; [exact Hval|].
    destruct (node_index_facts (_lat m) M nodes nk _ Hlen Hnk Hval)
      as (Hil & Hrange & Hord).
    split.
    + intros Hinc.
      destruct (path_runs m nodes nk M _ HM Hlen Hnk Hval Hinc)
        as (k_dist & k_vec & Hrun & _).
      exists k_vec, k_dist. exact Hrun.
    + intros Hninc.
      rewrite k_path_nodes, Hnk0, HM by exact Hne. cbn [bind].
      rewrite Hval. cbn [bind].
      rewrite setitem_in_range by (rewrite repeat_length; lia). cbn [bind].
      change (Z.to_nat 0) with 0%nat.
      pose proof (segments_outcome nodes (node_distances M nodes) _ (Z.to_nat nk)
                    (seq 1 (length nodes - 1))
                    (path_segments_fit nodes nk _ Hrange Hord)
                    (repeat 0 (Z.to_nat nk),
                     upd (repeat vzero (Z.to_nat nk)) 0 (nth 0 nodes vzero))) as Hout.
      destruct Hout as [_ Hraise].
      * cbn [fst]. apply repeat_length.
      * cbn [snd]. rewrite upd_length. apply repeat_length.
      * rewrite Hraise; [reflexivity|].
        destruct (forallb _ _) eqn:E; [|reflexivity].
        exfalso. apply Hninc. apply increasing_as_test. now rewrite Hil.
Qed.

(** a segment whose end index lies before its start index is skipped:
    [range(n_i, n_f+1)] is empty *)
Lemma segment_backwards k_list k_node node_index st n :
  (nth n node_index 0 < nth (n - 1) node_index 0)%Z ->
  segment_step k_list k_node node_index st n = Ok st.
Proof.
  intros Hlt. unfold segment_step, zrange.
  replace (Z.to_nat (nth n node_index 0 + 1 - nth (n - 1) node_index 0)%Z) with 0%nat by lia.
  reflexivity.
Qed.

Lemma segments_outcome_any (nodes : list vec3) (k_node : list R) (node_index : list Z)
    (L : nat) (ns : list nat) :
  Forall (segment_inside node_index L) ns ->
  forall st, length (fst st) = L -> length (snd st) = L ->
  (forallb (segment_nonempty node_index) ns = true ->
     exists st', foldM (segment_step nodes k_node node_index) ns st = Ok st' /\
                 length (fst st') = L /\ length (snd st') = L) /\
  (forallb (segment_nonempty node_index) ns = false ->
     foldM (segment_step nodes k_node node_index) ns st = Raise ZeroDivisionError).
Proof.
  induction 1 as [|n ns Hn Hns IH]; intros [kd kv] Hkd Hkv; cbn [fst snd] in *.
  - split; [|discriminate]. intros _. exists (kd, kv). now repeat split.
  - cbn [forallb foldM]. destruct Hn as [Hi Hf].
    unfold segment_nonempty at 1 3.
    destruct (Z.eqb_spec (nth (n - 1) node_index 0%Z) (nth n node_index 0%Z)) as [He|Hne].
    + rewrite segment_of_no_length by exact He. cbn [bind negb andb].
      split; [discriminate|reflexivity].
    + cbn [negb andb].
      destruct (Z.lt_ge_cases (nth (n - 1) node_index 0%Z) (nth n node_index 0%Z))
        as [Hlt|Hge].
      * destruct (segment_loop (nth (n - 1) node_index 0%Z) (nth n node_index 0%Z)
                    (nth (n - 1) k_node 0) (nth n k_node 0)
                    (nth (n - 1) nodes vzero) (nth n nodes vzero) L kd kv)
          as (kd' & kv' & Hrun & Hkd' & Hkv' & _); try assumption; [lia|lia|].
        unfold segment_step at 1 3. rewrite Hrun. cbn [bind].
        apply (IH (kd', kv')); assumption.
      * rewrite segment_backwards by lia. cbn [bind].
        apply (IH (kd, kv)); assumption.
Qed.

Lemma no_empty_segment_as_test node_index :
  no_empty_segment node_index <->
  forallb (segment_nonempty node_index) (seq 1 (length node_index - 1)) = true.
Proof.
  rewrite forallb_forall. unfold no_empty_segment, segment_nonempty. split.
  - intros Hne n Hn. apply in_seq in Hn. apply negb_true_iff, Z.eqb_neq.
    replace n with (S (n - 1)) at 2 by lia. apply Hne. lia.
  - intros Ht k Hk. specialize (Ht (S k)).
    rewrite in_seq in Ht. specialize (Ht ltac:(lia)).
    apply negb_true_iff, Z.eqb_neq in Ht.
    now replace (S k - 1)%nat with k in Ht by lia.
Qed.

(** X14: the outcome of [k_path] on a list of at least two nodes,
    whatever the floating-point computation of the interior indices
    gives.  An exception of that computation is the outcome of the call.
    When it gives indices inside the arrays, the call returns if no two
    neighbouring nodes get the same index, and raises
    [ZeroDivisionError] if two do. *)
Theorem k_path_outcome (index_of : R -> R -> Z -> result Z)
    (m : tb_model) (nodes : list vec3) (nk : Z) :
  constructed m ->
  (2 <= length nodes)%nat ->
  (Z.of_nat (length nodes) <= nk)%Z ->
  exists k_metric,
    inv3 (mat_mul (_lat m) (transpose3 (_lat m))) = Ok k_metric /\
    (forall e,
       node_indices_with index_of (length nodes) (node_distances k_metric nodes) nk
         = Raise e ->
       k_path_with index_of m (nodes_arg nodes) nk = Raise e) /\
    (forall node_index,
       node_indices_with index_of (length nodes) (node_distances k_metric nodes) nk
         = Ok node_index ->
       Forall (fun i => (0 <= i <= nk - 1)%Z) node_index ->
       (no_empty_segment node_index ->
          exists k_vec k_dist,
            k_path_with index_of m (nodes_arg nodes) nk
            = Ok (k_vec, k_dist, node_distances k_metric nodes)) /\
       (~ no_empty_segment node_index ->
          k_path_with index_of m (nodes_arg nodes) nk = Raise ZeroDivisionError)).
Proof.
  intros Hc Hlen Hnk.
  destruct (constructed_metric m Hc) as [M HM]. exists M. split; [exact HM|].
  assert (Hne : nodes <> []) by (destruct nodes; [simpl in Hlen; lia|discriminate]).
  assert (Hnk0 : (nk <? Z.of_nat (length nodes))%Z = false) by (apply Z.ltb_ge; lia).
  split.
  - intros e He. rewrite k_path_with_nodes, Hnk0, HM by exact Hne. cbn [bind].
    rewrite He. reflexivity.
  - intros node_index Hidx Hin.
    destruct (node_indices_with_shape _ _ _ _ _ Hlen Hidx) as (Hil & _ & _).
    rewrite (k_path_with_segments index_of m nodes nk M node_index HM ltac:(lia) Hnk Hidx).
    assert (Hfit : Forall (segment_inside node_index (Z.to_nat nk))
                          (seq 1 (length nodes - 1))).
    { rewrite Forall_forall in Hin. apply Forall_forall. intros n Hn.
      apply in_seq in Hn. unfold segment_inside.
      pose proof (Hin (nth (n - 1) node_index 0%Z) ltac:(apply nth_In; lia)).
      pose proof (Hin (nth n node_index 0%Z) ltac:(apply nth_In; lia)). lia. }
    destruct (segments_outcome_any nodes (node_distances M nodes) node_index
                (Z.to_nat nk) (seq 1 (length nodes - 1)) Hfit (path_start nodes nk))
      as [Hok Hraise].
    { unfold path_start. cbn [fst]. apply repeat_length. }
    { unfold path_start. cbn [snd]. rewrite upd_length. apply repeat_length. }
    rewrite <- Hil in Hok, Hraise. split.
    + intros Hnone. apply no_empty_segment_as_test in Hnone.
      destruct (Hok Hnone) as ([kd kv] & Hrun & _).
      rewrite Hil in Hrun. rewrite Hrun. cbn [bind fst snd]. eauto.
    + intros Hsome.
      rewrite Hil in Hraise. rewrite Hraise; [reflexivity|].
      rewrite <- Hil.
      destruct (forallb _ _) eqn:E; [|reflexivity].
      exfalso. apply Hsome. now apply no_empty_segment_as_test.
Qed.

(** a node repeated in consecutive places gets the index of its twin *)
Lemma repeated_node_index (k_node : list R) (nk : Z) (n : nat) :
  (3 <= length k_node)%nat -> last k_node 0 <> 0 ->
  (S n < length k_node)%nat ->
  nth n k_node 0 = nth (S n) k_node 0 ->
  nth 0 k_node 0 = 0 ->
  let node_index := [0%Z] ++ map (interior_value k_node nk) (seq 1 (length k_node - 2))
                      ++ [(nk - 1)%Z] in
  nth n node_index 0%Z = nth (S n) node_index 0%Z.
Proof.
  intros H3 Hden Hn Heq H0. cbv zeta.
  rewrite (node_index_nth k_node nk ltac:(lia) n ltac:(lia)).
  rewrite (node_index_nth k_node nk ltac:(lia) (S n) Hn).
  cbn [Nat.eqb].
  destruct (Nat.eqb_spec n 0) as [Hn0|Hn0];
    destruct (Nat.ltb_spec (S n) (length k_node - 1)) as [Hs|Hs].
  - subst n. unfold interior_value. rewrite <- Heq, H0.
    replace (0 / last k_node 0 * IZR (nk - 1)) with (IZR 0) by (simpl; field; exact Hden).
    now rewrite py_round_IZR.
  - lia.
  - replace (n <? length k_node - 1)%nat with true by (symmetry; apply Nat.ltb_lt; lia).
    unfold interior_value. now rewrite Heq.
  - replace (n <? length k_node - 1)%nat with true by (symmetry; apply Nat.ltb_lt; lia).
    unfold interior_value. rewrite Heq.
    replace (nth (S n) k_node 0) with (last k_node 0)
      by (rewrite last_as_nth; f_equal; lia).
    replace (last k_node 0 / last k_node 0 * IZR (nk - 1)) with (IZR (nk - 1))
      by (field; exact Hden).
    now rewrite py_round_IZR.
Qed.

(** X15: a path of three or more nodes in which some node is repeated in
    the next place never returns: it raises [ValueError] when all nodes
    coincide and [ZeroDivisionError] otherwise. *)
Theorem k_path_repeated_node_raises (m : tb_model) (nodes : list vec3) (nk : Z) (n : nat) :
  constructed m ->
  (3 <= length nodes)%nat ->
  (Z.of_nat (length nodes) <= nk)%Z ->
  (S n < length nodes)%nat ->
  nth n nodes vzero = nth (S n) nodes vzero ->
  (all_coincide nodes -> k_path m (nodes_arg nodes) nk = Raise ValueError) /\
  (~ all_coincide nodes -> k_path m (nodes_arg nodes) nk = Raise ZeroDivisionError).
Proof.
  intros Hc H3 Hnk Hn Heq.
  destruct (path_outcome m nodes nk Hc ltac:(lia) Hnk) as (M & HM & Hsame & Hother).
  split.
  - intros Hall. apply Hsame. now split.
  - intros Hnall.
    destruct (Hother ltac:(tauto)) as (node_index & Hidx & _ & Hraise).
    apply Hraise. intros Hinc.
    pose proof (node_distances_length M nodes) as Hl.
    pose proof (path_length_zero_iff (_lat m) M nodes HM) as Hzero.
    assert (Hden : last (node_distances M nodes) 0 <> 0) by tauto.
    assert (Hlen' : (2 <= length (node_distances M nodes))%nat) by (rewrite Hl; lia).
    pose proof (node_indices_value (node_distances M nodes) nk Hlen' (or_intror Hden))
      as Hval.
    rewrite Hl in Hval at 1. rewrite Hval in Hidx.
    assert (Hk : nth n (node_distances M nodes) 0 = nth (S n) (node_distances M nodes) 0).
    { rewrite (node_distances_step M nodes (S n)) by lia.
      replace (S n - 1)%nat with n by lia.
      rewrite Heq, dklen_same. lra. }
    pose proof (repeated_node_index (node_distances M nodes) nk n
                  ltac:(rewrite Hl; exact H3) Hden ltac:(rewrite Hl; exact Hn) Hk
                  (node_distances_0 M nodes)) as Hrep.
    cbv zeta in Hrep.
    assert (Hv : node_index = [0%Z] ++ map (interior_value (node_distances M nodes) nk)
                   (seq 1 (length (node_distances M nodes) - 2)) ++ [(nk - 1)%Z])
      by congruence.
    rewrite <- Hv in Hrep.
    assert (Hil : length node_index = length nodes).
    { rewrite Hv, !length_app, length_map, length_seq, Hl. simpl. lia. }
    specialize (Hinc n ltac:(lia)). lia.
Qed.

(* ================================================================== *)
(** ** The k-path interpolator: the returned arrays *)

Lemma increasing_le idx a b :
  increasing idx -> (a <= b < length idx)%nat -> (nth a idx 0 <= nth b idx 0)%Z.
Proof.
  intros Hinc [Hab Hb]. induction Hab as [|b Hab IH]; [lia|].
  specialize (Hinc b Hb). specialize (IH ltac:(lia)). lia.
Qed.

Lemma increasing_lt idx a b :
  increasing idx -> (a < b < length idx)%nat -> (nth a idx 0 < nth b idx 0)%Z.
Proof.
  intros Hinc [Hab Hb].
  pose proof (increasing_le idx (S a) b Hinc ltac:(lia)) as H1.
  specialize (Hinc a ltac:(lia)). lia.
Qed.

Lemma segments_interpolate (nodes : list vec3) (k_node : list R) (node_index : list Z)
    (nk : Z) :
  length node_index = length nodes ->
  increasing node_index ->
  nth 0 node_index 0%Z = 0%Z ->
  nth (length nodes - 1) node_index 0%Z = (nk - 1)%Z ->
  forall k, (k < length nodes)%nat ->
  exists st,
    foldM (segment_step nodes k_node node_index) (seq 1 k) (path_start nodes nk) = Ok st /\
    length (fst st) = Z.to_nat nk /\ length (snd st) = Z.to_nat nk /\
    interpolated nodes k_node node_index k st.
Proof.
  intros Hil Hinc Hi0 Hilast.
  induction k as [|k IH]; intros Hk.
  - exists (path_start nodes nk). split; [reflexivity|].
    unfold path_start. cbn [fst snd].
    rewrite upd_length, !repeat_length.
    split; [reflexivity|]. split; [reflexivity|].
    intros s p Hs. lia.
  - destruct IH as ([kd kv] & Hrun & Hl1 & Hl2 & Hint); [lia|].
    cbn [fst snd] in Hl1, Hl2.
    rewrite seq_S, foldM_app, Hrun. cbn [bind foldM plus].
    unfold segment_step. replace (S k - 1)%nat with k by lia.
    set (n_i := nth k node_index 0%Z). set (n_f := nth (S k) node_index 0%Z).
    assert (Hlo : (0 <= n_i)%Z).
    { rewrite <- Hi0. apply increasing_le; [exact Hinc|lia]. }
    assert (Hlt : (n_i < n_f)%Z) by (apply Hinc; lia).
    assert (Hhi : (n_f <= nk - 1)%Z).
    { rewrite <- Hilast. apply increasing_le; [exact Hinc|lia]. }
    destruct (segment_loop n_i n_f (nth k k_node 0) (nth (S k) k_node 0)
                (nth k nodes vzero) (nth (S k) nodes vzero) (Z.to_nat nk) kd kv)
      as (kd' & kv' & Hrun' & Hl1' & Hl2' & Hval); try assumption; try lia.
    rewrite Hrun'. cbn [bind].
    exists (kd', kv'). split; [reflexivity|]. cbn [fst snd].
    split; [exact Hl1'|]. split; [exact Hl2'|].
    intros s p Hs Hp. cbn [fst snd].
    destruct (Hval p) as [Hin Hout].
    destruct (Nat.eq_dec s (S k)) as [->|Hsk].
    + replace (S k - 1)%nat with k in * by lia. now apply Hin.
    + assert (Hsk' : (s <= k)%nat) by lia.
      pose proof (increasing_le node_index s k Hinc ltac:(lia)) as Hle.
      destruct (Z.le_gt_cases n_i (Z.of_nat p)) as [Hge|Hlt'].
      * (* the point is the node shared with the new segment *)
        assert (Hpk : Z.of_nat p = n_i) by (unfold n_i in *; lia).
        assert (Hs_eq : s = k).
        { destruct (Nat.eq_dec s k) as [E|E]; [exact E|].
          pose proof (increasing_lt node_index s k Hinc ltac:(lia)).
          unfold n_i in *. lia. }
        subst s.
        destruct Hin as [Hd Hv]; [lia|].
        rewrite Hd, Hv, Hpk. fold n_i.
        assert (Hprev : (nth (k - 1) node_index 0 < n_i)%Z).
        { unfold n_i. apply increasing_lt; [exact Hinc|lia]. }
        rewrite point_dist_start, point_vec_start.
        rewrite point_dist_end, point_vec_end by lia. now split.
      * destruct Hout as [Hd Hv]; [lia|].
        rewrite Hd, Hv. apply (Hint s p); [lia|exact Hp].
Qed.

(** every place of the arrays lies on some segment *)
Lemma segments_cover (node_index : list Z) (n : nat) (p : Z) :
  (1 <= n < length node_index)%nat ->
  (nth 0 node_index 0 <= p <= nth n node_index 0)%Z ->
  exists s, (1 <= s <= n)%nat /\
            (nth (s - 1) node_index 0 <= p <= nth s node_index 0)%Z.
Proof.
  intros [H1 Hn] Hp. induction n as [|n IH]; [lia|].
  destruct (Z.le_gt_cases (nth n node_index 0%Z) p) as [Hge|Hlt].
  - exists (S n). split; [lia|]. replace (S n - 1)%nat with n by lia. lia.
  - destruct n as [|n]; [lia|].
    destruct IH as (s & Hs & Hps); [lia|lia|lia|].
    exists s. split; [lia|exact Hps].
Qed.

Lemma path_interpolates (m : tb_model) (nodes : list vec3) (nk : Z) (k_metric : mat3)
    (node_index : list Z) :
  inv3 (mat_mul (_lat m) (transpose3 (_lat m))) = Ok k_metric ->
  (2 <= length nodes)%nat ->
  (Z.of_nat (length nodes) <= nk)%Z ->
  node_indices (length nodes) (node_distances k_metric nodes) nk = Ok node_index ->
  increasing node_index ->
  exists k_dist k_vec,
    k_path m (nodes_arg nodes) nk = Ok (k_vec, k_dist, node_distances k_metric nodes) /\
    length k_dist = Z.to_nat nk /\ length k_vec = Z.to_nat nk /\
    interpolated nodes (node_distances k_metric nodes) node_index
                 (length nodes - 1) (k_dist, k_vec).
Proof.
  intros Hmetric Hlen Hnk Hidx Hinc.
  destruct (node_indices_shape _ _ _ _ Hlen Hidx) as (Hil & Hi0 & Hilast).
  destruct (segments_interpolate nodes (node_distances k_metric nodes) node_index nk
              Hil Hinc Hi0 Hilast (length nodes - 1)) as ([kd kv] & Hrun & Hl1 & Hl2 & Hint);
    [lia|].
  exists kd, kv. split; [|split; [exact Hl1|split; [exact Hl2|exact Hint]]].
  rewrite k_path_nodes by (intros ->; simpl in Hlen; lia).
  replace (nk <? Z.of_nat (length nodes))%Z with false
    by (symmetry; apply Z.ltb_ge; lia).
  rewrite Hmetric. cbn [bind]. rewrite Hidx. cbn [bind].
  rewrite setitem_in_range by (rewrite repeat_length; lia). cbn [bind].
  change (Z.to_nat 0) with 0%nat. fold (path_start nodes nk).
  rewrite Hrun. reflexivity.
Qed.

Lemma path_interpolates_with (index_of : R -> R -> Z -> result Z)
    (m : tb_model) (nodes : list vec3) (nk : Z) (k_metric : mat3) (node_index : list Z) :
  inv3 (mat_mul (_lat m) (transpose3 (_lat m))) = Ok k_metric ->
  (2 <= length nodes)%nat ->
  (Z.of_nat (length nodes) <= nk)%Z ->
  node_indices_with index_of (length nodes) (node_distances k_metric nodes) nk
    = Ok node_index ->
  increasing node_index ->
  exists k_dist k_vec,
    k_path_with index_of m (nodes_arg nodes) nk
      = Ok (k_vec, k_dist, node_distances k_metric nodes) /\
    length k_dist = Z.to_nat nk /\ length k_vec = Z.to_nat nk /\
    interpolated nodes (node_distances k_metric nodes) node_index
                 (length nodes - 1) (k_dist, k_vec).
Proof.
  intros Hmetric Hlen Hnk Hidx Hinc.
  destruct (node_indices_with_shape _ _ _ _ _ Hlen Hidx) as (Hil & Hi0 & Hilast).
  destruct (segments_interpolate nodes (node_distances k_metric nodes) node_index nk
              Hil Hinc Hi0 Hilast (length nodes - 1)) as ([kd kv] & Hrun & Hl1 & Hl2 & Hint);
    [lia|].
  exists kd, kv. split; [|split; [exact Hl1|split; [exact Hl2|exact Hint]]].
  rewrite (k_path_with_segments index_of m nodes nk k_metric node_index)
    by (assumption || lia).
  rewrite Hrun. reflexivity.
Qed.

(** X16: when the node indices are strictly increasing, whatever the
    floating-point computation of the interior ones gives, [k_path]
    returns, each returned point lies on a segment between two
    consecutive nodes and holds the value that is interpolated linearly
    between them, for the vector and for the accumulated distance alike. *)
Theorem k_path_piecewise_linear (index_of : R -> R -> Z -> result Z)
    (m : tb_model) (nodes : list vec3) (nk : Z) (k_metric : mat3) (node_index : list Z) :
  inv3 (mat_mul (_lat m) (transpose3 (_lat m))) = Ok k_metric ->
  (2 <= length nodes)%nat ->
  (Z.of_nat (length nodes) <= nk)%Z ->
  node_indices_with index_of (length nodes) (node_distances k_metric nodes) nk
    = Ok node_index ->
  increasing node_index ->
  exists k_vec k_dist,
    k_path_with index_of m (nodes_arg nodes) nk
      = Ok (k_vec, k_dist, node_distances k_metric nodes) /\
    length k_vec = Z.to_nat nk /\ length k_dist = Z.to_nat nk /\
    (forall p, (p < Z.to_nat nk)%nat ->
       exists s, (1 <= s < length nodes)%nat /\
         (nth (s - 1) node_index 0 <= Z.of_nat p <= nth s node_index 0)%Z) /\
    (forall s p, (1 <= s < length nodes)%nat ->
       (nth (s - 1) node_index 0 <= Z.of_nat p <= nth s node_index 0)%Z ->
       nth p k_vec vzero =
         point_vec (nth (s - 1) node_index 0%Z) (nth s node_index 0%Z)
                   (nth (s - 1) nodes vzero) (nth s nodes vzero) (Z.of_nat p) /\
       nth p k_dist 0 =
         point_dist (nth (s - 1) node_index 0%Z) (nth s node_index 0%Z)
                    (nth (s - 1) (node_distances k_metric nodes) 0)
                    (nth s (node_distances k_metric nodes) 0) (Z.of_nat p)).
Proof.
  intros Hmetric Hlen Hnk Hidx Hinc.
  destruct (path_interpolates_with index_of m nodes nk k_metric node_index
              Hmetric Hlen Hnk Hidx Hinc)
    as (k_dist & k_vec & Hrun & Hl1 & Hl2 & Hint).
  destruct (node_indices_with_shape _ _ _ _ _ Hlen Hidx) as (Hil & Hi0 & Hilast).
  exists k_vec, k_dist. repeat split; try assumption.
  - intros p Hp.
    destruct (segments_cover node_index (length nodes - 1) (Z.of_nat p))
      as (s & Hs & Hps); [lia|lia|].
    exists s. split; [lia|exact Hps].
  - apply (Hint s p); [lia|assumption].
  - apply (Hint s p); [lia|assumption].
Qed.

(** X17: when the node indices are strictly increasing, whatever the
    floating-point computation of the interior ones gives, the returned
    point at the index of each node is that node, at the accumulated
    distance of that node. *)
Theorem k_path_passes_through_nodes (index_of : R -> R -> Z -> result Z)
    (m : tb_model) (nodes : list vec3) (nk : Z) (k_metric : mat3) (node_index : list Z) :
  inv3 (mat_mul (_lat m) (transpose3 (_lat m))) = Ok k_metric ->
  (2 <= length nodes)%nat ->
  (Z.of_nat (length nodes) <= nk)%Z ->
  node_indices_with index_of (length nodes) (node_distances k_metric nodes) nk
    = Ok node_index ->
  increasing node_index ->
  exists k_vec k_dist,
    k_path_with index_of m (nodes_arg nodes) nk
      = Ok (k_vec, k_dist, node_distances k_metric nodes) /\
    forall n, (n < length nodes)%nat ->
      (0 <= nth n node_index 0 < nk)%Z /\
      nth (Z.to_nat (nth n node_index 0%Z)) k_vec vzero = nth n nodes vzero /\
      nth (Z.to_nat (nth n node_index 0%Z)) k_dist 0
        = nth n (node_distances k_metric nodes) 0.
Proof.
  intros Hmetric Hlen Hnk Hidx Hinc.
  destruct (path_interpolates_with index_of m nodes nk k_metric node_index
              Hmetric Hlen Hnk Hidx Hinc)
    as (k_dist & k_vec & Hrun & Hl1 & Hl2 & Hint).
  destruct (node_indices_with_shape _ _ _ _ _ Hlen Hidx) as (Hil & Hi0 & Hilast).
  exists k_vec, k_dist. split; [exact Hrun|].
  intros n Hn.
  assert (Hlo : (0 <= nth n node_index 0)%Z).
  { pose proof (increasing_le node_index 0 n Hinc ltac:(lia)). lia. }
  assert (Hhi : (nth n node_index 0 <= nk - 1)%Z).
  { rewrite <- Hilast. apply increasing_le; [exact Hinc|lia]. }
  split; [lia|].
  destruct n as [|n].
  - pose proof (increasing_lt node_index 0 1 Hinc ltac:(lia)) as Hlt.
    destruct (Hint 1%nat (Z.to_nat (nth 0 node_index 0%Z))) as [Hd Hv];
      [lia|cbn [Nat.sub]; lia|].
    cbn [fst snd Nat.sub] in Hd, Hv.
    rewrite Z2Nat.id in Hd, Hv by lia.
    rewrite point_dist_start in Hd. rewrite point_vec_start in Hv. now split.
  - pose proof (increasing_lt node_index n (S n) Hinc ltac:(lia)) as Hlt.
    destruct (Hint (S n) (Z.to_nat (nth (S n) node_index 0%Z))) as [Hd Hv];
      [lia|replace (S n - 1)%nat with n by lia; lia|].
    cbn [fst snd] in Hd, Hv. replace (S n - 1)%nat with n in Hd, Hv by lia.
    rewrite Z2Nat.id in Hd, Hv by lia.
    rewrite point_dist_end in Hd by lia. rewrite point_vec_end in Hv by lia.
    now split.
Qed.

(** X18: a path of two nodes returns for every point count of at least
    two, also when the two nodes coincide, and its points divide the
    straight line between the nodes evenly. *)
Theorem k_path_two_nodes_uniform (m : tb_model) (a b : vec3) (nk : Z) :
  constructed m -> (2 <= nk)%Z ->
  exists k_metric k_vec k_dist,
    inv3 (mat_mul (_lat m) (transpose3 (_lat m))) = Ok k_metric /\
    k_path m (nodes_arg [a; b]) nk = Ok (k_vec, k_dist, [0; 0 + dklen k_metric a b]) /\
    length k_vec = Z.to_nat nk /\ length k_dist = Z.to_nat nk /\
    forall p, (p < Z.to_nat nk)%nat ->
      nth p k_vec vzero = vadd a (vscale (IZR (Z.of_nat p) / IZR (nk - 1)) (vsub b a)) /\
      nth p k_dist 0 = IZR (Z.of_nat p) / IZR (nk - 1) * dklen k_metric a b.
Proof.
  intros Hc Hnk.
  destruct (constructed_metric m Hc) as [M HM]. exists M.
  assert (Hidx : node_indices (length [a; b]) (node_distances M [a; b]) nk
                 = Ok [0%Z; (nk - 1)%Z]) by reflexivity.
  assert (Hinc : increasing [0%Z; (nk - 1)%Z]).
  { intros k Hk. cbn [length] in Hk. destruct k as [|k]; [cbn [nth]; lia|lia]. }
  destruct (path_interpolates m [a; b] nk M _ HM ltac:(cbn [length]; lia)
              ltac:(cbn [length]; lia) Hidx Hinc)
    as (k_dist & k_vec & Hrun & Hl1 & Hl2 & Hint).
  exists k_vec, k_dist. split; [exact HM|]. split; [exact Hrun|].
  split; [exact Hl2|]. split; [exact Hl1|].
  intros p Hp.
  destruct (Hint 1%nat p) as [Hd Hv]; [cbn [length]; lia|cbn [Nat.sub nth]; lia|].
  cbn [fst snd Nat.sub nth] in Hd, Hv.
  change (node_distances M [a; b]) with [0; 0 + dklen M a b] in Hd.
  cbn [nth] in Hd.
  unfold point_dist in Hd. unfold point_vec in Hv.
  rewrite !Z.sub_0_r in Hd, Hv. split; [exact Hv|].
  rewrite Hd. ring.
Qed.

(** X19: a path of a single node returns without complaint: the node
    itself, followed by the zero vector in every further place, at
    distance 0 throughout. *)
Theorem k_path_single_node (m : tb_model) (a : vec3) (nk : Z) :
  constructed m -> (1 <= nk)%Z ->
  k_path m (nodes_arg [a]) nk
  = Ok (a :: repeat vzero (Z.to_nat nk - 1), repeat 0 (Z.to_nat nk), [0]).
Proof.
  intros Hc Hnk.
  destruct (constructed_metric m Hc) as [M HM].
  rewrite k_path_nodes by discriminate.
  replace (nk <? Z.of_nat (length [a]))%Z with false
    by (symmetry; apply Z.ltb_ge; cbn [length]; lia).
  rewrite HM. cbn [bind].
  change (node_indices (length [a]) (node_distances M [a]) nk)
    with (Ok [0%Z; (nk - 1)%Z]). cbn [bind].
  rewrite setitem_in_range by (rewrite repeat_length; lia). cbn [bind].
  cbn [length Nat.sub seq foldM bind fst snd nth].
  change (node_distances M [a]) with [0].
  change (Z.to_nat 0) with 0%nat.
  replace (Z.to_nat nk) with (S (Z.to_nat nk - 1)) at 1 by lia.
  reflexivity.
Qed.

(* ================================================================== *)
(** ** Cartesian and reduced coordinates *)

Lemma det3_transpose (L : mat3) : det3 (transpose3 L) = det3 L.
Proof.
  destruct L as [[[[a11 a12] a13] [[a21 a22] a23]] [[a31 a32] a33]].
  unfold det3, transpose3. ring.
Qed.

Lemma inv3_returns_iff (L : mat3) :
  (det3 L = 0 -> inv3 L = Raise LinAlgError) /\
  (det3 L <> 0 -> inv3 L = Ok (mat_scale (/ det3 L) (adj3 L))).
Proof.
  unfold inv3. split; intros H.
  - replace (Reqb (det3 L) 0) with true by (symmetry; now apply Reqb_true). reflexivity.
  - replace (Reqb (det3 L) 0) with false by (symmetry; now apply Reqb_false). reflexivity.
Qed.

(** the linear combination of [_red_to_cart], as a matrix product *)
Lemma red_to_cart_row (a1 a2 a3 : vec3) (r : vec3) :
  (let '(r0, r1, r2) := r in vadd (vadd (vtimes a1 r0) (vtimes a2 r1)) (vtimes a3 r2))
  = mat_vec (transpose3 (a1, a2, a3)) r.
Proof.
  destruct a1 as [[a11 a12] a13], a2 as [[a21 a22] a23], a3 as [[a31 a32] a33].
  destruct r as [[r0 r1] r2].
  unfold vadd, vtimes, mat_vec, transpose3, vdot. reflexivity.
Qed.

Lemma inverse_left (L : mat3) (v : vec3) :
  det3 L <> 0 -> mat_vec (mat_scale (/ det3 L) (adj3 L)) (mat_vec L v) = v.
Proof.
  intros Hd.
  destruct L as [[[[a11 a12] a13] [[a21 a22] a23]] [[a31 a32] a33]].
  destruct v as [[x y] z].
  unfold mat_vec, mat_scale, adj3, vscale, vdot in *.
  set (d := det3 _) in *.
  assert (Hd' : d = a11 * (a22 * a33 - a23 * a32) - a12 * (a21 * a33 - a23 * a31)
                    + a13 * (a21 * a32 - a22 * a31)) by reflexivity.
  f_equal; [f_equal|].
  - transitivity (/ d * (d * x)); [rewrite Hd'; ring|field; exact Hd].
  - transitivity (/ d * (d * y)); [rewrite Hd'; ring|field; exact Hd].
  - transitivity (/ d * (d * z)); [rewrite Hd'; ring|field; exact Hd].
Qed.

Lemma inverse_right (L : mat3) (v : vec3) :
  det3 L <> 0 -> mat_vec L (mat_vec (mat_scale (/ det3 L) (adj3 L)) v) = v.
Proof.
  intros Hd.
  destruct L as [[[[a11 a12] a13] [[a21 a22] a23]] [[a31 a32] a33]].
  destruct v as [[x y] z].
  unfold mat_vec, mat_scale, adj3, vscale, vdot in *.
  set (d := det3 _) in *.
  assert (Hd' : d = a11 * (a22 * a33 - a23 * a32) - a12 * (a21 * a33 - a23 * a31)
                    + a13 * (a21 * a32 - a22 * a31)) by reflexivity.
  f_equal; [f_equal|].
  - transitivity (/ d * (d * x)); [rewrite Hd'; ring|field; exact Hd].
  - transitivity (/ d * (d * y)); [rewrite Hd'; ring|field; exact Hd].
  - transitivity (/ d * (d * z)); [rewrite Hd'; ring|field; exact Hd].
Qed.

Lemma red_to_cart_as_map (tmp : mat3) (red : list vec3) :
  _red_to_cart tmp red = map (mat_vec (transpose3 tmp)) red.
Proof.
  destruct tmp as [[a1 a2] a3]. unfold _red_to_cart.
  apply map_ext. intros r. apply red_to_cart_row.
Qed.

Lemma cart_to_red_value (tmp : mat3) (cart : list vec3) :
  det3 tmp <> 0 ->
  _cart_to_red tmp cart
  = Ok (map (mat_vec (mat_scale (/ det3 (transpose3 tmp)) (adj3 (transpose3 tmp)))) cart).
Proof.
  intros Hd. unfold _cart_to_red.
  rewrite (proj2 (inv3_returns_iff (transpose3 tmp))) by (now rewrite det3_transpose).
  reflexivity.
Qed.

(** X21: reduced coordinates taken to cartesian ones and back are the
    reduced coordinates again, for linearly independent vectors. *)
Theorem red_cart_red_round_trip (tmp : mat3) (red : list vec3) :
  det3 tmp <> 0 ->
  _cart_to_red tmp (_red_to_cart tmp red) = Ok red.
Proof.
  intros Hd. rewrite cart_to_red_value by exact Hd. f_equal.
  rewrite red_to_cart_as_map, map_map.
  rewrite <- (map_id red) at 2. apply map_ext. intros r.
  apply inverse_left. now rewrite det3_transpose.
Qed.

(** X22: for linearly independent vectors [_cart_to_red] returns as
    many rows as it was given, and [_red_to_cart] takes its result back
    to the cartesian coordinates that were given. *)
Theorem cart_red_cart_round_trip (tmp : mat3) (cart : list vec3) :
  det3 tmp <> 0 ->
  exists red,
    _cart_to_red tmp cart = Ok red /\
    length red = length cart /\
    _red_to_cart tmp red = cart.
Proof.
  intros Hnz. eexists. split; [apply cart_to_red_value; exact Hnz|].
  split; [apply length_map|].
  rewrite red_to_cart_as_map, map_map.
  rewrite <- (map_id cart) at 2. apply map_ext. intros c.
  apply inverse_right. now rewrite det3_transpose.
Qed.

(* ================================================================== *)
(** ** Solving a matrix that is Hermitian within the tolerance *)






(* ================================================================== *)
(** ** Instances of the theorems on the chain *)

Lemma chain_paired t : paired_partners (chain_model t).
Proof.
  unfold paired_partners.
  change (hops (chain_model t))
    with [(1%Z, (1%Z, 0%Z, 0%Z), (0%Z, 0%Z, t));
          (1%Z, ((-1)%Z, 0%Z, 0%Z), (0%Z, 0%Z, Cconj t))].
  cbn [map partner ivneg Z.opp]. rewrite Cconj_involutive.
  apply perm_swap.
Defined.

Lemma chain_integer_offsets t : integer_offsets (chain_model t).
Proof.
  unfold integer_offsets.
  change (hops (chain_model t))
    with [(1%Z, (1%Z, 0%Z, 0%Z), (0%Z, 0%Z, t));
          (1%Z, ((-1)%Z, 0%Z, 0%Z), (0%Z, 0%Z, Cconj t))].
  repeat constructor; exists (0%Z, 0%Z, 0%Z); unfold orb_at; simpl;
    (f_equal; [f_equal|]; ring).
Defined.

Lemma eigvalsh_1x1_ok (h : C) : eigenvalues_of eigvalsh_1x1 [[h]].
Proof.
  split; [reflexivity|]. repeat constructor.
  exists [(1, 0)]. split; [reflexivity|]. split.
  - constructor. unfold C0. intros [= E]. lra.
  - unfold mat_apply; simpl. f_equal. apply C_eq; Csimpl; ring.
Defined.

Lemma C1_gen_ham_is_bloch_sum_witness :
  model_okb (chain_model (1, 0)) = true /\
  exists H,
    _gen_ham (chain_model (1, 0)) (Some (0, 0, 0)) = Ok H /\
    is_square 1 H /\
    (forall i j, (i < 1)%nat -> (j < 1)%nat ->
       get2 H i j = bloch_sum (chain_model (1, 0)) (0, 0, 0) i j) /\
    (forall i j, (i < 1)%nat -> (j < 1)%nat ->
       filter (hop_at i j) (hops (chain_model (1, 0))) = [] -> get2 H i j = C0).
Proof.
  split; [reflexivity|].
  apply (C1_gen_ham_is_bloch_sum (chain_model (1, 0)) (0, 0, 0)). reflexivity.
Defined.

Lemma C2_paired_table_is_hermitian_witness :
  model_okb (chain_model (1, 0)) = true /\
  paired_partners (chain_model (1, 0)) /\
  exists H,
    _gen_ham (chain_model (1, 0)) (Some (/ 4, 0, 0)) = Ok H /\
    hermitian 1 H /\
    hermitian_within 1.0E-9 1 H.
Proof.
  split; [reflexivity|]. split; [apply chain_paired|].
  apply (C2_paired_table_is_hermitian (chain_model (1, 0)) (/ 4, 0, 0)).
  - reflexivity.
  - apply chain_paired.
Defined.

Lemma C3_periodic_on_integer_offsets_witness :
  model_okb (chain_model (1, 0)) = true /\
  integer_offsets (chain_model (1, 0)) /\
  exists H,
    _gen_ham (chain_model (1, 0))
      (Some (vadd (/ 4, 0, 0) (ivec_to_R (1%Z, 0%Z, 0%Z)))) = Ok H /\
    _gen_ham (chain_model (1, 0)) (Some (/ 4, 0, 0)) = Ok H.
Proof.
  split; [reflexivity|]. split; [apply chain_integer_offsets|].
  apply (C3_periodic_on_integer_offsets (chain_model (1, 0)) (/ 4, 0, 0) (1%Z, 0%Z, 0%Z)).
  - reflexivity.
  - apply chain_integer_offsets.
Defined.

Lemma C5_chain_dispersion_witness :
  eigenvalues_of eigvalsh_1x1 [[RtoC (2 * Re (1, 0))]] /\
  _gen_ham (chain_model (1, 0)) (Some (0, 0, 0)) =
    Ok [[RtoC (2 * (Re (1, 0) * cos (2 * PI * 0) - Im (1, 0) * sin (2 * PI * 0)))]].
Proof.
  split; [apply eigvalsh_1x1_ok|].
  apply (C5_chain_dispersion (1, 0) 0 eigvalsh_1x1 eigh_1x1).
  apply eigvalsh_1x1_ok.
Defined.

Lemma C7_uniform_mesh_witness :
  exists K,
    k_uniform_mesh (chain_model (1, 0)) [2; 3; 4]%Z = Ok K /\
    nd_shape K = [24; 3]%nat /\
    nd_row K 23 = (INR 1 / 2, INR 2 / 3, INR 3 / 4).
Proof.
  destruct (C7_uniform_mesh (chain_model (1, 0)) 2 3 4) as (K & Hrun & Hshape & _ & Hrow & _);
    [lia | lia | lia |].
  exists K. split; [exact Hrun|]. split; [exact Hshape|].
  apply (Hrow 1%nat 2%nat 3%nat); cbn; lia.
Defined.

Lemma dklen_unit_x_two_x : dklen identity3 unit_x two_x = 1.
Proof.
  rewrite dklen_identity. unfold unit_x, two_x, vsub, vdot.
  replace ((2 - 1) * (2 - 1) + (0 - 0) * (0 - 0) + (0 - 0) * (0 - 0)) with (1 * 1) by ring.
  apply sqrt_square. lra.
Defined.

(** three equidistant nodes and three points: the middle node gets index 1 *)
Lemma three_node_indices :
  node_indices_with exact_index 3 (node_distances identity3 [origin3; unit_x; two_x]) 3
  = Ok [0%Z; 1%Z; 2%Z].
Proof.
  rewrite node_distances_3, dklen_origin_unit_x, dklen_unit_x_two_x.
  unfold node_indices_with. cbn [Nat.sub seq mapM].
  unfold interior_index_with, exact_index. cbn [nth last].
  replace (Reqb (0 + 1 + 1) 0) with false by (symmetry; apply Reqb_false; lra).
  replace ((0 + 1) / (0 + 1 + 1) * IZR (3 - 1)) with (IZR 1) by (simpl; field).
  rewrite py_round_IZR. reflexivity.
Defined.

Lemma three_indices_increase : increasing [0%Z; 1%Z; 2%Z].
Proof.
  intros k Hk. simpl in Hk.
  destruct k as [|[|k]]; [simpl; lia | simpl; lia | lia].
Defined.

Lemma C8_path_endpoints_and_distances_witness :
  exists k_vec k_dist k_node,
    k_path_with exact_index (chain_model (1, 0)) (nodes_arg [origin3; unit_x; two_x]) 3
      = Ok (k_vec, k_dist, k_node) /\
    length k_vec = 3%nat /\
    nth 0 k_vec vzero = origin3 /\
    last k_vec vzero = two_x.
Proof.
  destruct (C8_path_endpoints_and_distances exact_index (chain_model (1, 0))
              [origin3; unit_x; two_x] 3 identity3 [0%Z; 1%Z; 2%Z])
    as (kv & kd & kn & Hrun & Hl & _ & H0 & Hlast & _).
  - apply identity_metric.
  - simpl. lia.
  - simpl. lia.
  - apply three_node_indices.
  - apply three_indices_increase.
  - exists kv, kd, kn. repeat split; assumption.
Defined.



Lemma C9_validation_rejects_witness :
  exists e,
    k_path (chain_model (1, 0)) (nodes_arg [origin3; unit_x]) 1 = Raise e /\
    ConfigurationError e.
Proof.
  destruct C9_validation_rejects as (_ & _ & Hpath).
  apply Hpath; [discriminate | simpl; lia].
Defined.

(* ================================================================== *)
(** ** Instances of the further properties *)

Lemma origin_is_not_unit_x : origin3 <> unit_x.
Proof. unfold origin3, unit_x. intros [= E]. lra. Defined.

Lemma identity3_regular : det3 identity3 <> 0.
Proof.
  replace (det3 identity3) with 1 by (unfold det3, identity3; ring). lra.
Defined.

Lemma gen_ham_returns_iff_witness :
  exists H, _gen_ham (chain_from_end (1, 0)) (Some (0, 0, 0)) = Ok H /\ is_square 1 H.
Proof.
  apply (gen_ham_returns_iff (chain_from_end (1, 0)) (0, 0, 0)); reflexivity.
Defined.

Lemma gen_ham_negative_indices_wrap_witness :
  _gen_ham (chain_from_end (1, 0)) (Some (/ 4, 0, 0))
  = _gen_ham (wrap_indices (chain_from_end (1, 0))) (Some (/ 4, 0, 0)).
Proof.
  apply (gen_ham_negative_indices_wrap (chain_from_end (1, 0)) (/ 4, 0, 0));
    [reflexivity | | reflexivity].
  apply Forall_forall. intros h Hh. simpl in Hh.
  destruct Hh as [<-|[<-|[]]]; discriminate.
Defined.

Lemma gen_ham_order_independent_witness :
  _gen_ham (chain_reversed (0, 1)) (Some (/ 4, 0, 0))
  = _gen_ham (chain_model (0, 1)) (Some (/ 4, 0, 0)).
Proof.
  apply (gen_ham_order_independent (chain_model (0, 1)) (chain_reversed (0, 1)) (/ 4, 0, 0));
    [reflexivity | reflexivity | reflexivity |].
  change (hops (chain_model (0, 1)))
    with [(1%Z, (1%Z, 0%Z, 0%Z), (0%Z, 0%Z, (0, 1)));
          (1%Z, ((-1)%Z, 0%Z, 0%Z), (0%Z, 0%Z, Cconj (0, 1)))].
  change (hops (chain_reversed (0, 1)))
    with [(1%Z, ((-1)%Z, 0%Z, 0%Z), (0%Z, 0%Z, Cconj (0, 1)));
          (1%Z, (1%Z, 0%Z, 0%Z), (0%Z, 0%Z, (0, 1)))].
  apply perm_swap.
Defined.

Lemma gen_ham_additive_witness :
  exists H1 H2 H12,
    _gen_ham (chain_model (1, 0)) (Some (/ 4, 0, 0)) = Ok H1 /\
    _gen_ham (chain_model (0, 1)) (Some (/ 4, 0, 0)) = Ok H2 /\
    _gen_ham (join_tables (chain_model (1, 0)) (chain_model (0, 1))) (Some (/ 4, 0, 0))
      = Ok H12 /\
    forall i j, (i < 1)%nat -> (j < 1)%nat ->
      get2 H12 i j = Cadd (get2 H1 i j) (get2 H2 i j).
Proof.
  apply (gen_ham_additive (chain_model (1, 0)) (chain_model (0, 1)) (/ 4, 0, 0));
    try reflexivity.
  split; reflexivity.
Defined.

Lemma gen_ham_time_reversal_witness :
  exists H H',
    _gen_ham (chain_model (1, 0)) (Some (/ 4, 0, 0)) = Ok H /\
    _gen_ham (chain_model (1, 0)) (Some (vneg (/ 4, 0, 0))) = Ok H' /\
    forall i j, (i < 1)%nat -> (j < 1)%nat -> get2 H' i j = Cconj (get2 H i j).
Proof.
  apply (gen_ham_time_reversal (chain_model (1, 0)) (/ 4, 0, 0)); [reflexivity|].
  unfold real_amplitudes.
  change (hops (chain_model (1, 0)))
    with [(1%Z, (1%Z, 0%Z, 0%Z), (0%Z, 0%Z, (1, 0)));
          (1%Z, ((-1)%Z, 0%Z, 0%Z), (0%Z, 0%Z, Cconj (1, 0)))].
  repeat constructor; simpl; lra.
Defined.

Lemma sol_ham_outcome_witness :
  exists s, _sol_ham eigvalsh_1x1 eigh_1x1 [[RtoC 1]] false = Ok s.
Proof.
  apply (sol_ham_outcome eigvalsh_1x1 eigh_1x1 1 [[RtoC 1]] false).
  - split; [reflexivity|]. repeat constructor.
  - lia.
  - intros (i & j & Hi & Hj & Hobj).
    assert (i = 0%nat) by lia. assert (j = 0%nat) by lia. subst i j.
    unfold check_objects, get2, RtoC in Hobj. simpl in Hobj. lra.
Defined.

Lemma sol_ham_accepts_hermitian_witness :
  _sol_ham eigvalsh_1x1 eigh_1x1 [[RtoC 1]] false =
    Ok (Evals (solution_evals (_nicefy_eig (eigvalsh_1x1 [[RtoC 1]]) None))).
Proof.
  apply (sol_ham_accepts_hermitian eigvalsh_1x1 eigh_1x1 1 [[RtoC 1]]).
  - split; [reflexivity|]. repeat constructor.
  - lia.
  - intros i j Hi Hj.
    assert (i = 0%nat) by lia. assert (j = 0%nat) by lia. subst i j.
    unfold get2, RtoC, Cconj. simpl. f_equal. lra.
Defined.

Lemma nicefy_keeps_pairs_witness :
  exists E V,
    _nicefy_eig [RtoC 2; RtoC 1] (Some [[RtoC 1; C0]; [C0; RtoC 1]]) = EvalsVecs E V /\
    StronglySorted Rle E /\
    length V = length E /\
    Permutation (combine (map Re [RtoC 2; RtoC 1]) [[RtoC 1; C0]; [C0; RtoC 1]])
                (combine E V).
Proof.
  apply (nicefy_keeps_pairs [RtoC 2; RtoC 1] [[RtoC 1; C0]; [C0; RtoC 1]]).
  reflexivity.
Defined.

Lemma mesh_points_distinct_witness :
  exists K,
    k_uniform_mesh (chain_model (1, 0)) [2; 3; 4]%Z = Ok K /\
    nd_row K 5 <> nd_row K 7.
Proof.
  eexists. split; [apply mesh_run; lia|].
  intros Heq.
  assert (E : 5%nat = 7%nat).
  { eapply (mesh_points_distinct (chain_model (1, 0)) 2 3 4);
      [lia | lia | lia | apply mesh_run; lia | cbn; lia | cbn; lia | exact Heq]. }
  discriminate E.
Defined.

Lemma constructed_metric_is_a_distance_witness :
  exists k_metric,
    inv3 (mat_mul (_lat (chain_model (1, 0))) (transpose3 (_lat (chain_model (1, 0)))))
      = Ok k_metric /\
    (forall dk, 0 <= vdot dk (mat_vec k_metric dk)) /\
    (forall a b, dklen k_metric a b = dklen k_metric b a) /\
    (forall a b, dklen k_metric a b = 0 <-> a = b).
Proof.
  apply (constructed_metric_is_a_distance (chain_model (1, 0))).
  apply chain_constructed.
Defined.

Lemma k_path_outcome_witness :
  exists k_metric,
    inv3 (mat_mul (_lat (chain_model (1, 0))) (transpose3 (_lat (chain_model (1, 0)))))
      = Ok k_metric /\
    (forall e,
       node_indices_with exact_index 3
         (node_distances k_metric [origin3; unit_x; two_x]) 3 = Raise e ->
       k_path_with exact_index (chain_model (1, 0))
         (nodes_arg [origin3; unit_x; two_x]) 3 = Raise e) /\
    (forall node_index,
       node_indices_with exact_index 3
         (node_distances k_metric [origin3; unit_x; two_x]) 3 = Ok node_index ->
       Forall (fun i => (0 <= i <= 3 - 1)%Z) node_index ->
       (no_empty_segment node_index ->
          exists k_vec k_dist,
            k_path_with exact_index (chain_model (1, 0))
              (nodes_arg [origin3; unit_x; two_x]) 3
            = Ok (k_vec, k_dist, node_distances k_metric [origin3; unit_x; two_x])) /\
       (~ no_empty_segment node_index ->
          k_path_with exact_index (chain_model (1, 0))
            (nodes_arg [origin3; unit_x; two_x]) 3 = Raise ZeroDivisionError)).
Proof.
  apply (k_path_outcome exact_index (chain_model (1, 0)) [origin3; unit_x; two_x] 3).
  - apply chain_constructed.
  - simpl. lia.
  - simpl. lia.
Defined.

Lemma k_path_repeated_node_raises_witness :
  k_path (chain_model (1, 0)) (nodes_arg [origin3; origin3; unit_x]) 5
  = Raise ZeroDivisionError.
Proof.
  apply (k_path_repeated_node_raises (chain_model (1, 0)) [origin3; origin3; unit_x] 5 0).
  - apply chain_constructed.
  - simpl. lia.
  - simpl. lia.
  - simpl. lia.
  - reflexivity.
  - intros Hall. apply origin_is_not_unit_x. apply Hall; simpl; auto.
Defined.

Lemma k_path_piecewise_linear_witness :
  exists k_vec k_dist,
    k_path_with exact_index (chain_model (1, 0)) (nodes_arg [origin3; unit_x; two_x]) 3
      = Ok (k_vec, k_dist, node_distances identity3 [origin3; unit_x; two_x]) /\
    nth 1 k_vec vzero = point_vec 1 2 unit_x two_x 1.
Proof.
  destruct (k_path_piecewise_linear exact_index (chain_model (1, 0))
              [origin3; unit_x; two_x] 3 identity3 [0%Z; 1%Z; 2%Z])
    as (kv & kd & Hrun & _ & _ & _ & Hval).
  - apply identity_metric.
  - simpl. lia.
  - simpl. lia.
  - apply three_node_indices.
  - apply three_indices_increase.
  - exists kv, kd. split; [exact Hrun|].
    apply (Hval 2%nat 1%nat); simpl; lia.
Defined.

Lemma k_path_passes_through_nodes_witness :
  exists k_vec k_dist,
    k_path_with exact_index (chain_model (1, 0)) (nodes_arg [origin3; unit_x; two_x]) 3
      = Ok (k_vec, k_dist, node_distances identity3 [origin3; unit_x; two_x]) /\
    nth 1 k_vec vzero = unit_x.
Proof.
  destruct (k_path_passes_through_nodes exact_index (chain_model (1, 0))
              [origin3; unit_x; two_x] 3 identity3 [0%Z; 1%Z; 2%Z])
    as (kv & kd & Hrun & Hval).
  - apply identity_metric.
  - simpl. lia.
  - simpl. lia.
  - apply three_node_indices.
  - apply three_indices_increase.
  - exists kv, kd. split; [exact Hrun|].
    apply (Hval 1%nat). simpl. lia.
Defined.

Lemma k_path_two_nodes_uniform_witness :
  exists k_metric k_vec k_dist,
    inv3 (mat_mul (_lat (chain_model (1, 0))) (transpose3 (_lat (chain_model (1, 0)))))
      = Ok k_metric /\
    k_path (chain_model (1, 0)) (nodes_arg [origin3; unit_x]) 3
      = Ok (k_vec, k_dist, [0; 0 + dklen k_metric origin3 unit_x]) /\
    length k_vec = Z.to_nat 3 /\ length k_dist = Z.to_nat 3 /\
    forall p, (p < Z.to_nat 3)%nat ->
      nth p k_vec vzero
        = vadd origin3 (vscale (IZR (Z.of_nat p) / IZR (3 - 1)) (vsub unit_x origin3)) /\
      nth p k_dist 0 = IZR (Z.of_nat p) / IZR (3 - 1) * dklen k_metric origin3 unit_x.
Proof.
  apply (k_path_two_nodes_uniform (chain_model (1, 0)) origin3 unit_x 3).
  - apply chain_constructed.
  - lia.
Defined.

Lemma k_path_single_node_witness :
  k_path (chain_model (1, 0)) (nodes_arg [unit_x]) 2
  = Ok (unit_x :: repeat vzero (Z.to_nat 2 - 1), repeat 0 (Z.to_nat 2), [0]).
Proof.
  apply (k_path_single_node (chain_model (1, 0)) unit_x 2).
  - apply chain_constructed.
  - lia.
Defined.

Lemma red_cart_red_round_trip_witness :
  _cart_to_red identity3 (_red_to_cart identity3 [unit_x]) = Ok [unit_x].
Proof.
  apply (red_cart_red_round_trip identity3 [unit_x]). apply identity3_regular.
Defined.

Lemma cart_red_cart_round_trip_witness :
  exists red,
    _cart_to_red identity3 [unit_x; two_x] = Ok red /\
    length red = 2%nat /\
    _red_to_cart identity3 red = [unit_x; two_x].
Proof.
  apply (cart_red_cart_round_trip identity3 [unit_x; two_x]). apply identity3_regular.
Defined.
